(** * Debt simplification engine of the family expense tracker

    A shallow embedding of [utils/debtCalculator.js] (the aggregator
    [calculateRawDebts] and the greedy simplifier [simplifyDebts]), of the
    share validation of [POST api/expenses] and [PUT api/expenses/:id], of
    the settlement-record handlers of [routes/debts.js] ([calculate],
    [settle], [finalize] and the preview [current]) and of the family routes
    ([createFamily], [joinFamily], [leaveFamily], [transferOwnership]).

    Modelling conventions.
    - A JavaScript [Number] is modelled twice.  [DebtCalculator] and the
      route handlers compute with exact rationals ([Q]): sums, products and
      comparisons are the exact ones, and equality of amounts is [Qeq].
      [Binary64] repeats the calculator with the numbers of the code, the
      binary64 floats of IEEE 754 (Rocq's primitive floats and their
      specification): additions round, sums overflow to an infinity, and
      [Infinity - Infinity] is [NaN].  A statement that depends on the
      arithmetic is made about [Binary64], or says that it is about exact
      arithmetic.
    - A JavaScript object used as a map is an association list in property
      insertion order: [Object.keys] enumerates string keys in the order in
      which they were first assigned (user ids are ObjectId strings, never
      array-index keys), and assigning an existing property keeps its
      position.
    - [simplifyDebts] need not return in double precision: its loop is run
      with a bound on the number of iterations, and the function returns a
      list when some bound suffices.
    - [Date.now()] is a parameter [now] of the handler.
    - The document store is an explicit state threaded through the handlers. *)

From Stdlib Require Import QArith Qabs Qround Qminmax ZArith List String Bool.
From Stdlib Require Import Lia Lqa Permutation Sorted.
From Stdlib Require Import Floats.
From Stdlib Require Uint63.

Set Warnings "-inexact-float".
Import ListNotations.

Local Open Scope string_scope.
Local Open Scope list_scope.
Local Open Scope Q_scope.

(** ** JavaScript objects as insertion-ordered maps *)

Module JsObject.

Section Obj.
Context {V : Type}.

Definition t := list (string * V).

(** [o[k]]: the value of property [k], [None] for [undefined]. *)
Fixpoint get (k : string) (o : t) : option V :=
  match o with
  | [] => None
  | (k', v) :: o' => if String.eqb k k' then Some v else get k o'
  end.

(** [o[k] = v]: overwrite in place, or append a new property. *)
Fixpoint set (k : string) (v : V) (o : t) : t :=
  match o with
  | [] => [(k, v)]
  | (k', v') :: o' =>
      if String.eqb k k' then (k, v) :: o' else (k', v') :: set k v o'
  end.

(** [Object.keys(o)]. *)
Definition keys (o : t) : list string := map fst o.

End Obj.

Arguments t : clear implicits.

End JsObject.

Import JsObject.

(** [!x] on a number: true for [0] (and for [undefined], handled by the
    callers through [get]). *)
Definition falsy (x : Q) : bool := Qeq_bool x 0.

(** [x < y] on numbers. *)
Definition Qltb (x y : Q) : bool := negb (Qle_bool y x).

(** Reading a numeric property that the surrounding code has initialised. *)
Definition getNum (k : string) (o : JsObject.t Q) : Q :=
  match get k o with Some v => v | None => 0 end.

(** [if (!o[k]) o[k] = 0;] *)
Definition initZero (k : string) (o : JsObject.t Q) : JsObject.t Q :=
  match get k o with
  | Some v => if falsy v then set k 0 o else o
  | None => set k 0 o
  end.

(** ** utils/debtCalculator.js *)

Module DebtCalculator.

Record Share := mkShare
  { share_user : string;
    shareType : string;
    shareValue : Q }.

Record Expense := mkExpense
  { creator : string;
    amount : Q;
    sharedAmongst : list Share }.

(** The raw debt map: debtor -> creditor -> accumulated amount. *)
Definition DebtMap := JsObject.t (JsObject.t Q).

(** Lines 31-39: the amount one share owes to the creator. *)
Definition owedAmount (amount : Q) (shareType : string) (shareValue : Q) : Q :=
  if String.eqb shareType "equal" then amount * shareValue
  else if String.eqb shareType "percentage" then amount * (shareValue / 100)
  else if String.eqb shareType "fixed" then shareValue
  else 0.

(** Lines 41-50: [debtMap[user][creator] += owedAmount], creating the row
    and the entry when they are missing. *)
Definition addDebt (user creator : string) (owed : Q) (debtMap : DebtMap)
  : DebtMap :=
  let debtMap1 :=
    match get user debtMap with
    | Some _ => debtMap
    | None => set user [] debtMap
    end in
  let row := match get user debtMap1 with Some r => r | None => [] end in
  let row1 := initZero creator row in
  let row2 := set creator (getNum creator row1 + owed) row1 in
  set user row2 debtMap1.

(** Lines 22-51: the body of the inner [forEach]. *)
Definition processShare (creator : string) (amount : Q)
    (debtMap : DebtMap) (share : Share) : DebtMap :=
  let user := share_user share in
  if String.eqb user creator then debtMap
  else
    addDebt user creator
            (owedAmount amount (shareType share) (shareValue share)) debtMap.

(** Lines 17-52: the body of the outer [forEach]. *)
Definition processExpense (debtMap : DebtMap) (expense : Expense) : DebtMap :=
  fold_left (processShare (creator expense) (amount expense))
            (sharedAmongst expense) debtMap.

Definition calculateRawDebts (expenses : list Expense) : DebtMap :=
  fold_left processExpense expenses [].

(** *** simplifyDebts *)

(** Lines 70-76: one entry [rawDebts[debtor][creditor]]. *)
Definition balanceEntry (row : JsObject.t Q) (debtor : string)
    (balances : JsObject.t Q) (creditor : string) : JsObject.t Q :=
  let balances1 := initZero creditor balances in
  let amount := getNum creditor row in
  let balances2 := set debtor (getNum debtor balances1 - amount) balances1 in
  set creditor (getNum creditor balances2 + amount) balances2.

(** Lines 67-77: one debtor key of the raw map. *)
Definition balanceDebtor (rawDebts : DebtMap)
    (balances : JsObject.t Q) (debtor : string) : JsObject.t Q :=
  let balances1 := initZero debtor balances in
  let row := match get debtor rawDebts with Some r => r | None => [] end in
  fold_left (balanceEntry row debtor) (keys row) balances1.

(** Lines 64-77. *)
Definition netBalances (rawDebts : DebtMap) : JsObject.t Q :=
  fold_left (balanceDebtor rawDebts) (keys rawDebts) [].

(** An element of the [debtors] and [creditors] arrays. *)
Record Party := mkParty
  { party_user : string;
    party_amount : Q }.

(** Lines 83-91: the body of the classifying [forEach]. *)
Definition classify (balances : JsObject.t Q)
    (acc : list Party * list Party) (user : string) : list Party * list Party :=
  let balance := getNum user balances in
  if Qltb balance (- (1 # 100)) then
    (fst acc ++ [mkParty user (- balance)], snd acc)
  else if Qltb (1 # 100) balance then
    (fst acc, snd acc ++ [mkParty user balance])
  else acc.

Definition partitionUsers (balances : JsObject.t Q) : list Party * list Party :=
  fold_left (classify balances) (keys balances) ([], []).

(** [Array.prototype.sort] with the comparator [(a, b) => b.amount - a.amount]:
    a stable sort, [a] is placed after [b] when the comparator is positive. *)
Definition compareFn (a b : Party) : Q := party_amount b - party_amount a.

Fixpoint insertSorted (a : Party) (l : list Party) : list Party :=
  match l with
  | [] => [a]
  | b :: l' =>
      if Qltb 0 (compareFn a b) then b :: insertSorted a l' else a :: b :: l'
  end.

Definition sortDesc (l : list Party) : list Party :=
  fold_right insertSorted [] l.

Record Transaction := mkTransaction
  { from : string;
    to : string;
    tx_amount : Q }.

(** [Math.round]: the nearest integer, ties towards plus infinity. *)
Definition Math_round (x : Q) : Z := Qfloor (x + (1 # 2)).

(** [Math.round(amount * 100) / 100]. *)
Definition round2 (amount : Q) : Q := inject_Z (Math_round (amount * 100)) / 100.

(** The state of the matching loop. *)
Record LoopState := mkLoop
  { debtors : list Party;
    creditors : list Party;
    transactions : list Transaction }.

(** Lines 101-120: one iteration, with [debtor] and [creditor] the fronts of
    the two arrays. *)
Definition loopBody (debtor : Party) (debtors' : list Party)
    (creditor : Party) (creditors' : list Party)
    (transactions : list Transaction) : LoopState :=
  let amount := Qmin (party_amount debtor) (party_amount creditor) in
  let transactions1 :=
    transactions ++ [mkTransaction (party_user debtor) (party_user creditor)
                                   (round2 amount)] in
  let debtor1 := mkParty (party_user debtor) (party_amount debtor - amount) in
  let creditor1 := mkParty (party_user creditor) (party_amount creditor - amount) in
  mkLoop (if Qltb (party_amount debtor1) (1 # 100) then debtors'
          else debtor1 :: debtors')
         (if Qltb (party_amount creditor1) (1 # 100) then creditors'
          else creditor1 :: creditors')
         transactions1.

(** Lines 100-121: the [while] loop, run for at most [fuel] iterations;
    [None] when the fuel runs out before the loop condition fails. *)
Fixpoint whileLoop (fuel : nat) (st : LoopState) : option (list Transaction) :=
  match debtors st, creditors st with
  | debtor :: debtors', creditor :: creditors' =>
      match fuel with
      | O => None
      | S fuel' =>
          whileLoop fuel'
            (loopBody debtor debtors' creditor creditors' (transactions st))
      end
  | _, _ => Some (transactions st)
  end.

(** Lines 80-98: the state in which the loop is entered. *)
Definition initialState (rawDebts : DebtMap) : LoopState :=
  let parts := partitionUsers (netBalances rawDebts) in
  mkLoop (sortDesc (fst parts)) (sortDesc (snd parts)) [].

Definition simplifyDebtsFuel (fuel : nat) (rawDebts : DebtMap)
  : option (list Transaction) :=
  whileLoop fuel (initialState rawDebts).

(** The number of iterations that always suffices (see [whileLoop_total]). *)
Definition iterationBound (st : LoopState) : nat :=
  (List.length (debtors st) + List.length (creditors st))%nat.

Definition simplifyDebts (rawDebts : DebtMap) : option (list Transaction) :=
  simplifyDebtsFuel (iterationBound (initialState rawDebts)) rawDebts.

End DebtCalculator.

Import DebtCalculator.

(** ** routes/expenses.js: share validation of [POST api/expenses] *)

Module ExpenseRoutes.

(** A share as it arrives in the request body: [shareType] and [shareValue]
    may be left out. *)
Record ShareInput := mkShareInput
  { in_user : string;
    in_shareType : option string;
    in_shareValue : option Q }.

Inductive Outcome :=
| Status (code : nat) (msg : string)
| Saved (expense : Expense).

(** [share.shareValue || 0] *)
Definition valueOrZero (v : option Q) : Q :=
  match v with Some x => x | None => 0 end.

(** [sharedAmongst[0].shareType || 'equal'] *)
Definition typeOrEqual (t : option string) : string :=
  match t with
  | Some s => if String.eqb s "" then "equal" else s
  | None => "equal"
  end.

(** [sharedAmongst.reduce((sum, share) => sum + (share.shareValue || 0), 0)] *)
Definition totalShareValue (sharedAmongst : list ShareInput) : Q :=
  fold_left (fun sum share => sum + valueOrZero (in_shareValue share))
            sharedAmongst 0.

(** models/Expense.js: the schema of one share, with its defaults and the
    [enum] validator of [shareType]. *)
Definition castShare (share : ShareInput) : option Share :=
  let shareType :=
    match in_shareType share with Some s => s | None => "equal" end in
  if String.eqb shareType "equal" || String.eqb shareType "percentage"
     || String.eqb shareType "fixed"
  then Some (mkShare (in_user share) shareType
                     (valueOrZero (in_shareValue share)))
  else None.

Fixpoint castShares (l : list ShareInput) : option (list Share) :=
  match l with
  | [] => Some []
  | share :: l' =>
      match castShare share, castShares l' with
      | Some s, Some ss => Some (s :: ss)
      | _, _ => None
      end
  end.

(** Lines 52-100: the shares to store, or the rejection. *)
Definition processSharedAmongst (amount : Q) (familyMemberIds : list string)
    (sharedAmongst : list ShareInput) : Outcome + list ShareInput :=
  match sharedAmongst with
  | first :: _ =>
      if negb (forallb (fun share =>
                          existsb (String.eqb (in_user share)) familyMemberIds)
                       sharedAmongst)
      then inl (Status 400 "All shared users must be family members")
      else
        let shareType := typeOrEqual (in_shareType first) in
        if String.eqb shareType "equal" then
          let shareValue := 1 / inject_Z (Z.of_nat (List.length sharedAmongst)) in
          inr (map (fun share =>
                      mkShareInput (in_user share) (Some "equal") (Some shareValue))
                   sharedAmongst)
        else if String.eqb shareType "percentage" then
          if Qltb (1 # 100) (Qabs (totalShareValue sharedAmongst - 100))
          then inl (Status 400 "Percentage shares must total 100%")
          else inr sharedAmongst
        else if String.eqb shareType "fixed" then
          if Qltb (1 # 100) (Qabs (totalShareValue sharedAmongst - amount))
          then inl (Status 400 "Fixed shares must total to expense amount")
          else inr sharedAmongst
        else inr []
  | [] =>
      let shareValue := 1 / inject_Z (Z.of_nat (List.length familyMemberIds)) in
      inr (map (fun member =>
                  mkShareInput member (Some "equal") (Some shareValue))
               familyMemberIds)
  end.

(** Lines 39-125: the handler once the request fields have passed the
    express-validator checks; [userId] is the authenticated user. *)
Definition postExpense (userId : string) (amount : Q)
    (familyMemberIds : list string) (sharedAmongst : list ShareInput)
  : Outcome :=
  if negb (existsb (String.eqb userId) familyMemberIds) then
    Status 403 "Not authorized to add expenses to this family"
  else
    match processSharedAmongst amount familyMemberIds sharedAmongst with
    | inl rejection => rejection
    | inr processedSharedAmongst =>
        match castShares processedSharedAmongst with
        | Some shares => Saved (mkExpense userId amount shares)
        | None => Status 500 "Server Error"
        end
    end.

End ExpenseRoutes.

(** ** routes/debts.js: the settlement-record handlers *)

Module DebtRoutes.

Record Member := mkMember
  { member_user : string;
    role : string }.

Record Family := mkFamily
  { family_id : string;
    members : list Member }.

(** An expense document: the fields the debt routes query on, and the part
    that the calculator reads. *)
Record ExpenseDoc := mkExpenseDoc
  { expense_family : string;
    expense_date : Z;
    expense_data : Expense }.

(** An element of [debt.debts] (models/Debt.js). *)
Record DebtItem := mkDebtItem
  { item_from : string;
    item_to : string;
    item_amount : Q;
    settled : bool;
    settledAt : option Z }.

(** A settlement record (models/Debt.js). *)
Record Debt := mkDebt
  { debt_id : nat;
    family : string;
    startDate : Z;
    endDate : Z;
    debts : list DebtItem;
    isFinalized : bool;
    finalizedAt : option Z;
    createdAt : Z;
    updatedAt : Z }.

(** The collections of the document store. *)
Record Db := mkDb
  { families : list Family;
    expenseDocs : list ExpenseDoc;
    debtDocs : list Debt }.

Inductive Response :=
| Json (debt : Debt)
| Errors (msgs : list string)
| Status (code : nat) (msg : string)
| NoResponse.

(** [Debt.findById]. *)
Definition findById (debtId : nat) (db : Db) : option Debt :=
  find (fun d => Nat.eqb (debt_id d) debtId) (debtDocs db).

(** [debt.save()] on a document that was loaded from the store. *)
Fixpoint updateDoc (debt : Debt) (docs : list Debt) : list Debt :=
  match docs with
  | [] => []
  | d :: docs' =>
      if Nat.eqb (debt_id d) (debt_id debt) then debt :: docs'
      else d :: updateDoc debt docs'
  end.

Definition save (debt : Debt) (db : Db) : Db :=
  mkDb (families db) (expenseDocs db) (updateDoc debt (debtDocs db)).

(** [debt.save()] on a document made by [new Debt(...)], whose identifier is
    generated and differs from the stored ones. *)
Definition freshId (db : Db) : nat :=
  S (fold_right (fun d m => Nat.max (debt_id d) m) O (debtDocs db)).

Definition insert (debt : Debt) (db : Db) : Db :=
  mkDb (families db) (expenseDocs db) (debtDocs db ++ [debt]).

(** Lines 13-22. *)
Definition isFamilyHead (userId familyId : string) (db : Db) : bool :=
  match find (fun f => String.eqb (family_id f) familyId) (families db) with
  | None => false
  | Some family =>
      match find (fun member => String.eqb (role member) "head"
                                && String.eqb (member_user member) userId)
                 (members family) with
      | Some _ => true
      | None => false
      end
  end.

(** Lines 25-30. *)
Definition isFamilyMember (userId familyId : string) (db : Db) : bool :=
  match find (fun f => String.eqb (family_id f) familyId) (families db) with
  | None => false
  | Some family =>
      existsb (fun member => String.eqb (member_user member) userId)
              (members family)
  end.

(** Lines 157-162: a finalized record of the family whose period overlaps
    the requested one. *)
Definition findFinalizedDebt (familyId : string) (reqStart reqEnd : Z)
    (db : Db) : option Debt :=
  find (fun d => String.eqb (family d) familyId
                 && isFinalized d
                 && (startDate d <=? reqEnd)%Z
                 && (reqStart <=? endDate d)%Z)
       (debtDocs db).

(** Lines 172-175: the expenses of the family dated within the period. *)
Definition findExpenses (familyId : string) (reqStart reqEnd : Z) (db : Db)
  : list Expense :=
  map expense_data
      (filter (fun e => String.eqb (expense_family e) familyId
                        && (reqStart <=? expense_date e)%Z
                        && (expense_date e <=? reqEnd)%Z)
              (expenseDocs db)).

(** A simplified transaction as an element of [debts], with the schema
    default [settled = false]. *)
Definition newItem (t : Transaction) : DebtItem :=
  mkDebtItem (from t) (to t) (tx_amount t) false None.

(** Lines 140-212: [POST api/debts/calculate/:familyId].  The validators
    require [startDate] and [endDate] to be present. *)
Definition calculate (now : Z) (userId familyId : string)
    (reqStart reqEnd : option Z) (db : Db) : Response * Db :=
  match reqStart, reqEnd with
  | Some reqStart, Some reqEnd =>
      if negb (isFamilyMember userId familyId db) then
        (Status 403 "Not authorized to calculate debts for this family", db)
      else
        match findFinalizedDebt familyId reqStart reqEnd db with
        | Some _ => (Status 400 "This period has already been finalized", db)
        | None =>
            let expenses := findExpenses familyId reqStart reqEnd db in
            if Nat.eqb (List.length expenses) 0 then
              (Status 400 "No expenses found for the given period", db)
            else
              let rawDebts := calculateRawDebts expenses in
              match simplifyDebts rawDebts with
              | None => (NoResponse, db)
              | Some simplifiedDebts =>
                  let debt :=
                    mkDebt (freshId db) familyId reqStart reqEnd
                           (map newItem simplifiedDebts) false None now now in
                  (Json debt, insert debt db)
              end
        end
  | None, _ => (Errors ["Start date is required"], db)
  | _, None => (Errors ["End date is required"], db)
  end.

(** [debt.debts[debtIndex] = item]. *)
Fixpoint setItem (i : nat) (item : DebtItem) (l : list DebtItem)
  : list DebtItem :=
  match l, i with
  | [], _ => []
  | _ :: l', O => item :: l'
  | x :: l', S i' => x :: setItem i' item l'
  end.

(** Lines 226-283: [POST api/debts/settle/:debtId].  The validator requires
    a numeric [debtIndex]; it is an integer here. *)
Definition settle (now : Z) (userId : string) (debtId : nat)
    (debtIndex : option Z) (db : Db) : Response * Db :=
  match debtIndex with
  | None => (Errors ["Debt index is required"], db)
  | Some debtIndex =>
      match findById debtId db with
      | None => (Status 404 "Debt record not found", db)
      | Some debt =>
          if negb (isFamilyHead userId (family debt) db) then
            (Status 403 "Only head of family can settle debts", db)
          else if isFinalized debt then
            (Status 400 "This debt record is already finalized", db)
          else if (debtIndex <? 0)%Z
                  || (Z.of_nat (List.length (debts debt)) <=? debtIndex)%Z then
            (Status 400 "Invalid debt index", db)
          else
            match nth_error (debts debt) (Z.to_nat debtIndex) with
            | None => (Status 500 "Server Error", db)
            | Some item =>
                if settled item then
                  (Status 400 "This debt is already settled", db)
                else
                  let item' :=
                    mkDebtItem (item_from item) (item_to item)
                               (item_amount item) true (Some now) in
                  let debt' :=
                    mkDebt (debt_id debt) (family debt) (startDate debt)
                           (endDate debt)
                           (setItem (Z.to_nat debtIndex) item' (debts debt))
                           (isFinalized debt) (finalizedAt debt)
                           (createdAt debt) now in
                  (Json debt', save debt' db)
            end
      end
  end.

(** Lines 289-336: [POST api/debts/finalize/:debtId]. *)
Definition finalize (now : Z) (userId : string) (debtId : nat) (db : Db)
  : Response * Db :=
  match findById debtId db with
  | None => (Status 404 "Debt record not found", db)
  | Some debt =>
      if negb (isFamilyHead userId (family debt) db) then
        (Status 403 "Only head of family can finalize debts", db)
      else if isFinalized debt then
        (Status 400 "This debt record is already finalized", db)
      else
        let allSettled := forallb settled (debts debt) in
        if negb allSettled then
          (Status 400 "All debts must be settled before finalizing", db)
        else
          let debt' :=
            mkDebt (debt_id debt) (family debt) (startDate debt) (endDate debt)
                   (debts debt) true (Some now) (createdAt debt) now in
          (Json debt', save debt' db)
  end.

(** The requests that reach the settlement records. *)
Inductive Request :=
| Calculate (userId familyId : string) (reqStart reqEnd : option Z)
| Settle (userId : string) (debtId : nat) (debtIndex : option Z)
| Finalize (userId : string) (debtId : nat).

Definition handle (now : Z) (r : Request) (db : Db) : Response * Db :=
  match r with
  | Calculate userId familyId reqStart reqEnd =>
      calculate now userId familyId reqStart reqEnd db
  | Settle userId debtId debtIndex => settle now userId debtId debtIndex db
  | Finalize userId debtId => finalize now userId debtId db
  end.

(** The stores that can follow [db]: any number of debt requests, interleaved
    with the family and expense routes, which touch the other collections
    only. *)
Inductive reachable (db : Db) : Db -> Prop :=
| reach_here : reachable db db
| reach_request db' now r :
    reachable db db' -> reachable db (snd (handle now r db'))
| reach_other db' families' expenseDocs' :
    reachable db db' ->
    reachable db (mkDb families' expenseDocs' (debtDocs db')).

(** A response that reports a failure to the client. *)
Definition rejected (r : Response) : bool :=
  match r with
  | Status _ _ | Errors _ => true
  | Json _ | NoResponse => false
  end.

End DebtRoutes.

Import DebtRoutes.

(** * Definitions used in the statements *)

(** ** Balances *)

(** The sum of all values of a numeric object. *)
Definition sumValues (o : JsObject.t Q) : Q :=
  fold_right (fun kv acc => snd kv + acc) 0 o.

(** The sum of [balances[user]] over a list of users. *)
Definition sumOver (users : list string) (balances : JsObject.t Q) : Q :=
  fold_right (fun user acc => getNum user balances + acc) 0 users.

(** ** The worked example: A pays 90 for A, B and C; B pays 30 for B and C *)

Module Example.

Definition expense1 : Expense :=
  mkExpense "A" 90
    [mkShare "A" "equal" (1 # 3); mkShare "B" "equal" (1 # 3);
     mkShare "C" "equal" (1 # 3)].

Definition expense2 : Expense :=
  mkExpense "B" 30 [mkShare "B" "equal" (1 # 2); mkShare "C" "equal" (1 # 2)].

Definition rawMatrix : DebtMap :=
  [("B", [("A", 30)]); ("C", [("A", 30); ("B", 15)])].

End Example.

(** Equality of matrices and of transaction lists up to [Qeq] on amounts. *)
Definition sameRow (r1 r2 : JsObject.t Q) : Prop :=
  Forall2 (fun e1 e2 => fst e1 = fst e2 /\ snd e1 == snd e2) r1 r2.

Definition sameEntries (m1 m2 : DebtMap) : Prop :=
  Forall2 (fun r1 r2 => fst r1 = fst r2 /\ sameRow (snd r1) (snd r2)) m1 m2.

Definition sameTransaction (t1 t2 : Transaction) : Prop :=
  from t1 = from t2 /\ to t1 = to t2 /\ tx_amount t1 == tx_amount t2.

(** ** The matching loop *)

(** What the loop keeps true of its state, relative to the net balances:
    every party left in an array holds at least 0.01 and sits on its own
    side of the balances, and every emitted transaction is well formed. *)
Definition debtorParty (balances : JsObject.t Q) (p : Party) : Prop :=
  getNum (party_user p) balances < - (1 # 100) /\ 1 # 100 <= party_amount p.

Definition creditorParty (balances : JsObject.t Q) (p : Party) : Prop :=
  1 # 100 < getNum (party_user p) balances /\ 1 # 100 <= party_amount p.



(** ** The raw debt matrix *)

(** The entry [debtMap[debtor][creditor]]. *)
Definition entry (debtor creditor : string) (debtMap : DebtMap) : option Q :=
  match get debtor debtMap with
  | Some row => get creditor row
  | None => None
  end.

Definition entryNum (debtor creditor : string) (debtMap : DebtMap) : Q :=
  match entry debtor creditor debtMap with Some v => v | None => 0 end.

(** One obligation: (debtor, creditor, owed amount).  The aggregator adds
    the obligations of all shares, in order, to the empty map. *)
Definition Contribution := (string * string * Q)%type.

Definition shareContribs (creator : string) (amount : Q) (share : Share)
  : list Contribution :=
  if String.eqb (share_user share) creator then []
  else [(share_user share, creator,
         owedAmount amount (shareType share) (shareValue share))].

Definition expenseContribs (expense : Expense) : list Contribution :=
  flat_map (shareContribs (creator expense) (amount expense))
           (sharedAmongst expense).

Definition applyContribs (l : list Contribution) (debtMap : DebtMap) : DebtMap :=
  fold_left (fun m x => addDebt (fst (fst x)) (snd (fst x)) (snd x) m) l debtMap.

(** Whether a contribution is for the pair (debtor, creditor); whether a
    list has such a contribution; the sum of those it has. *)
Definition concerns (debtor creditor : string) (x : Contribution) : bool :=
  String.eqb debtor (fst (fst x)) && String.eqb creditor (snd (fst x)).

Definition hit (debtor creditor : string) (l : list Contribution) : bool :=
  existsb (concerns debtor creditor) l.

Definition total (debtor creditor : string) (l : list Contribution) : Q :=
  fold_right (fun x acc => if concerns debtor creditor x then snd x + acc else acc)
             0 l.

(** Equality of optional amounts up to [Qeq]. *)
Definition sameAmount (a b : option Q) : Prop :=
  match a, b with
  | Some x, Some y => x == y
  | None, None => True
  | _, _ => False
  end.

(** The row of [user] once [addDebt] has made sure that it exists. *)
Definition rowOf (user : string) (debtMap : DebtMap) : JsObject.t Q :=
  match get user debtMap with Some r => r | None => [] end.

(** The same expense with its shares listed in another order. *)
Definition sameExpense (e e' : Expense) : Prop :=
  creator e = creator e' /\ amount e = amount e'
  /\ Permutation (sharedAmongst e) (sharedAmongst e').

(** [es'] lists the expenses of [es] in another order, each with its shares
    in another order. *)
Definition reordered (es es' : list Expense) : Prop :=
  exists es1, Permutation es es1 /\ Forall2 sameExpense es1 es'.

(** Extensional equality of raw debt matrices: the same debtor rows, the same
    debtor-creditor pairs, the same accumulated amounts. *)
Definition sameMatrix (m1 m2 : DebtMap) : Prop :=
  (forall d, get d m1 = None <-> get d m2 = None)
  /\ (forall d c, sameAmount (entry d c m1) (entry d c m2)).

Definition allOfType (t : string) (shares : list Share) : bool :=
  forallb (fun s => String.eqb (shareType s) t) shares.

Definition sumShareValues (shares : list Share) : Q :=
  fold_right (fun s acc => shareValue s + acc) 0 shares.

(** The invariants that share validation is meant to establish for a stored
    expense: equal shares normalised to 1/participantCount, percentage
    shares between 0 and 100 that total 100 (within 0.01), fixed shares that
    total the expense amount (within 0.01). *)
Definition creationInvariant (e : Expense) : bool :=
  let shares := sharedAmongst e in
  (allOfType "equal" shares
   && forallb (fun s => Qeq_bool (shareValue s)
                          (1 / inject_Z (Z.of_nat (List.length shares))))
              shares)
  || (allOfType "percentage" shares
      && forallb (fun s => Qle_bool 0 (shareValue s)
                           && Qle_bool (shareValue s) 100) shares
      && Qle_bool (Qabs (sumShareValues shares - 100)) (1 # 100))
  || (allOfType "fixed" shares
      && Qle_bool (Qabs (sumShareValues shares - amount e)) (1 # 100)).


(** Two expenses that pass the validation of [POST api/expenses]. *)
Definition skewedFixed : Expense :=
  mkExpense "A" 100 [mkShare "B" "fixed" 150; mkShare "C" "fixed" (- 50)].

Definition refund : Expense :=
  mkExpense "A" (- 90)
    [mkShare "A" "equal" (1 / 3); mkShare "B" "equal" (1 / 3);
     mkShare "C" "equal" (1 / 3)].

(** ** Settlement records *)

(** A store with one family, headed by H, and one open record of two
    transactions. *)
Definition sampleDebt : Debt :=
  mkDebt 1 "F" 0 30
    [mkDebtItem "C" "A" 45 false None; mkDebtItem "B" "A" 15 true (Some 7%Z)]
    false None 5 7.

Definition sampleDb : Db :=
  mkDb [mkFamily "F" [mkMember "H" "head"; mkMember "A" "member"]] []
       [sampleDebt].

(** A record whose transactions are all settled. *)
Definition readyDebt : Debt :=
  mkDebt 1 "F" 0 30
    [mkDebtItem "C" "A" 45 true (Some 6%Z); mkDebtItem "B" "A" 15 true (Some 7%Z)]
    false None 5 7.

Definition readyDb : Db :=
  mkDb [mkFamily "F" [mkMember "H" "head"; mkMember "A" "member"]] []
       [readyDebt].

(** A finalized record. *)
Definition closedDebt : Debt :=
  mkDebt 1 "F" 0 30
    [mkDebtItem "C" "A" 45 true (Some 6%Z); mkDebtItem "B" "A" 15 true (Some 7%Z)]
    true (Some 9%Z) 5 9.

Definition closedDb : Db :=
  mkDb [mkFamily "F" [mkMember "H" "head"; mkMember "A" "member"]] []
       [closedDebt].


(** A family whose only expense of the period is paid by A for A alone. *)
Definition selfOnlyDb : Db :=
  mkDb [mkFamily "F" [mkMember "A" "head"; mkMember "B" "member"]]
       [mkExpenseDoc "F" 12 (mkExpense "A" 40 [mkShare "A" "equal" 1])]
       [].

(** ** Further statements about the aggregator *)

(** The amounts that the shares of [debtor] in one expense owe to
    [creditor], in order: none unless [creditor] created the expense. *)
Definition expenseObligations (debtor creditor : string) (e : Expense)
  : list Q :=
  if String.eqb (creator e) creditor then
    flat_map (fun s =>
                if String.eqb (share_user s) debtor
                   && negb (String.eqb (share_user s) (creator e))
                then [owedAmount (amount e) (shareType s) (shareValue s)]
                else [])
             (sharedAmongst e)
  else [].

Definition obligations (debtor creditor : string) (expenses : list Expense)
  : list Q :=
  flat_map (expenseObligations debtor creditor) expenses.

Definition Qsum (l : list Q) : Q := fold_right Qplus 0 l.

Definition nonEmpty {A : Type} (l : list A) : bool :=
  match l with [] => false | _ => true end.

(** An expense all of whose shares belong to its creator. *)
Definition selfOnly (e : Expense) : bool :=
  forallb (fun s => String.eqb (share_user s) (creator e)) (sharedAmongst e).

(** A debt map is a proper object of proper objects: no key occurs twice,
    and no debtor row is empty. *)
Definition wellFormed (m : DebtMap) : Prop :=
  NoDup (keys m)
  /\ Forall (fun r => NoDup (keys (snd r)) /\ snd r <> []) m.

(** ** Further statements about the simplifier *)

(** What the entries of the raw debt map credit to [user] (the entries
    [rawDebts[d][user]]) and debit from [user] (the entries
    [rawDebts[user][c]]), summed in the order of [Object.keys]. *)
Definition creditOf (user : string) (rawDebts : DebtMap) : Q :=
  Qsum (flat_map
          (fun debtor =>
             map (fun creditor =>
                    if String.eqb user creditor
                    then getNum creditor (rowOf debtor rawDebts) else 0)
                 (keys (rowOf debtor rawDebts)))
          (keys rawDebts)).

Definition debitOf (user : string) (rawDebts : DebtMap) : Q :=
  Qsum (flat_map
          (fun debtor =>
             map (fun creditor =>
                    if String.eqb user debtor
                    then getNum creditor (rowOf debtor rawDebts) else 0)
                 (keys (rowOf debtor rawDebts)))
          (keys rawDebts)).

(** The users of a raw debt map: every debtor key, followed by the creditor
    keys of its row. *)
Definition matrixUsers (rawDebts : DebtMap) : list string :=
  flat_map (fun debtor => debtor :: keys (rowOf debtor rawDebts))
           (keys rawDebts).

(** Descending order of amounts, as the comparator of the sort asks. *)
Definition atLeast (a b : Party) : Prop := party_amount b <= party_amount a.


(** ** Further statements about the settlement records *)

(** The record a request can write: the one it names, or the one it would
    create. *)
Definition target (r : Request) (db : Db) : nat :=
  match r with
  | Calculate _ _ _ _ => freshId db
  | Settle _ debtId _ => debtId
  | Finalize _ debtId => debtId
  end.

(** The gate that a request has passed when it is answered with the record
    [d]: membership of the family for a creation, being head of the record's
    family for a settlement or a finalization. *)
Definition authorised (r : Request) (db : Db) (d : Debt) : Prop :=
  match r with
  | Calculate userId familyId _ _ =>
      family d = familyId /\ isFamilyMember userId familyId db = true
  | Settle userId debtId _ =>
      debt_id d = debtId /\ isFamilyHead userId (family d) db = true
  | Finalize userId debtId =>
      debt_id d = debtId /\ isFamilyHead userId (family d) db = true
  end.

(** A family of one, with the two expenses of the worked example. *)
Definition exampleDb : Db :=
  mkDb [mkFamily "F" [mkMember "A" "head"]]
       [mkExpenseDoc "F" 3 Example.expense1;
        mkExpenseDoc "F" 4 Example.expense2]
       [].

(** The records that the three handlers store. *)
Definition createdRecord (now : Z) (db : Db) (familyId : string)
    (reqStart reqEnd : Z) (txs : list Transaction) : Debt :=
  mkDebt (freshId db) familyId reqStart reqEnd (map newItem txs)
         false None now now.

Definition settledItem (now : Z) (item : DebtItem) : DebtItem :=
  mkDebtItem (item_from item) (item_to item) (item_amount item)
             true (Some now).

Definition settledRecord (now : Z) (debt : Debt) (i : nat) (item : DebtItem)
  : Debt :=
  mkDebt (debt_id debt) (family debt) (startDate debt) (endDate debt)
         (setItem i (settledItem now item) (debts debt))
         (isFinalized debt) (finalizedAt debt) (createdAt debt) now.

Definition finalizedRecord (now : Z) (debt : Debt) : Debt :=
  mkDebt (debt_id debt) (family debt) (startDate debt) (endDate debt)
         (debts debt) true (Some now) (createdAt debt) now.

(** The part of a transaction that a settlement leaves alone. *)
Definition itemCore (item : DebtItem) : string * string * Q :=
  (item_from item, item_to item, item_amount item).

(** [d'] is a later version of the record [d]: the same identity, family,
    period, creation time and transactions; a settled transaction is kept
    as it is, and a finalized record is kept as a whole. *)
Definition evolves (d d' : Debt) : Prop :=
  debt_id d' = debt_id d
  /\ family d' = family d
  /\ startDate d' = startDate d
  /\ endDate d' = endDate d
  /\ createdAt d' = createdAt d
  /\ map itemCore (debts d') = map itemCore (debts d)
  /\ Forall2 (fun item item' => settled item = true -> item' = item)
             (debts d) (debts d')
  /\ (isFinalized d = true -> d' = d).





(** Settling the transactions [0 .. n-1] of a record one after the other. *)
Definition settleAll (now : Z) (userId : string) (debtId : nat) (n : nat)
    (db : Db) : Db :=
  fold_left (fun db i => snd (settle now userId debtId (Some (Z.of_nat i)) db))
            (seq 0 n) db.

(** ** routes/debts.js: the preview [GET api/debts/current/:familyId] *)

Module DebtViews.

(** The answers of the preview: [{ debts: [] }] when the period has no
    expense, [{ period, debts }] otherwise, or a status. *)
Inductive CurrentResponse :=
| CurrentEmpty
| CurrentDebts (startDate endDate : option Z) (debts : list Transaction)
| CurrentStatus (code : nat) (msg : string)
| CurrentNoResponse.

(** Lines 49-57: the date filter, either bound of which may be left out. *)
Definition inPeriod (reqStart reqEnd : option Z) (date : Z) : bool :=
  match reqStart, reqEnd with
  | Some s, Some e => (s <=? date)%Z && (date <=? e)%Z
  | Some s, None => (s <=? date)%Z
  | None, Some e => (date <=? e)%Z
  | None, None => true
  end.

(** Line 78: [Expense.find(filter)]. *)
Definition findFiltered (familyId : string) (reqStart reqEnd : option Z)
    (db : Db) : list Expense :=
  map expense_data
      (filter (fun e => String.eqb (expense_family e) familyId
                        && inPeriod reqStart reqEnd (expense_date e))
              (expenseDocs db)).

(** Lines 91-110: [User.findById] must find both users of every debt;
    reading a field of a missing user throws. *)
Definition populates (users : list string) (debt : Transaction) : bool :=
  existsb (String.eqb (from debt)) users
  && existsb (String.eqb (to debt)) users.

(** Lines 35-126: the handler; [users] are the identifiers in the user
    collection.  It reads the store and never writes it. *)
Definition current (userId familyId : string) (reqStart reqEnd : option Z)
    (users : list string) (db : Db) : CurrentResponse :=
  if negb (isFamilyMember userId familyId db) then
    CurrentStatus 403 "Not authorized to view debts for this family"
  else
    let finalizedDebt :=
      match reqStart, reqEnd with
      | Some s, Some e => findFinalizedDebt familyId s e db
      | _, _ => None
      end in
    match finalizedDebt with
    | Some _ => CurrentStatus 400 "This period has already been finalized"
    | None =>
        let expenses := findFiltered familyId reqStart reqEnd db in
        if Nat.eqb (List.length expenses) 0 then CurrentEmpty
        else
          match simplifyDebts (calculateRawDebts expenses) with
          | None => CurrentNoResponse
          | Some simplifiedDebts =>
              if forallb (populates users) simplifiedDebts
              then CurrentDebts reqStart reqEnd simplifiedDebts
              else CurrentStatus 500 "Server Error"
          end
    end.

End DebtViews.

Import DebtViews.

(** ** Further statements about the share validation *)

(** The share type that the route reads off a non-empty request; a request
    without shares is split equally among the family. *)
Definition requestedType (sharedAmongst : list ExpenseRoutes.ShareInput)
  : string :=
  match sharedAmongst with
  | first :: _ => ExpenseRoutes.typeOrEqual (ExpenseRoutes.in_shareType first)
  | [] => "equal"
  end.

(** The users among whom the route splits an expense. *)
Definition participants (fam : list string)
    (sharedAmongst : list ExpenseRoutes.ShareInput) : list string :=
  match sharedAmongst with
  | [] => fam
  | _ => map ExpenseRoutes.in_user sharedAmongst
  end.

(** ** The family routes (routes/families.js) *)

Module FamilyRoutes.

(** A family document (models/Family.js). *)
Record FamilyDoc := mkFamilyDoc
  { fam_id : string;
    fam_name : string;
    inviteCode : string;
    fam_members : list Member;
    fam_updatedAt : Z }.

Inductive FamilyResponse :=
| FamilyJson (family : FamilyDoc)
| FamilyMsg (msg : string)
| FamilyErrors (msgs : list string)
| FamilyStatus (code : nat) (msg : string).

(** [Family.findById]. *)
Definition findFamily (id : string) (store : list FamilyDoc)
  : option FamilyDoc :=
  find (fun f => String.eqb (fam_id f) id) store.

(** [family.save()] on a loaded document. *)
Fixpoint updateFamily (family : FamilyDoc) (store : list FamilyDoc)
  : list FamilyDoc :=
  match store with
  | [] => []
  | f :: store' =>
      if String.eqb (fam_id f) (fam_id family) then family :: store'
      else f :: updateFamily family store'
  end.

(** [Family.findByIdAndDelete]. *)
Fixpoint deleteFamily (id : string) (store : list FamilyDoc)
  : list FamilyDoc :=
  match store with
  | [] => []
  | f :: store' =>
      if String.eqb (fam_id f) id then store' else f :: deleteFamily id store'
  end.

(** [Array.prototype.findIndex], [None] for -1. *)
Fixpoint findIndex {A : Type} (p : A -> bool) (l : list A) : option nat :=
  match l with
  | [] => None
  | x :: l' =>
      if p x then Some O
      else match findIndex p l' with
           | Some i => Some (S i)
           | None => None
           end
  end.

(** [members[i].role = role]. *)
Fixpoint setRole (i : nat) (newRole : string) (members : list Member)
  : list Member :=
  match members, i with
  | [], _ => []
  | m :: members', O => mkMember (member_user m) newRole :: members'
  | m :: members', S i' => m :: setRole i' newRole members'
  end.

(** [members.splice(i, 1)]. *)
Fixpoint removeAt (i : nat) (members : list Member) : list Member :=
  match members, i with
  | [], _ => []
  | _ :: members', O => members'
  | m :: members', S i' => m :: removeAt i' members'
  end.

(** [family.members.some(member => member.user.toString() === userId)]. *)
Definition isMemberOf (userId : string) (family : FamilyDoc) : bool :=
  existsb (fun member => String.eqb (member_user member) userId)
          (fam_members family).

(** Lines 399-434: [POST api/families].  The identifier and the invite code
    (a uuid) are generated; both carry a unique index, so that a save with a
    value in use fails. *)
Definition createFamily (now : Z) (newId newCode : string)
    (userId name : string) (store : list FamilyDoc)
  : FamilyResponse * list FamilyDoc :=
  if String.eqb name "" then (FamilyErrors ["Family name is required"], store)
  else if existsb (fun f => String.eqb (fam_id f) newId
                            || String.eqb (inviteCode f) newCode) store then
    (FamilyStatus 500 "Server Error", store)
  else
    let family :=
      mkFamilyDoc newId name newCode [mkMember userId "head"] now in
    (FamilyJson family, store ++ [family]).

(** Lines 485-534: [POST api/families/join]. *)
Definition joinFamily (now : Z) (userId code : string)
    (store : list FamilyDoc) : FamilyResponse * list FamilyDoc :=
  if String.eqb code "" then (FamilyErrors ["Invite code is required"], store)
  else
    match find (fun f => String.eqb (inviteCode f) code) store with
    | None => (FamilyStatus 404 "Invalid invite code", store)
    | Some family =>
        if isMemberOf userId family then
          (FamilyStatus 400 "You are already a member of this family", store)
        else
          let family' :=
            mkFamilyDoc (fam_id family) (fam_name family) (inviteCode family)
                        (fam_members family ++ [mkMember userId "member"])
                        now in
          (FamilyJson family', updateFamily family' store)
    end.

(** Lines 570-616: [DELETE api/families/:id/leave]. *)
Definition leaveFamily (now : Z) (userId id : string)
    (store : list FamilyDoc) : FamilyResponse * list FamilyDoc :=
  match findFamily id store with
  | None => (FamilyStatus 404 "Family not found", store)
  | Some family =>
      match findIndex (fun member => String.eqb (member_user member) userId)
                      (fam_members family) with
      | None => (FamilyStatus 400 "You are not a member of this family", store)
      | Some memberIndex =>
          let isHead :=
            match nth_error (fam_members family) memberIndex with
            | Some member => String.eqb (role member) "head"
            | None => false
            end in
          if isHead && Nat.ltb 1 (List.length (fam_members family)) then
            (FamilyStatus 400
               "Head of family cannot leave. Transfer ownership to another member first or remove all other members.",
             store)
          else if isHead && Nat.eqb (List.length (fam_members family)) 1 then
            (FamilyMsg "Family deleted successfully", deleteFamily id store)
          else
            let family' :=
              mkFamilyDoc (fam_id family) (fam_name family)
                          (inviteCode family)
                          (removeAt memberIndex (fam_members family)) now in
            (FamilyMsg "Successfully left the family",
             updateFamily family' store)
      end
  end.

(** Lines 621-681: [PUT api/families/:id/transfer-ownership]. *)
Definition transferOwnership (now : Z) (userId id newHeadId : string)
    (store : list FamilyDoc) : FamilyResponse * list FamilyDoc :=
  if String.eqb newHeadId "" then
    (FamilyErrors ["New head user ID is required"], store)
  else
    match findFamily id store with
    | None => (FamilyStatus 404 "Family not found", store)
    | Some family =>
        match findIndex (fun member =>
                           String.eqb (member_user member) userId
                           && String.eqb (role member) "head")
                        (fam_members family) with
        | None =>
            (FamilyStatus 403 "Only head of family can transfer ownership",
             store)
        | Some currentHeadIndex =>
            match findIndex (fun member =>
                               String.eqb (member_user member) newHeadId)
                            (fam_members family) with
            | None =>
                (FamilyStatus 400 "New head must be a member of the family",
                 store)
            | Some newHeadIndex =>
                let members1 :=
                  setRole currentHeadIndex "member" (fam_members family) in
                let members2 := setRole newHeadIndex "head" members1 in
                let family' :=
                  mkFamilyDoc (fam_id family) (fam_name family)
                              (inviteCode family) members2 now in
                (FamilyJson family', updateFamily family' store)
            end
        end
    end.

(** The requests that write the family collection. *)
Inductive FamilyRequest :=
| Create (newId newCode userId name : string)
| Join (userId code : string)
| Leave (userId id : string)
| Transfer (userId id newHeadId : string).

Definition handleFamily (now : Z) (r : FamilyRequest)
    (store : list FamilyDoc) : FamilyResponse * list FamilyDoc :=
  match r with
  | Create newId newCode userId name =>
      createFamily now newId newCode userId name store
  | Join userId code => joinFamily now userId code store
  | Leave userId id => leaveFamily now userId id store
  | Transfer userId id newHeadId =>
      transferOwnership now userId id newHeadId store
  end.

Inductive familyReachable (store : list FamilyDoc)
  : list FamilyDoc -> Prop :=
| family_here : familyReachable store store
| family_request store' now r :
    familyReachable store store' ->
    familyReachable store (snd (handleFamily now r store')).

(** The family collection as the debt routes read it. *)
Definition toFamily (f : FamilyDoc) : Family :=
  mkFamily (fam_id f) (fam_members f).

Definition asDb (store : list FamilyDoc) : Db :=
  mkDb (map toFamily store) [] [].

End FamilyRoutes.

Import FamilyRoutes.

(** The number of heads of a member list, and the shape that the routes
    keep: distinct identifiers and invite codes, and in every family
    distinct users and exactly one head. *)
Definition headCount (members : list Member) : nat :=
  List.length (filter (fun m => String.eqb (role m) "head") members).

Definition headBit (m : Member) : nat :=
  if String.eqb (role m) "head" then 1%nat else 0%nat.

Definition familyOk (f : FamilyDoc) : Prop :=
  NoDup (map member_user (fam_members f))
  /\ headCount (fam_members f) = 1%nat.

Definition familiesOk (store : list FamilyDoc) : Prop :=
  NoDup (map fam_id store)
  /\ NoDup (map inviteCode store)
  /\ Forall familyOk store.

(** A family of two: A is the head, B a member. *)
Definition homeStore : list FamilyDoc :=
  [mkFamilyDoc "f1" "Home" "code1"
     [mkMember "A" "head"; mkMember "B" "member"] 3].

(** [userId] is registered as head in the member list. *)
Definition headIn (userId : string) (members : list Member) : bool :=
  existsb (fun m => String.eqb (role m) "head"
                    && String.eqb (member_user m) userId) members.

(** ** routes/expenses.js: [PUT api/expenses/:id] *)

Module ExpenseUpdate.

Import ExpenseRoutes.



End ExpenseUpdate.

(** * The calculator in double precision *)

(** [utils/debtCalculator.js] once more, now with the numbers of the code:
    binary64 floats, with their rounding, infinities and NaN.  The
    definitions repeat those of [DebtCalculator] line by line; only the
    arithmetic differs. *)

(** ** The binary64 format

    The exponent function and the bound of the format, and the floats that
    are neither [NaN] nor an infinity, on the specification side. *)

Definition fexp64 : Z -> Z := SpecFloat.fexp prec emax.

Definition bounded64 : positive -> Z -> bool := SpecFloat.bounded prec emax.

Definition SFfinite (x : spec_float) : bool :=
  match x with
  | S754_zero _ | S754_finite _ _ _ => true
  | _ => false
  end.

Module Binary64.

Local Open Scope float_scope.

(** [!x] on a number: true for [0], [-0] and [NaN]. *)
Definition falsy (x : float) : bool := (x =? 0) || is_nan x.

(** Reading a numeric property; arithmetic on [undefined] gives [NaN]. *)
Definition getNum (k : string) (o : JsObject.t float) : float :=
  match get k o with Some v => v | None => nan end.

(** [if (!o[k]) o[k] = 0;] *)
Definition initZero (k : string) (o : JsObject.t float) : JsObject.t float :=
  match get k o with
  | Some v => if falsy v then set k 0 o else o
  | None => set k 0 o
  end.

Record Share := mkShare
  { share_user : string;
    shareType : string;
    shareValue : float }.

Record Expense := mkExpense
  { creator : string;
    amount : float;
    sharedAmongst : list Share }.

Definition DebtMap := JsObject.t (JsObject.t float).

(** Lines 31-39. *)
Definition owedAmount (amount : float) (shareType : string) (shareValue : float)
  : float :=
  if String.eqb shareType "equal" then amount * shareValue
  else if String.eqb shareType "percentage" then amount * (shareValue / 100)
  else if String.eqb shareType "fixed" then shareValue
  else 0.

(** Lines 41-50. *)
Definition addDebt (user creator : string) (owed : float) (debtMap : DebtMap)
  : DebtMap :=
  let debtMap1 :=
    match get user debtMap with
    | Some _ => debtMap
    | None => set user [] debtMap
    end in
  let row := match get user debtMap1 with Some r => r | None => [] end in
  let row1 := initZero creator row in
  let row2 := set creator (getNum creator row1 + owed) row1 in
  set user row2 debtMap1.

(** Lines 22-51. *)
Definition processShare (creator : string) (amount : float)
    (debtMap : DebtMap) (share : Share) : DebtMap :=
  let user := share_user share in
  if String.eqb user creator then debtMap
  else
    addDebt user creator
            (owedAmount amount (shareType share) (shareValue share)) debtMap.

(** Lines 17-52. *)
Definition processExpense (debtMap : DebtMap) (expense : Expense) : DebtMap :=
  fold_left (processShare (creator expense) (amount expense))
            (sharedAmongst expense) debtMap.

Definition calculateRawDebts (expenses : list Expense) : DebtMap :=
  fold_left processExpense expenses [].

(** Lines 70-76. *)
Definition balanceEntry (row : JsObject.t float) (debtor : string)
    (balances : JsObject.t float) (creditor : string) : JsObject.t float :=
  let balances1 := initZero creditor balances in
  let amount := getNum creditor row in
  let balances2 := set debtor (getNum debtor balances1 - amount) balances1 in
  set creditor (getNum creditor balances2 + amount) balances2.

(** Lines 67-77. *)
Definition balanceDebtor (rawDebts : DebtMap)
    (balances : JsObject.t float) (debtor : string) : JsObject.t float :=
  let balances1 := initZero debtor balances in
  let row := match get debtor rawDebts with Some r => r | None => [] end in
  fold_left (balanceEntry row debtor) (keys row) balances1.

(** Lines 64-77. *)
Definition netBalances (rawDebts : DebtMap) : JsObject.t float :=
  fold_left (balanceDebtor rawDebts) (keys rawDebts) [].

Record Party := mkParty
  { party_user : string;
    party_amount : float }.

(** Lines 83-91: a [NaN] balance fails both comparisons. *)
Definition classify (balances : JsObject.t float)
    (acc : list Party * list Party) (user : string) : list Party * list Party :=
  let balance := getNum user balances in
  if balance <? - 0.01 then
    (fst acc ++ [mkParty user (- balance)], snd acc)
  else if 0.01 <? balance then
    (fst acc, snd acc ++ [mkParty user balance])
  else acc.

Definition partitionUsers (balances : JsObject.t float)
  : list Party * list Party :=
  fold_left (classify balances) (keys balances) ([], []).

(** Lines 94-95: the stable sort with the comparator
    [(a, b) => b.amount - a.amount]; [a] goes after [b] when the comparator
    is positive, and a [NaN] comparator counts as 0. *)
Definition compareFn (a b : Party) : float := party_amount b - party_amount a.

Fixpoint insertSorted (a : Party) (l : list Party) : list Party :=
  match l with
  | [] => [a]
  | b :: l' =>
      if 0 <? compareFn a b then b :: insertSorted a l' else a :: b :: l'
  end.

Definition sortDesc (l : list Party) : list Party :=
  fold_right insertSorted [] l.

Record Transaction := mkTransaction
  { from : string;
    to : string;
    tx_amount : float }.

(** [Math.min]: [NaN] when an argument is [NaN]; [-0] is below [+0]. *)
Definition Math_min (x y : float) : float :=
  if is_nan x || is_nan y then nan
  else if x <? y then x
  else if y <? x then y
  else if get_sign x then x else y.

(** The float of an integer between 0 and 2^53. *)
Definition ofZ (k : Z) : float := of_uint63 (Uint63.of_Z k).

(** [Math.round]: [NaN], the infinities, the zeros and the integers are
    returned as they are; any other number [+-m / 2^n] goes to the nearest
    integer, a tie to the one towards plus infinity, and a negative number
    that rounds to zero gives [-0]. *)
Definition Math_round (x : float) : float :=
  match Prim2SF x with
  | S754_finite s m (Zneg n) =>
      let q := (Zpos m / 2 ^ Zpos n)%Z in
      let r2 := (2 * (Zpos m mod 2 ^ Zpos n))%Z in
      if s then - ofZ (if (r2 <=? 2 ^ Zpos n)%Z then q else q + 1)
      else ofZ (if (r2 <? 2 ^ Zpos n)%Z then q else q + 1)
  | _ => x
  end.

(** Line 111: [Math.round(amount * 100) / 100]. *)
Definition round2 (amount : float) : float := Math_round (amount * 100) / 100.

Record LoopState := mkLoop
  { debtors : list Party;
    creditors : list Party;
    transactions : list Transaction }.

(** Lines 101-120. *)
Definition loopBody (debtor : Party) (debtors' : list Party)
    (creditor : Party) (creditors' : list Party)
    (transactions : list Transaction) : LoopState :=
  let amount := Math_min (party_amount debtor) (party_amount creditor) in
  let transactions1 :=
    transactions ++ [mkTransaction (party_user debtor) (party_user creditor)
                                   (round2 amount)] in
  let debtor1 := mkParty (party_user debtor) (party_amount debtor - amount) in
  let creditor1 := mkParty (party_user creditor) (party_amount creditor - amount) in
  mkLoop (if party_amount debtor1 <? 0.01 then debtors'
          else debtor1 :: debtors')
         (if party_amount creditor1 <? 0.01 then creditors'
          else creditor1 :: creditors')
         transactions1.

(** Lines 100-121, run for at most [fuel] iterations: [None] when the loop
    is still running after [fuel] iterations. *)
Fixpoint whileLoop (fuel : nat) (st : LoopState) : option (list Transaction) :=
  match debtors st, creditors st with
  | debtor :: debtors', creditor :: creditors' =>
      match fuel with
      | O => None
      | S fuel' =>
          whileLoop fuel'
            (loopBody debtor debtors' creditor creditors' (transactions st))
      end
  | _, _ => Some (transactions st)
  end.

(** Lines 80-98. *)
Definition initialState (rawDebts : DebtMap) : LoopState :=
  let parts := partitionUsers (netBalances rawDebts) in
  mkLoop (sortDesc (fst parts)) (sortDesc (snd parts)) [].

Definition simplifyDebtsFuel (fuel : nat) (rawDebts : DebtMap)
  : option (list Transaction) :=
  whileLoop fuel (initialState rawDebts).

(** [simplifyDebts(rawDebts)] returns [txs]; it does not return when the
    loop runs for ever. *)
Definition simplifyDebts (rawDebts : DebtMap) (txs : list Transaction) : Prop :=
  exists fuel, simplifyDebtsFuel fuel rawDebts = Some txs.

Definition diverges (rawDebts : DebtMap) : Prop :=
  forall fuel, simplifyDebtsFuel fuel rawDebts = None.

(** ** Vocabulary of the statements about double precision *)

(** The loop state after [n] iterations (or at the exit, when the loop
    exits earlier), and the transactions pushed so far. *)
Fixpoint runLoop (n : nat) (st : LoopState) : LoopState :=
  match n with
  | O => st
  | S n' =>
      match debtors st, creditors st with
      | debtor :: debtors', creditor :: creditors' =>
          runLoop n'
            (loopBody debtor debtors' creditor creditors' (transactions st))
      | _, _ => st
      end
  end.

Definition emitted (n : nat) (rawDebts : DebtMap) : list Transaction :=
  transactions (runLoop n (initialState rawDebts)).

(** Every derived net balance is a finite number: neither [NaN] nor an
    infinity. *)
Definition finiteBalances (rawDebts : DebtMap) : bool :=
  forallb (fun kv => is_finite (snd kv)) (netBalances rawDebts).

(** A finite amount of at least 0.01. *)
Definition goodAmount (x : float) : bool := (0.01 <=? x) && (x <? infinity).

(** N: the users whose net balance is below -0.01 or above 0.01, that is
    the debtors and the creditors. *)
Definition nonZeroUsers (rawDebts : DebtMap) : nat :=
  let balances := netBalances rawDebts in
  List.length
    (filter (fun user =>
               (getNum user balances <? - 0.01)
               || (0.01 <? getNum user balances))
            (keys balances)).

(** The transaction-count bound as the specification words it, over the
    integers: never more than N - 1 transactions pushed. *)
Definition countBound (rawDebts : DebtMap) : Prop :=
  forall n,
    (Z.of_nat (List.length (emitted n rawDebts))
     <= Z.of_nat (nonZeroUsers rawDebts) - 1)%Z.

(** What the loop keeps true of its state when the balances are finite. *)
Definition debtorParty (balances : JsObject.t float) (p : Party) : Prop :=
  (getNum (party_user p) balances <? - 0.01) = true.

Definition creditorParty (balances : JsObject.t float) (p : Party) : Prop :=
  (getNum (party_user p) balances <? - 0.01) = false
  /\ (0.01 <? getNum (party_user p) balances) = true.

(** A transaction from a user of balance below -0.01 to a user of balance
    above 0.01. *)
Definition debtorToCreditor (balances : JsObject.t float) (t : Transaction)
  : Prop :=
  (getNum (from t) balances <? - 0.01) = true
  /\ (getNum (to t) balances <? - 0.01) = false
  /\ (0.01 <? getNum (to t) balances) = true.

Definition sidesInvariant (balances : JsObject.t float) (st : LoopState)
  : Prop :=
  Forall (debtorParty balances) (debtors st)
  /\ Forall (creditorParty balances) (creditors st)
  /\ Forall (debtorToCreditor balances) (transactions st).

Definition goodParty (p : Party) : Prop := goodAmount (party_amount p) = true.

Definition positiveAmount (t : Transaction) : Prop :=
  (0 <? tx_amount t) = true /\ (0.01 <=? tx_amount t) = true.

Definition amountsInvariant (st : LoopState) : Prop :=
  Forall goodParty (debtors st)
  /\ Forall goodParty (creditors st)
  /\ Forall positiveAmount (transactions st).

(** The parties left and the transactions pushed never number more than the
    N parties at the start, and no state holds more than N - 1
    transactions. *)
Definition countInvariant (N : nat) (st : LoopState) : Prop :=
  amountsInvariant st
  /\ (List.length (transactions st) + List.length (debtors st)
      + List.length (creditors st) <= N)%nat
  /\ (List.length (transactions st) <= N - 1)%nat.

(** Four debts of 2^1023, the largest power of two among the doubles: the
    balances of D and of A overflow. *)
Definition overflowMatrix : DebtMap :=
  [("D", [("E", 0x1p1023); ("F", 0x1p1023)]);
   ("B", [("A", 0x1p1023)]);
   ("C", [("A", 0x1p1023)])].

(** The loop state on which [overflowMatrix] gets stuck: the fronts D and A
    hold [NaN] after the first iteration has subtracted infinity from
    infinity. *)
Definition stuckState (txs : list Transaction) : LoopState :=
  mkLoop [mkParty "D" nan; mkParty "B" 0x1p1023; mkParty "C" 0x1p1023]
         [mkParty "A" nan; mkParty "E" 0x1p1023; mkParty "F" 0x1p1023]
         txs.

(** B owes A 2^53 and C owes A 1: the balance of A is rounded. *)
Definition roundingMatrix : DebtMap :=
  [("B", [("A", 0x1p53)]); ("C", [("A", 1)])].

(** [Object.values(o).reduce((sum, v) => sum + v, 0)]. *)
Definition sumValues (o : JsObject.t float) : float :=
  fold_left (fun sum kv => sum + snd kv) o 0.

(** The rational number that a finite float stands for. *)
Definition toQ (x : float) : option Q :=
  match Prim2SF x with
  | S754_zero _ => Some 0%Q
  | S754_finite s m e =>
      Some ((if s then - inject_Z (Zpos m) else inject_Z (Zpos m))
            * Qpower 2 e)%Q
  | _ => None
  end.

(** The sum of the values as a rational number, without rounding. *)
Definition exactSum (o : JsObject.t float) : option Q :=
  fold_left (fun sum kv =>
               match sum, toQ (snd kv) with
               | Some s, Some v => Some (s + v)%Q
               | _, _ => None
               end) o (Some 0%Q).

(** The tolerance of the specification: the sum is within 1e-9 of zero. *)
Definition withinTolerance (o : JsObject.t float) : bool :=
  match exactSum o with
  | Some s => Qle_bool (Qabs s) (1 # 1000000000)
  | None => false
  end.

(** The worked example, with its shares 1/3 and 1/2 as doubles. *)
Definition exampleExpenses : list Expense :=
  [mkExpense "A" 90
     [mkShare "A" "equal" (1 / 3); mkShare "B" "equal" (1 / 3);
      mkShare "C" "equal" (1 / 3)];
   mkExpense "B" 30 [mkShare "B" "equal" (1 / 2); mkShare "C" "equal" (1 / 2)]].

Definition exampleMatrix : DebtMap := calculateRawDebts exampleExpenses.

(** *** The aggregator *)

Definition entry (debtor creditor : string) (debtMap : DebtMap)
  : option float :=
  match get debtor debtMap with
  | Some row => get creditor row
  | None => None
  end.

Definition Contribution := (string * string * float)%type.

Definition shareContribs (creator : string) (amount : float) (share : Share)
  : list Contribution :=
  if String.eqb (share_user share) creator then []
  else [(share_user share, creator,
         owedAmount amount (shareType share) (shareValue share))].

Definition expenseContribs (expense : Expense) : list Contribution :=
  flat_map (shareContribs (creator expense) (amount expense))
           (sharedAmongst expense).

Definition applyContribs (l : list Contribution) (debtMap : DebtMap) : DebtMap :=
  fold_left (fun m x => addDebt (fst (fst x)) (snd (fst x)) (snd x) m) l debtMap.

Definition concerns (debtor creditor : string) (x : Contribution) : bool :=
  String.eqb debtor (fst (fst x)) && String.eqb creditor (snd (fst x)).

(** Lines 46-50 on one entry: a missing entry, and one that holds [0], [-0]
    or [NaN], restarts from 0 before the owed amount is added. *)
Definition accumulate (acc : option float) (owed : float) : option float :=
  Some ((match acc with
         | Some v => if falsy v then 0 else v
         | None => 0
         end) + owed).

(** The running sum of a list of owed amounts, in order. *)
Definition runningSum (owed : list float) : option float :=
  fold_left accumulate owed None.

(** The amounts that the shares of [debtor] in one expense owe to
    [creditor], in order: none unless [creditor] created the expense. *)
Definition expenseObligations (debtor creditor : string) (e : Expense)
  : list float :=
  if String.eqb (creator e) creditor then
    flat_map (fun s =>
                if String.eqb (share_user s) debtor
                   && negb (String.eqb (share_user s) (creator e))
                then [owedAmount (amount e) (shareType s) (shareValue s)]
                else [])
             (sharedAmongst e)
  else [].

Definition obligations (debtor creditor : string) (expenses : list Expense)
  : list float :=
  flat_map (expenseObligations debtor creditor) expenses.

Definition sameExpense (e e' : Expense) : Prop :=
  creator e = creator e' /\ amount e = amount e'
  /\ Permutation (sharedAmongst e) (sharedAmongst e').

Definition reordered (es es' : list Expense) : Prop :=
  exists es1, Permutation es es1 /\ Forall2 sameExpense es1 es'.

(** Extensional equality of two matrices: the same pairs with the same
    numbers. *)
Definition sameMatrix (m1 m2 : DebtMap) : Prop :=
  forall d c,
    match entry d c m1, entry d c m2 with
    | Some x, Some y => (x =? y) = true
    | None, None => True
    | _, _ => False
    end.

(** A owes B 0.05, and B owes A 0.01, 0.01 and 0.04 from three expenses,
    listed in two orders. *)
Definition fixedShare (creator user : string) (value : float) : Expense :=
  mkExpense creator value [mkShare user "fixed" value].

Definition smallFirst : list Expense :=
  [fixedShare "A" "B" 0.01; fixedShare "A" "B" 0.01; fixedShare "A" "B" 0.04;
   fixedShare "B" "A" 0.05].

Definition largeFirst : list Expense :=
  [fixedShare "A" "B" 0.04; fixedShare "A" "B" 0.01; fixedShare "A" "B" 0.01;
   fixedShare "B" "A" 0.05].

End Binary64.

(** * Properties *)

(** ** Properties of insertion-ordered maps *)

Section ObjFacts.
Context {V : Type}.
Implicit Types (o : JsObject.t V) (k : string) (v : V).

Lemma get_set_same k v o : get k (set k v o) = Some v.
Proof.
  induction o as [|[k' v'] o IH]; simpl.
  - now rewrite String.eqb_refl.
  - destruct (String.eqb_spec k k') as [->|Hne]; simpl.
    + now rewrite String.eqb_refl.
    + destruct (String.eqb_spec k k'); [contradiction|exact IH].
Qed.

Lemma get_set_other k k' v o : k <> k' -> get k' (set k v o) = get k' o.
Proof.
  intros Hne. induction o as [|[k1 v1] o IH]; simpl.
  - destruct (String.eqb_spec k' k); [congruence|reflexivity].
  - destruct (String.eqb_spec k k1) as [->|Hk]; simpl.
    + destruct (String.eqb_spec k' k1); [congruence|reflexivity].
    + destruct (String.eqb_spec k' k1); [reflexivity|exact IH].
Qed.

Lemma get_keys k o : In k (keys o) <-> get k o <> None.
Proof.
  induction o as [|[k' v'] o IH]; simpl.
  - split; [tauto|congruence].
  - destruct (String.eqb_spec k k') as [->|Hne].
    + split; [discriminate|auto].
    + rewrite <- IH. split; [intros [?|?]; congruence || assumption|auto].
Qed.

Lemma keys_set k v o :
  keys (set k v o) = match get k o with
                     | Some _ => keys o
                     | None => keys o ++ [k]
                     end.
Proof.
  induction o as [|[k' v'] o IH]; simpl; [reflexivity|].
  destruct (String.eqb_spec k k') as [->|Hne]; simpl; [reflexivity|].
  rewrite IH. now destruct (get k o).
Qed.

Lemma NoDup_keys_set k v o : NoDup (keys o) -> NoDup (keys (set k v o)).
Proof.
  intros Hnd. rewrite keys_set. destruct (get k o) eqn:Hg; [exact Hnd|].
  apply NoDup_rev in Hnd. rewrite <- (rev_involutive (keys o ++ [k])).
  apply NoDup_rev. rewrite rev_app_distr. simpl. constructor; [|exact Hnd].
  rewrite <- in_rev, get_keys. congruence.
Qed.

End ObjFacts.

(** ** Numeric objects *)

Lemma sumValues_set k v o :
  sumValues (set k v o) == sumValues o - getNum k o + v.
Proof.
  unfold getNum. induction o as [|[k' v'] o IH]; simpl.
  - rewrite String.eqb_refl || idtac. lra.
  - destruct (String.eqb_spec k k') as [->|Hne]; simpl; [lra|].
    rewrite IH. lra.
Qed.

Lemma falsy_zero x : falsy x = true -> x == 0.
Proof. apply Qeq_bool_eq. Qed.

Lemma sumValues_initZero k o : sumValues (initZero k o) == sumValues o.
Proof.
  unfold initZero. destruct (get k o) as [v|] eqn:Hg.
  - destruct (falsy v) eqn:Hf; [|reflexivity].
    rewrite sumValues_set. unfold getNum. rewrite Hg.
    apply falsy_zero in Hf. lra.
  - rewrite sumValues_set. unfold getNum. rewrite Hg. lra.
Qed.

Lemma NoDup_keys_initZero k o : NoDup (keys o) -> NoDup (keys (initZero k o)).
Proof.
  unfold initZero. intros H.
  destruct (get k o) as [v|]; [destruct (falsy v)|]; auto using NoDup_keys_set.
Qed.

(** ** utils/debtCalculator.js *)

(** *** The worked example *)

(** C1: on the three-user example the aggregator yields the matrix
    B->A 30, C->A 30, C->B 15, and the simplifier applied to that matrix
    (and to the aggregator's result itself) returns the ordered list
    (C pays A 45.00), (B pays A 15.00). *)
Theorem example_scenario :
  sameEntries (calculateRawDebts [Example.expense1; Example.expense2])
              Example.rawMatrix
  /\ (exists txs,
        simplifyDebts Example.rawMatrix = Some txs
        /\ Forall2 sameTransaction txs
             [mkTransaction "C" "A" 45; mkTransaction "B" "A" 15])
  /\ (exists txs,
        simplifyDebts (calculateRawDebts [Example.expense1; Example.expense2])
        = Some txs
        /\ Forall2 sameTransaction txs
             [mkTransaction "C" "A" 45; mkTransaction "B" "A" 15]).
Proof.
  split; [|split].
  - vm_compute. repeat (constructor; simpl); reflexivity.
  - eexists. split; [vm_compute; reflexivity|].
    repeat constructor; reflexivity.
  - eexists. split; [vm_compute; reflexivity|].
    repeat constructor; reflexivity.
Qed.

(** *** Net balances sum to zero *)

Lemma sumValues_balanceEntry row debtor balances creditor :
  sumValues (balanceEntry row debtor balances creditor) == sumValues balances.
Proof.
  unfold balanceEntry. rewrite !sumValues_set, sumValues_initZero. lra.
Qed.

Lemma NoDup_keys_balanceEntry row debtor balances creditor :
  NoDup (keys balances) ->
  NoDup (keys (balanceEntry row debtor balances creditor)).
Proof.
  intros H. unfold balanceEntry.
  auto using NoDup_keys_set, NoDup_keys_initZero.
Qed.

Lemma balanceDebtor_inv rawDebts balances debtor :
  NoDup (keys balances) ->
  NoDup (keys (balanceDebtor rawDebts balances debtor))
  /\ sumValues (balanceDebtor rawDebts balances debtor) == sumValues balances.
Proof.
  intros Hnd. unfold balanceDebtor.
  set (row := match get debtor rawDebts with Some r => r | None => [] end).
  assert (H0 : NoDup (keys (initZero debtor balances))
               /\ sumValues (initZero debtor balances) == sumValues balances)
    by (split; [now apply NoDup_keys_initZero|apply sumValues_initZero]).
  revert H0. generalize (initZero debtor balances) as b.
  induction (keys row) as [|c cs IH]; intros b [Hb Hs]; simpl; [now split|].
  apply IH. split; [now apply NoDup_keys_balanceEntry|].
  now rewrite sumValues_balanceEntry.
Qed.

Lemma sumOver_fresh k v users o :
  ~ In k users -> sumOver users ((k, v) :: o) == sumOver users o.
Proof.
  induction users as [|u us IH]; simpl; intros Hk; [reflexivity|].
  rewrite IH by tauto. unfold getNum; simpl.
  destruct (String.eqb_spec u k) as [->|_]; [tauto|reflexivity].
Qed.

Lemma sumOver_keys o : NoDup (keys o) -> sumOver (keys o) o == sumValues o.
Proof.
  induction o as [|[k v] o IH]; simpl; intros Hnd; [reflexivity|].
  inversion Hnd as [|? ? Hk Hnd']; subst.
  rewrite sumOver_fresh by exact Hk. rewrite IH by exact Hnd'.
  unfold getNum; simpl. now rewrite String.eqb_refl.
Qed.

Lemma netBalances_inv (rawDebts : DebtMap) :
  NoDup (keys (netBalances rawDebts))
  /\ sumValues (netBalances rawDebts) == 0.
Proof.
  unfold netBalances.
  assert (H0 : NoDup (keys ([] : JsObject.t Q)) /\ sumValues [] == 0)
    by (split; [constructor|reflexivity]).
  revert H0. generalize ([] : JsObject.t Q) as b.
  induction (keys rawDebts) as [|d ds IH]; intros b [Hb Hs]; simpl; [now split|].
  apply IH. destruct (balanceDebtor_inv rawDebts b d Hb) as [H1 H2].
  split; [exact H1|now rewrite H2].
Qed.

(** *** The matching loop *)

Lemma Qltb_true x y : Qltb x y = true <-> x < y.
Proof.
  unfold Qltb. rewrite negb_true_iff, <- not_true_iff_false, Qle_bool_iff.
  split; [apply Qnot_le_lt|apply Qlt_not_le].
Qed.

Lemma Qltb_false x y : Qltb x y = false <-> y <= x.
Proof. unfold Qltb. now rewrite negb_false_iff, Qle_bool_iff. Qed.






(** More fuel does not change a result. *)
Lemma whileLoop_more_fuel fuel extra st txs :
  whileLoop fuel st = Some txs -> whileLoop (fuel + extra) st = Some txs.
Proof.
  revert st. induction fuel as [|fuel IH]; intros [ds cs txs0].
  - destruct ds as [|d ds]; [now destruct extra|].
    destruct cs as [|c cs]; [now destruct extra|]. discriminate.
  - destruct ds as [|d ds]; [exact (fun H => H)|].
    destruct cs as [|c cs]; [exact (fun H => H)|].
    cbn [whileLoop debtors creditors transactions Nat.add]. apply IH.
Qed.


(** *** Debtors, creditors and the number of transactions *)





(** *** Emitted transactions *)





(** *** The aggregator as an accumulation of contributions *)

Lemma sameAmount_refl a : sameAmount a a.
Proof. destruct a; simpl; [reflexivity|exact I]. Qed.

Lemma sameAmount_trans a b c : sameAmount a b -> sameAmount b c -> sameAmount a c.
Proof.
  destruct a, b, c; simpl; try tauto. intros H1 H2. now rewrite H1.
Qed.

Lemma sameAmount_sym a b : sameAmount a b -> sameAmount b a.
Proof. destruct a, b; simpl; try tauto. intros H. now symmetry. Qed.

Lemma processShare_contribs creator amount debtMap share :
  processShare creator amount debtMap share
  = applyContribs (shareContribs creator amount share) debtMap.
Proof.
  unfold processShare, shareContribs.
  now destruct (String.eqb (share_user share) creator).
Qed.

Lemma applyContribs_app l1 l2 debtMap :
  applyContribs (l1 ++ l2) debtMap = applyContribs l2 (applyContribs l1 debtMap).
Proof. apply fold_left_app. Qed.

Lemma processExpense_contribs debtMap expense :
  processExpense debtMap expense = applyContribs (expenseContribs expense) debtMap.
Proof.
  unfold processExpense, expenseContribs.
  generalize (creator expense) as cr, (amount expense) as am.
  intros cr am. revert debtMap.
  induction (sharedAmongst expense) as [|s ss IH]; intros m; simpl;
    [reflexivity|].
  now rewrite applyContribs_app, IH, processShare_contribs.
Qed.

Lemma calculateRawDebts_contribs expenses :
  calculateRawDebts expenses
  = applyContribs (flat_map expenseContribs expenses) [].
Proof.
  unfold calculateRawDebts. generalize ([] : DebtMap) as m.
  induction expenses as [|e es IH]; intros m; simpl; [reflexivity|].
  now rewrite applyContribs_app, IH, processExpense_contribs.
Qed.

Lemma getNum_initZero k o : getNum k (initZero k o) == getNum k o.
Proof.
  unfold initZero, getNum. destruct (get k o) as [v|] eqn:Hg.
  - destruct (falsy v) eqn:Hf.
    + rewrite get_set_same. apply falsy_zero in Hf. now rewrite Hf.
    + now rewrite Hg.
  - now rewrite get_set_same.
Qed.

Lemma get_initZero_other k k' o : k <> k' -> get k' (initZero k o) = get k' o.
Proof.
  intros Hne. unfold initZero.
  destruct (get k o) as [v|]; [destruct (falsy v)|];
    auto using get_set_other.
Qed.

Lemma addDebt_row user creator owed debtMap :
  get user (addDebt user creator owed debtMap)
  = Some (set creator
            (getNum creator (initZero creator (rowOf user debtMap)) + owed)
            (initZero creator (rowOf user debtMap))).
Proof.
  unfold addDebt, rowOf. rewrite get_set_same.
  destruct (get user debtMap) as [r|] eqn:Hg; [now rewrite Hg|].
  now rewrite get_set_same.
Qed.

Lemma addDebt_other_row user creator owed debtMap d :
  user <> d -> get d (addDebt user creator owed debtMap) = get d debtMap.
Proof.
  intros Hne. unfold addDebt. rewrite get_set_other by assumption.
  destruct (get user debtMap); [reflexivity|now apply get_set_other].
Qed.

Lemma addDebt_entry_same user creator owed debtMap :
  sameAmount (entry user creator (addDebt user creator owed debtMap))
             (Some (entryNum user creator debtMap + owed)).
Proof.
  unfold entry. rewrite addDebt_row, get_set_same. simpl.
  rewrite getNum_initZero. unfold entryNum, entry, rowOf, getNum.
  destruct (get user debtMap); reflexivity.
Qed.

Lemma addDebt_entry_other user creator owed debtMap d c :
  concerns d c (user, creator, owed) = false ->
  entry d c (addDebt user creator owed debtMap) = entry d c debtMap.
Proof.
  unfold concerns; simpl. intros H. unfold entry.
  destruct (String.eqb_spec d user) as [Hd|Hd].
  - destruct (String.eqb_spec c creator) as [Hc|Hc]; [discriminate|].
    subst d.
    rewrite addDebt_row, get_set_other, get_initZero_other by congruence.
    unfold rowOf. now destruct (get user debtMap).
  - now rewrite addDebt_other_row by congruence.
Qed.

Lemma total_no_hit d c l : hit d c l = false -> total d c l = 0.
Proof.
  induction l as [|x l IH]; simpl; [reflexivity|].
  destruct (concerns d c x); simpl; [discriminate|exact IH].
Qed.

Lemma concerns_eq d c x :
  concerns d c x = true -> x = (d, c, snd x).
Proof.
  destruct x as [[u cr] owed]. unfold concerns; simpl.
  rewrite andb_true_iff, !String.eqb_eq. now intros [-> ->].
Qed.

(** What [debtMap[d][c]] holds after a list of contributions. *)
Lemma applyContribs_entry l : forall debtMap d c,
  sameAmount (entry d c (applyContribs l debtMap))
             (if hit d c l
              then Some (entryNum d c debtMap + total d c l)
              else entry d c debtMap).
Proof.
  induction l as [|x l IH]; intros m d c; [apply sameAmount_refl|].
  cbn [applyContribs fold_left hit existsb total fold_right].
  fold (applyContribs l (addDebt (fst (fst x)) (snd (fst x)) (snd x) m)).
  eapply sameAmount_trans; [apply IH|]. fold (hit d c l) (total d c l).
  destruct x as [[u cr] owed]; cbn [fst snd].
  destruct (concerns d c (u, cr, owed)) eqn:Hx; cbn [orb].
  - apply concerns_eq in Hx. cbn [snd] in Hx.
    assert (u = d /\ cr = c) as [-> ->] by (split; congruence). clear Hx.
    pose proof (addDebt_entry_same d c owed m) as Hs.
    unfold entryNum at 1.
    destruct (entry d c (addDebt d c owed m)) as [v|]; [|contradiction].
    simpl in Hs. destruct (hit d c l) eqn:Hh; simpl.
    + rewrite Hs. ring.
    + rewrite (total_no_hit _ _ _ Hh), Hs. ring.
  - unfold entryNum. rewrite (addDebt_entry_other _ _ _ _ _ _ Hx).
    apply sameAmount_refl.
Qed.

(** Which debtor rows exist after a list of contributions. *)
Lemma applyContribs_row l : forall debtMap d,
  get d (applyContribs l debtMap) = None
  <-> get d debtMap = None /\ ~ In d (map (fun x => fst (fst x)) l).
Proof.
  induction l as [|[[u cr] owed] l IH]; intros m d; simpl; [tauto|].
  fold (applyContribs l (addDebt u cr owed m)). rewrite IH.
  destruct (String.eqb_spec u d) as [->|Hne].
  - rewrite addDebt_row. split; [intros [? _]; discriminate|tauto].
  - rewrite addDebt_other_row by assumption. tauto.
Qed.

Lemma hit_total_Permutation d c l l' :
  Permutation l l' -> hit d c l = hit d c l' /\ total d c l == total d c l'.
Proof.
  induction 1 as [|x l l' _ [IH1 IH2]|x y l|l l' l'' _ [IH1 IH2] _ [IH3 IH4]];
    simpl.
  - split; reflexivity.
  - rewrite IH1. split; [reflexivity|].
    destruct (concerns d c x); [now rewrite IH2|exact IH2].
  - split; [now destruct (concerns d c x), (concerns d c y)|].
    destruct (concerns d c x), (concerns d c y); ring.
  - split; [congruence|now rewrite IH2].
Qed.

(** *** Order independence of the aggregator *)

Lemma reordered_contribs es es' :
  reordered es es' ->
  Permutation (flat_map expenseContribs es) (flat_map expenseContribs es').
Proof.
  intros (es1 & Hperm & Hsame).
  transitivity (flat_map expenseContribs es1);
    [now apply Permutation_flat_map|].
  clear Hperm. induction Hsame as [|e e' l l' (Hc & Ha & Hs) _ IH]; simpl;
    [constructor|].
  apply Permutation_app; [|exact IH].
  unfold expenseContribs. rewrite Hc, Ha. now apply Permutation_flat_map.
Qed.

(** In exact arithmetic the matrix does not depend on the order of the
    expenses nor on the order of the shares within an expense. *)
Lemma exact_order_independent (es es' : list Expense) :
  reordered es es' ->
  sameMatrix (calculateRawDebts es) (calculateRawDebts es').
Proof.
  intros Hre. apply reordered_contribs in Hre.
  rewrite !calculateRawDebts_contribs.
  set (l := flat_map expenseContribs es) in *.
  set (l' := flat_map expenseContribs es') in *.
  split.
  - intros d. rewrite !applyContribs_row.
    assert (Hin : In d (map (fun x : Contribution => fst (fst x)) l)
                  <-> In d (map (fun x : Contribution => fst (fst x)) l')).
    { split; apply Permutation_in; apply Permutation_map;
        [exact Hre|now apply Permutation_sym]. }
    tauto.
  - intros d c.
    eapply sameAmount_trans; [apply applyContribs_entry|].
    eapply sameAmount_trans; [|apply sameAmount_sym, applyContribs_entry].
    destruct (hit_total_Permutation d c l l' Hre) as [Hh Ht].
    rewrite Hh. destruct (hit d c l'); simpl; [now rewrite Ht|exact I].
Qed.

(** *** Non-negativity of the raw debt matrix *)









(** ** routes/debts.js *)

(** *** The document store *)

Lemma findById_id debtId db debt :
  findById debtId db = Some debt -> debt_id debt = debtId.
Proof.
  unfold findById. intros H. apply find_some in H.
  now apply Nat.eqb_eq.
Qed.

Lemma findById_save_same debtId db debt debt' :
  findById debtId db = Some debt -> debt_id debt' = debtId ->
  findById debtId (save debt' db) = Some debt'.
Proof.
  unfold findById, save; simpl. intros H Hid.
  induction (debtDocs db) as [|d docs IH]; simpl in *; [discriminate|].
  rewrite Hid. destruct (Nat.eqb (debt_id d) debtId) eqn:Hd; simpl.
  - now rewrite Hid, Nat.eqb_refl.
  - rewrite Hd. auto.
Qed.

Lemma findById_save_other debtId db debt' :
  debt_id debt' <> debtId ->
  findById debtId (save debt' db) = findById debtId db.
Proof.
  unfold findById, save; simpl. intros Hid.
  induction (debtDocs db) as [|d docs IH]; simpl; [reflexivity|].
  destruct (Nat.eqb (debt_id d) (debt_id debt')) eqn:Hd; simpl.
  - apply Nat.eqb_eq in Hd. rewrite Hd.
    now destruct (Nat.eqb_spec (debt_id debt') debtId).
  - now rewrite IH.
Qed.

Lemma findById_insert debtId db debt debt' :
  findById debtId db = Some debt ->
  findById debtId (insert debt' db) = Some debt.
Proof.
  unfold findById, insert; simpl. intros H.
  induction (debtDocs db) as [|d docs IH]; simpl in *; [discriminate|].
  destruct (Nat.eqb (debt_id d) debtId); auto.
Qed.

Lemma isFamilyHead_save userId familyId debt db :
  isFamilyHead userId familyId (save debt db) = isFamilyHead userId familyId db.
Proof. reflexivity. Qed.

Lemma nth_error_setItem_same i item l x :
  nth_error l i = Some x -> nth_error (setItem i item l) i = Some item.
Proof.
  revert i. induction l as [|y l IH]; intros [|i]; simpl; try discriminate;
    auto.
Qed.

Lemma nth_error_setItem_other i j item l :
  j <> i -> nth_error (setItem i item l) j = nth_error l j.
Proof.
  revert i j. induction l as [|y l IH]; intros [|i] [|j] H; simpl;
    try reflexivity; try congruence.
  apply IH. congruence.
Qed.

(** *** Settling one transaction *)

(** C6: settling transaction [idx] of a record, requested by the head of
    its family.  The call is rejected when the record is finalized, when the
    index is negative or not below the number of transactions, and when that
    transaction is already settled; otherwise it marks the transaction
    settled, stamps [settledAt] and [updatedAt], leaves the other
    transactions alone and stores the record, after which a second settle of
    the same index is rejected as already settled. *)
Theorem settle_behaviour now userId debtId idx db debt :
  findById debtId db = Some debt ->
  isFamilyHead userId (family debt) db = true ->
  (isFinalized debt = true ->
   settle now userId debtId (Some idx) db
   = (Status 400 "This debt record is already finalized", db))
  /\ ((idx < 0 \/ Z.of_nat (List.length (debts debt)) <= idx)%Z ->
      exists msg,
        settle now userId debtId (Some idx) db = (Status 400 msg, db)
        /\ (isFinalized debt = false -> msg = "Invalid debt index"))
  /\ (forall item,
         isFinalized debt = false ->
         (0 <= idx)%Z ->
         nth_error (debts debt) (Z.to_nat idx) = Some item ->
         if settled item then
           settle now userId debtId (Some idx) db
           = (Status 400 "This debt is already settled", db)
         else
           exists debt',
             settle now userId debtId (Some idx) db = (Json debt', save debt' db)
             /\ findById debtId (save debt' db) = Some debt'
             /\ nth_error (debts debt') (Z.to_nat idx)
                = Some (mkDebtItem (item_from item) (item_to item)
                                   (item_amount item) true (Some now))
             /\ (forall j, j <> Z.to_nat idx ->
                           nth_error (debts debt') j = nth_error (debts debt) j)
             /\ updatedAt debt' = now
             /\ isFinalized debt' = false
             /\ forall now',
                  settle now' userId debtId (Some idx) (save debt' db)
                  = (Status 400 "This debt is already settled", save debt' db)).
Proof.
  intros Hfind Hhead. split; [|split].
  - intros Hfin. unfold settle. now rewrite Hfind, Hhead, Hfin.
  - intros Hidx. unfold settle. rewrite Hfind, Hhead. simpl.
    destruct (isFinalized debt); [eexists; split; [reflexivity|discriminate]|].
    replace ((idx <? 0)%Z || (Z.of_nat (List.length (debts debt)) <=? idx)%Z)
      with true; [eexists; split; reflexivity|].
    symmetry. apply orb_true_iff. rewrite Z.ltb_lt, Z.leb_le. exact Hidx.
  - intros item Hfin Hpos Hnth.
    assert (Hlt : (Z.to_nat idx < List.length (debts debt))%nat)
      by (apply nth_error_Some; congruence).
    assert (Hrange : (idx <? 0)%Z
                     || (Z.of_nat (List.length (debts debt)) <=? idx)%Z = false).
    { apply orb_false_iff. rewrite Z.ltb_ge, Z.leb_gt. lia. }
    destruct (settled item) eqn:Hset.
    + unfold settle. now rewrite Hfind, Hhead, Hfin, Hrange, Hnth, Hset.
    + eexists. split; [|split; [|split; [|split; [|split; [|split]]]]].
      * unfold settle. rewrite Hfind, Hhead, Hfin, Hrange, Hnth, Hset.
        reflexivity.
      * apply (findById_save_same debtId db debt); [exact Hfind|].
        exact (findById_id _ _ _ Hfind).
      * simpl. now apply nth_error_setItem_same with (x := item).
      * intros j Hj. simpl. now apply nth_error_setItem_other.
      * reflexivity.
      * reflexivity.
      * intros now'. unfold settle.
        erewrite findById_save_same;
          [|exact Hfind|exact (findById_id _ _ _ Hfind)].
        cbn [family isFinalized debts]. rewrite isFamilyHead_save, Hhead.
        cbn [negb].
        replace (List.length (setItem (Z.to_nat idx)
                   (mkDebtItem (item_from item) (item_to item)
                      (item_amount item) true (Some now)) (debts debt)))
          with (List.length (debts debt)).
        -- rewrite Hrange.
           now rewrite (nth_error_setItem_same _ _ _ _ Hnth).
        -- clear. generalize (Z.to_nat idx) as i.
           induction (debts debt) as [|y l IH]; intros [|i]; simpl; auto.
Qed.

Lemma settle_behaviour_witness :
  (findById 1 sampleDb = Some sampleDebt
   /\ isFamilyHead "H" (family sampleDebt) sampleDb = true)
  /\ (exists debt',
         settle 10 "H" 1 (Some 0%Z) sampleDb = (Json debt', save debt' sampleDb)
         /\ nth_error (debts debt') 0
            = Some (mkDebtItem "C" "A" 45 true (Some 10%Z))
         /\ settle 11 "H" 1 (Some 0%Z) (save debt' sampleDb)
            = (Status 400 "This debt is already settled", save debt' sampleDb))
  /\ settle 10 "H" 1 (Some 1%Z) sampleDb
     = (Status 400 "This debt is already settled", sampleDb)
  /\ (exists msg,
         settle 10 "H" 1 (Some 2%Z) sampleDb = (Status 400 msg, sampleDb)
         /\ msg = "Invalid debt index")
  /\ settle 10 "H" 1 (Some 0%Z) closedDb
     = (Status 400 "This debt record is already finalized", closedDb).
Proof.
  split; [split; reflexivity|].
  destruct (settle_behaviour 10 "H" 1 0 sampleDb sampleDebt eq_refl eq_refl)
    as (_ & _ & H0).
  destruct (settle_behaviour 10 "H" 1 1 sampleDb sampleDebt eq_refl eq_refl)
    as (_ & _ & H1).
  destruct (settle_behaviour 10 "H" 1 2 sampleDb sampleDebt eq_refl eq_refl)
    as (_ & H2 & _).
  destruct (settle_behaviour 10 "H" 1 0 closedDb closedDebt eq_refl eq_refl)
    as (H3 & _ & _).
  split; [|split; [|split]].
  - destruct (H0 (mkDebtItem "C" "A" 45 false None) eq_refl (Z.le_refl 0) eq_refl)
      as (debt' & Ha & _ & Hb & _ & _ & _ & Hc).
    exists debt'. split; [exact Ha|]. split; [exact Hb|]. apply Hc.
  - apply (H1 (mkDebtItem "B" "A" 15 true (Some 7%Z)) eq_refl);
      [discriminate|reflexivity].
  - destruct H2 as (msg & Ha & Hb); [right; simpl; lia|].
    exists msg. split; [exact Ha|]. now apply Hb.
  - now apply H3.
Defined.

(** *** Finalizing a record *)

Lemma handle_keeps_finalized debtId db debt now r :
  findById debtId db = Some debt -> isFinalized debt = true ->
  findById debtId (snd (handle now r db)) = Some debt.
Proof.
  intros Hfind Hfin. destruct r as [u f s e|u id i|u id]; simpl.
  - unfold calculate.
    destruct s as [s|]; [|exact Hfind]. destruct e as [e|]; [|exact Hfind].
    destruct (negb (isFamilyMember u f db)); [exact Hfind|].
    destruct (findFinalizedDebt f s e db); [exact Hfind|].
    destruct (Nat.eqb _ 0); [exact Hfind|].
    destruct (simplifyDebts _); [|exact Hfind].
    simpl. now apply findById_insert.
  - unfold settle. destruct i as [i|]; [|exact Hfind].
    destruct (findById id db) as [d|] eqn:Hd; [|exact Hfind].
    destruct (negb (isFamilyHead u (family d) db)); [exact Hfind|].
    destruct (isFinalized d) eqn:Hf; [exact Hfind|].
    destruct (_ || _); [exact Hfind|].
    destruct (nth_error _ _) as [item|]; [|exact Hfind].
    destruct (settled item); [exact Hfind|]. simpl.
    rewrite findById_save_other; [exact Hfind|]. simpl.
    rewrite (findById_id _ _ _ Hd). intros <-. congruence.
  - unfold finalize.
    destruct (findById id db) as [d|] eqn:Hd; [|exact Hfind].
    destruct (negb (isFamilyHead u (family d) db)); [exact Hfind|].
    destruct (isFinalized d) eqn:Hf; [exact Hfind|].
    destruct (negb _); [exact Hfind|]. simpl.
    rewrite findById_save_other; [exact Hfind|]. simpl.
    rewrite (findById_id _ _ _ Hd). intros <-. congruence.
Qed.

Lemma reachable_keeps_finalized debtId db debt db' :
  findById debtId db = Some debt -> isFinalized debt = true ->
  reachable db db' -> findById debtId db' = Some debt.
Proof.
  intros Hfind Hfin. induction 1 as [|db' now r _ IH|db' fams exps _ IH].
  - exact Hfind.
  - now apply handle_keeps_finalized.
  - exact IH.
Qed.

Lemma settle_finalized_rejected now userId debtId debtIndex db debt :
  findById debtId db = Some debt -> isFinalized debt = true ->
  rejected (fst (settle now userId debtId debtIndex db)) = true
  /\ snd (settle now userId debtId debtIndex db) = db.
Proof.
  intros Hfind Hfin. unfold settle. destruct debtIndex; [|now split].
  rewrite Hfind, Hfin.
  now destruct (negb (isFamilyHead userId (family debt) db)).
Qed.

Lemma finalize_finalized_rejected now userId debtId db debt :
  findById debtId db = Some debt -> isFinalized debt = true ->
  rejected (fst (finalize now userId debtId db)) = true
  /\ snd (finalize now userId debtId db) = db.
Proof.
  intros Hfind Hfin. unfold finalize. rewrite Hfind, Hfin.
  now destruct (negb (isFamilyHead userId (family debt) db)).
Qed.

(** C5: finalizing a record, requested by the head of its family.  The call
    is rejected when the record is already finalized and when a transaction
    is unsettled.  When every transaction is settled and the record is not
    finalized, it sets [isFinalized], stamps [finalizedAt] and stores the
    record; from then on, in every store that later requests can produce,
    the record is unchanged and every settle and every finalize call on it
    is rejected without touching the store. *)
Theorem finalize_behaviour now userId debtId db debt :
  findById debtId db = Some debt ->
  isFamilyHead userId (family debt) db = true ->
  (isFinalized debt = true ->
   finalize now userId debtId db
   = (Status 400 "This debt record is already finalized", db))
  /\ (isFinalized debt = false ->
      (exists item, In item (debts debt) /\ settled item = false) ->
      finalize now userId debtId db
      = (Status 400 "All debts must be settled before finalizing", db))
  /\ (isFinalized debt = false ->
      (forall item, In item (debts debt) -> settled item = true) ->
      exists debt',
        finalize now userId debtId db = (Json debt', save debt' db)
        /\ isFinalized debt' = true
        /\ finalizedAt debt' = Some now
        /\ debts debt' = debts debt
        /\ forall db'',
             reachable (save debt' db) db'' ->
             findById debtId db'' = Some debt'
             /\ (forall now' userId' debtIndex,
                    rejected (fst (settle now' userId' debtId debtIndex db''))
                    = true
                    /\ snd (settle now' userId' debtId debtIndex db'') = db'')
             /\ (forall now' userId',
                    rejected (fst (finalize now' userId' debtId db'')) = true
                    /\ snd (finalize now' userId' debtId db'') = db'')).
Proof.
  intros Hfind Hhead. split; [|split].
  - intros Hfin. unfold finalize. now rewrite Hfind, Hhead, Hfin.
  - intros Hfin (item & Hin & Hset). unfold finalize.
    rewrite Hfind, Hhead, Hfin. simpl.
    replace (forallb settled (debts debt)) with false; [reflexivity|].
    symmetry. apply not_true_iff_false. intros Hall.
    rewrite forallb_forall in Hall. specialize (Hall item Hin). congruence.
  - intros Hfin Hall. apply forallb_forall in Hall.
    eexists. split; [|split; [|split; [|split]]].
    + unfold finalize. rewrite Hfind, Hhead, Hfin, Hall. reflexivity.
    + reflexivity.
    + reflexivity.
    + reflexivity.
    + intros db'' Hreach.
      match type of Hreach with reachable (save ?d _) _ => set (debt' := d) in * end.
      assert (Hnew : findById debtId (save debt' db) = Some debt').
      { apply (findById_save_same debtId db debt); [exact Hfind|].
        exact (findById_id _ _ _ Hfind). }
      pose proof (reachable_keeps_finalized debtId _ debt' db'' Hnew eq_refl Hreach)
        as Hkept.
      split; [exact Hkept|]. split.
      * intros now' u' i'.
        now apply (settle_finalized_rejected now' u' debtId i' db'' debt').
      * intros now' u'.
        now apply (finalize_finalized_rejected now' u' debtId db'' debt').
Qed.

Lemma finalize_behaviour_witness :
  (findById 1 readyDb = Some readyDebt
   /\ isFamilyHead "H" (family readyDebt) readyDb = true)
  /\ (exists debt',
         finalize 10 "H" 1 readyDb = (Json debt', save debt' readyDb)
         /\ isFinalized debt' = true
         /\ finalizedAt debt' = Some 10%Z
         /\ rejected (fst (settle 11 "H" 1 (Some 0%Z) (save debt' readyDb)))
            = true
         /\ rejected (fst (finalize 12 "H" 1 (save debt' readyDb))) = true)
  /\ finalize 10 "H" 1 sampleDb
     = (Status 400 "All debts must be settled before finalizing", sampleDb)
  /\ finalize 10 "H" 1 closedDb
     = (Status 400 "This debt record is already finalized", closedDb).
Proof.
  split; [split; reflexivity|].
  destruct (finalize_behaviour 10 "H" 1 readyDb readyDebt eq_refl eq_refl)
    as (_ & _ & H).
  destruct (finalize_behaviour 10 "H" 1 sampleDb sampleDebt eq_refl eq_refl)
    as (_ & Hopen & _).
  destruct (finalize_behaviour 10 "H" 1 closedDb closedDebt eq_refl eq_refl)
    as (Hclosed & _ & _).
  split; [|split].
  - destruct H as (debt' & H1 & H2 & H3 & _ & H5).
    + reflexivity.
    + simpl. intros item [<-|[<-|[]]]; reflexivity.
    + exists debt'. split; [exact H1|]. split; [exact H2|]. split; [exact H3|].
      destruct (H5 _ (reach_here _)) as (_ & Hs & Hf).
      split; [apply Hs|apply Hf].
  - apply Hopen; [reflexivity|].
    exists (mkDebtItem "C" "A" 45 false None). split; [now left|reflexivity].
  - now apply Hclosed.
Defined.

(** *** Creating a record *)





(** * Further properties *)

(** ** The aggregator *)

Lemma hit_app d c l1 l2 : hit d c (l1 ++ l2) = hit d c l1 || hit d c l2.
Proof. apply existsb_app. Qed.

Lemma total_app d c l1 l2 : total d c (l1 ++ l2) == total d c l1 + total d c l2.
Proof.
  induction l1 as [|x l1 IH]; simpl; [ring|].
  destruct (concerns d c x); rewrite IH; ring.
Qed.

Lemma Qsum_app l1 l2 : Qsum (l1 ++ l2) == Qsum l1 + Qsum l2.
Proof. induction l1 as [|x l1 IH]; simpl; [ring|]. rewrite IH. ring. Qed.

Lemma nonEmpty_app {A} (l1 l2 : list A) :
  nonEmpty (l1 ++ l2) = nonEmpty l1 || nonEmpty l2.
Proof. now destruct l1. Qed.

Lemma expenseContribs_obligations d c e :
  hit d c (expenseContribs e) = nonEmpty (expenseObligations d c e)
  /\ total d c (expenseContribs e) == Qsum (expenseObligations d c e).
Proof.
  unfold expenseContribs, expenseObligations.
  generalize (creator e) as cr, (amount e) as am. intros cr am.
  induction (sharedAmongst e) as [|s ss [IH1 IH2]]; simpl.
  - destruct (String.eqb cr c); split; reflexivity.
  - rewrite hit_app, total_app, IH1, IH2. unfold shareContribs.
    destruct (String.eqb_spec (share_user s) cr) as [Hs|Hs]; simpl.
    + destruct (String.eqb cr c); [|split; [reflexivity|ring]].
      rewrite andb_false_r. simpl. split; [reflexivity|ring].
    + unfold concerns; simpl. rewrite (String.eqb_sym d), (String.eqb_sym c).
      destruct (String.eqb cr c); simpl.
      * rewrite andb_true_r.
        destruct (String.eqb (share_user s) d); simpl; split;
          try reflexivity; ring.
      * rewrite andb_false_r. simpl. split; [reflexivity|ring].
Qed.

Lemma contribs_obligations d c es :
  hit d c (flat_map expenseContribs es) = nonEmpty (obligations d c es)
  /\ total d c (flat_map expenseContribs es) == Qsum (obligations d c es).
Proof.
  unfold obligations. induction es as [|e es [IH1 IH2]]; simpl.
  - split; reflexivity.
  - destruct (expenseContribs_obligations d c e) as [H1 H2].
    rewrite hit_app, total_app, nonEmpty_app, Qsum_app, IH1, IH2, H1, H2.
    split; reflexivity.
Qed.

Lemma entry_obligations (es : list Expense) (d c : string) :
  sameAmount (entry d c (calculateRawDebts es))
             (match obligations d c es with
              | [] => None
              | l => Some (Qsum l)
              end).
Proof.
  rewrite calculateRawDebts_contribs.
  eapply sameAmount_trans; [apply applyContribs_entry|].
  destruct (contribs_obligations d c es) as [H1 H2]. rewrite H1.
  destruct (obligations d c es) as [|x l]; simpl nonEmpty; cbv iota.
  - exact I.
  - unfold entryNum, entry. simpl get. simpl. rewrite H2. simpl. ring.
Qed.

Lemma expenseObligations_self u e : expenseObligations u u e = [].
Proof.
  unfold expenseObligations.
  destruct (String.eqb_spec (creator e) u) as [Hc|_]; [|reflexivity].
  induction (sharedAmongst e) as [|s ss IH]; simpl; [reflexivity|].
  rewrite IH, Hc. now destruct (String.eqb (share_user s) u).
Qed.

Lemma obligations_self u es : obligations u u es = [].
Proof.
  unfold obligations. induction es as [|e es IH]; simpl; [reflexivity|].
  now rewrite expenseObligations_self, IH.
Qed.

(** X2: nobody owes themselves: the raw debt matrix has no entry
    [debtMap[u][u]], whatever the expenses. *)
Theorem raw_debts_no_self_entry (es : list Expense) (u : string) :
  entry u u (calculateRawDebts es) = None.
Proof.
  pose proof (entry_obligations es u u) as H.
  rewrite obligations_self in H.
  now destruct (entry u u (calculateRawDebts es)).
Qed.

Lemma selfOnly_contribs e : selfOnly e = true -> expenseContribs e = [].
Proof.
  unfold selfOnly, expenseContribs. rewrite forallb_forall. intros H.
  induction (sharedAmongst e) as [|s ss IH]; simpl; [reflexivity|].
  unfold shareContribs at 1. rewrite (H s) by now left. simpl.
  apply IH. intros x Hx. apply H. now right.
Qed.

(** X3: expenses whose shares all belong to their own creator leave the raw
    debt matrix empty. *)
Theorem self_only_expenses_empty_matrix (es : list Expense) :
  forallb selfOnly es = true -> calculateRawDebts es = [].
Proof.
  intros H. rewrite calculateRawDebts_contribs.
  replace (flat_map expenseContribs es) with (@nil Contribution);
    [reflexivity|].
  symmetry. induction es as [|e es IH]; simpl in *; [reflexivity|].
  apply andb_true_iff in H. destruct H as [He Hes].
  now rewrite (selfOnly_contribs e He), IH.
Qed.

Lemma self_only_expenses_empty_matrix_witness :
  calculateRawDebts
    [mkExpense "A" 40 [mkShare "A" "equal" 1];
     mkExpense "B" 25 [mkShare "B" "fixed" 25; mkShare "B" "fixed" 0]]
  = [].
Proof. apply self_only_expenses_empty_matrix. reflexivity. Defined.

Lemma get_In {V : Type} k (v : V) o : get k o = Some v -> In (k, v) o.
Proof.
  induction o as [|[k' v'] o IH]; simpl; [discriminate|].
  destruct (String.eqb_spec k k') as [->|Hne].
  - intros [= ->]. now left.
  - intros H. right. auto.
Qed.

Lemma Forall_set {V : Type} (P : string * V -> Prop) k v o :
  P (k, v) -> Forall P o -> Forall P (set k v o).
Proof.
  intros Hk Ho. induction Ho as [|[k' v'] o Hx Ho IH]; simpl.
  - now constructor.
  - destruct (String.eqb k k'); constructor; auto.
Qed.

Lemma set_not_nil {V : Type} k (v : V) o : set k v o <> [].
Proof. destruct o as [|[k' v'] o]; simpl; [|destruct (String.eqb k k')]; discriminate. Qed.

Lemma set_set {V : Type} k (v v' : V) o : set k v (set k v' o) = set k v o.
Proof.
  induction o as [|[k1 v1] o IH]; simpl.
  - now rewrite String.eqb_refl.
  - destruct (String.eqb k k1) eqn:Hk; simpl.
    + now rewrite String.eqb_refl.
    + now rewrite Hk, IH.
Qed.

Lemma addDebt_set user creator owed m :
  addDebt user creator owed m
  = set user
        (set creator
             (getNum creator (initZero creator (rowOf user m)) + owed)
             (initZero creator (rowOf user m)))
        m.
Proof.
  unfold addDebt, rowOf. destruct (get user m) as [r|] eqn:Hg.
  - now rewrite Hg.
  - now rewrite get_set_same, set_set.
Qed.

Lemma addDebt_wellFormed user creator owed m :
  wellFormed m -> wellFormed (addDebt user creator owed m).
Proof.
  intros [Hk Hr]. rewrite addDebt_set.
  assert (Hrow : NoDup (keys (rowOf user m))).
  { unfold rowOf. destruct (get user m) as [r|] eqn:Hg; [|constructor].
    apply get_In in Hg. rewrite Forall_forall in Hr. now destruct (Hr _ Hg). }
  split; [now apply NoDup_keys_set|].
  apply Forall_set; [|exact Hr]. simpl.
  split; [|apply set_not_nil].
  now apply NoDup_keys_set, NoDup_keys_initZero.
Qed.

(** X4: the raw debt matrix is a proper object of objects: no debtor key and
    no creditor key within a row occurs twice, and every debtor row has at
    least one creditor. *)
Theorem raw_debts_well_formed (es : list Expense) :
  wellFormed (calculateRawDebts es).
Proof.
  rewrite calculateRawDebts_contribs. unfold applyContribs.
  assert (H0 : wellFormed []) by (split; constructor).
  revert H0. generalize ([] : DebtMap) as m.
  induction (flat_map expenseContribs es) as [|x l IH]; intros m Hm; simpl;
    [exact Hm|].
  apply IH. now apply addDebt_wellFormed.
Qed.

(** ** The simplifier *)

Lemma getNum_set u k v o :
  getNum u (set k v o) = if String.eqb u k then v else getNum u o.
Proof.
  unfold getNum. destruct (String.eqb_spec u k) as [->|Hne].
  - now rewrite get_set_same.
  - now rewrite get_set_other by congruence.
Qed.

Lemma getNum_initZero_any u k o : getNum u (initZero k o) == getNum u o.
Proof.
  destruct (String.eqb_spec u k) as [->|Hne].
  - apply getNum_initZero.
  - unfold getNum. now rewrite get_initZero_other by congruence.
Qed.

Lemma balanceEntry_getNum u row debtor balances creditor :
  getNum u (balanceEntry row debtor balances creditor)
  == getNum u balances
     + (if String.eqb u creditor then getNum creditor row else 0)
     - (if String.eqb u debtor then getNum creditor row else 0).
Proof.
  unfold balanceEntry. rewrite !getNum_set.
  pose proof (getNum_initZero_any u creditor balances) as Hu.
  pose proof (getNum_initZero_any debtor creditor balances) as Hd.
  destruct (String.eqb_spec u creditor) as [->|Huc];
    destruct (String.eqb_spec creditor debtor) as [->|Hcd];
    try destruct (String.eqb_spec u debtor) as [->|Hud];
    try congruence; try rewrite Hu; try rewrite Hd; ring.
Qed.

Lemma balanceEntries_getNum u row debtor creditors : forall balances,
  getNum u (fold_left (balanceEntry row debtor) creditors balances)
  == getNum u balances
     + Qsum (map (fun creditor =>
                    if String.eqb u creditor then getNum creditor row else 0)
                 creditors)
     - Qsum (map (fun creditor =>
                    if String.eqb u debtor then getNum creditor row else 0)
                 creditors).
Proof.
  induction creditors as [|c cs IH]; intros b; simpl; [ring|].
  rewrite IH, balanceEntry_getNum. ring.
Qed.

Lemma balanceDebtors_getNum u rawDebts debtors : forall balances,
  getNum u (fold_left (balanceDebtor rawDebts) debtors balances)
  == getNum u balances
     + Qsum (flat_map
               (fun debtor =>
                  map (fun creditor =>
                         if String.eqb u creditor
                         then getNum creditor (rowOf debtor rawDebts) else 0)
                      (keys (rowOf debtor rawDebts)))
               debtors)
     - Qsum (flat_map
               (fun debtor =>
                  map (fun creditor =>
                         if String.eqb u debtor
                         then getNum creditor (rowOf debtor rawDebts) else 0)
                      (keys (rowOf debtor rawDebts)))
               debtors).
Proof.
  induction debtors as [|d ds IH]; intros b; simpl; [ring|].
  rewrite IH. unfold balanceDebtor. fold (rowOf d rawDebts).
  rewrite balanceEntries_getNum, getNum_initZero_any, !Qsum_app. ring.
Qed.

Lemma insertSorted_Permutation a l : Permutation (a :: l) (insertSorted a l).
Proof.
  induction l as [|b l IH]; simpl; [reflexivity|].
  destruct (Qltb 0 (compareFn a b)); [|reflexivity].
  rewrite perm_swap. now constructor.
Qed.

Lemma sortDesc_Permutation l : Permutation l (sortDesc l).
Proof.
  induction l as [|a l IH]; simpl; [constructor|].
  rewrite <- insertSorted_Permutation. now constructor.
Qed.

Lemma insertSorted_sorted a l :
  StronglySorted atLeast l -> StronglySorted atLeast (insertSorted a l).
Proof.
  induction 1 as [|b l Hl IH Hb]; simpl.
  - repeat constructor.
  - destruct (Qltb 0 (compareFn a b)) eqn:Hc.
    + constructor; [exact IH|].
      apply Qltb_true in Hc. unfold compareFn in Hc.
      eapply Permutation_Forall; [apply insertSorted_Permutation|].
      constructor; [unfold atLeast; lra|exact Hb].
    + apply Qltb_false in Hc. unfold compareFn in Hc.
      constructor; [now constructor|].
      constructor; [unfold atLeast; lra|].
      eapply Forall_impl; [|exact Hb]. unfold atLeast. intros p Hp. lra.
Qed.

(** X6: the sort applied to the debtors and to the creditors rearranges its
    input into descending order of amount. *)
Theorem sortDesc_sorts (l : list Party) :
  Permutation l (sortDesc l) /\ StronglySorted atLeast (sortDesc l).
Proof.
  split; [apply sortDesc_Permutation|].
  induction l as [|a l IH]; simpl; [constructor|].
  now apply insertSorted_sorted.
Qed.



(** ** The settlement records *)

Lemma freshId_above debtId db debt :
  findById debtId db = Some debt -> (debtId < freshId db)%nat.
Proof.
  unfold findById, freshId. intros H. apply find_some in H.
  destruct H as [Hin Hid]. apply Nat.eqb_eq in Hid. subst debtId.
  induction (debtDocs db) as [|d docs IH]; simpl in *; [contradiction|].
  destruct Hin as [->|Hin]; [lia|]. specialize (IH Hin). lia.
Qed.

Lemma freshId_not_found db : findById (freshId db) db = None.
Proof.
  destruct (findById (freshId db) db) as [d|] eqn:H; [|reflexivity].
  apply freshId_above in H. lia.
Qed.

Lemma findById_insert_other debtId db debt' :
  debt_id debt' <> debtId ->
  findById debtId (insert debt' db) = findById debtId db.
Proof.
  unfold findById, insert; simpl. intros Hid.
  induction (debtDocs db) as [|d docs IH]; simpl.
  - now destruct (Nat.eqb_spec (debt_id debt') debtId).
  - now destruct (Nat.eqb (debt_id d) debtId).
Qed.

Lemma findById_insert_fresh db debt' :
  debt_id debt' = freshId db ->
  findById (freshId db) (insert debt' db) = Some debt'.
Proof.
  intros Hid. pose proof (freshId_not_found db) as Hnone.
  unfold findById, insert in *; simpl.
  induction (debtDocs db) as [|d docs IH]; simpl in *.
  - now rewrite Hid, Nat.eqb_refl.
  - destruct (Nat.eqb (debt_id d) (freshId db)); [discriminate|auto].
Qed.

Ltac no_write := left; split; [simpl; intros ?; discriminate|reflexivity].

(** The three ways in which a handler can end. *)
Lemma calculate_cases now u f s e db :
  ((forall d, fst (calculate now u f s e db) <> Json d)
   /\ snd (calculate now u f s e db) = db)
  \/ (exists reqStart reqEnd txs,
         s = Some reqStart /\ e = Some reqEnd
         /\ isFamilyMember u f db = true
         /\ findFinalizedDebt f reqStart reqEnd db = None
         /\ findExpenses f reqStart reqEnd db <> []
         /\ simplifyDebts (calculateRawDebts (findExpenses f reqStart reqEnd db))
            = Some txs
         /\ calculate now u f s e db
            = (Json (createdRecord now db f reqStart reqEnd txs),
               insert (createdRecord now db f reqStart reqEnd txs) db)).
Proof.
  unfold calculate.
  destruct s as [s|]; [|no_write].
  destruct e as [e|]; [|no_write].
  destruct (isFamilyMember u f db) eqn:Hm; simpl;
    [|no_write].
  destruct (findFinalizedDebt f s e db) eqn:Hf;
    [no_write|].
  destruct (Nat.eqb (List.length (findExpenses f s e db)) 0) eqn:He;
    [no_write|].
  destruct (simplifyDebts _) as [txs|] eqn:Ht; [|no_write].
  right. exists s, e, txs. repeat split; try assumption; try reflexivity.
  intros Hnil. rewrite Hnil in He. discriminate He.
Qed.

Lemma settle_cases now u id i db :
  ((forall d, fst (settle now u id i db) <> Json d)
   /\ snd (settle now u id i db) = db)
  \/ (exists idx d0 item,
         i = Some idx /\ (0 <= idx)%Z
         /\ findById id db = Some d0
         /\ isFamilyHead u (family d0) db = true
         /\ isFinalized d0 = false
         /\ nth_error (debts d0) (Z.to_nat idx) = Some item
         /\ settled item = false
         /\ settle now u id i db
            = (Json (settledRecord now d0 (Z.to_nat idx) item),
               save (settledRecord now d0 (Z.to_nat idx) item) db)).
Proof.
  unfold settle.
  destruct i as [i|]; [|no_write].
  destruct (findById id db) as [d|] eqn:Hd;
    [|no_write].
  destruct (isFamilyHead u (family d) db) eqn:Hh; simpl;
    [|no_write].
  destruct (isFinalized d) eqn:Hf; [no_write|].
  destruct (_ || _) eqn:Hr; [no_write|].
  destruct (nth_error _ _) as [item|] eqn:Hn;
    [|no_write].
  destruct (settled item) eqn:Hs; [no_write|].
  right. exists i, d, item. apply orb_false_iff in Hr.
  destruct Hr as [Hr _]. apply Z.ltb_ge in Hr.
  repeat split; try assumption.
  unfold settledRecord, settledItem. now rewrite Hf.
Qed.

Lemma finalize_cases now u id db :
  ((forall d, fst (finalize now u id db) <> Json d)
   /\ snd (finalize now u id db) = db)
  \/ (exists d0,
         findById id db = Some d0
         /\ isFamilyHead u (family d0) db = true
         /\ isFinalized d0 = false
         /\ forallb settled (debts d0) = true
         /\ finalize now u id db
            = (Json (finalizedRecord now d0), save (finalizedRecord now d0) db)).
Proof.
  unfold finalize.
  destruct (findById id db) as [d|] eqn:Hd;
    [|no_write].
  destruct (isFamilyHead u (family d) db) eqn:Hh; simpl;
    [|no_write].
  destruct (isFinalized d) eqn:Hf; [no_write|].
  destruct (forallb settled (debts d)) eqn:Ha; simpl;
    [|no_write].
  right. exists d. repeat split; assumption || reflexivity.
Qed.

(** X10: a request changes the store only when it is answered with the
    record it created or updated; that record is then the stored one, and
    the requester has passed the gate (family member for a creation, head of
    the record's family for a settlement or finalization).  Every other
    answer leaves the store as it was. *)
Theorem writes_are_authorised now (r : Request) (db : Db) :
  (exists d,
      fst (handle now r db) = Json d
      /\ authorised r db d
      /\ debt_id d = target r db
      /\ findById (debt_id d) (snd (handle now r db)) = Some d)
  \/ ((forall d, fst (handle now r db) <> Json d)
      /\ snd (handle now r db) = db).
Proof.
  destruct r as [u f s e|u id i|u id]; simpl.
  - destruct (calculate_cases now u f s e db)
      as [H|(rs & re & txs & -> & -> & Hm & _ & _ & _ & Hc)]; [now right|].
    left. rewrite Hc. eexists. split; [reflexivity|]. simpl.
    split; [now split|]. split; [reflexivity|].
    now apply findById_insert_fresh.
  - destruct (settle_cases now u id i db)
      as [H|(idx & d0 & item & -> & _ & Hd & Hh & _ & _ & _ & Hc)];
      [now right|].
    left. rewrite Hc. eexists. split; [reflexivity|]. simpl.
    pose proof (findById_id _ _ _ Hd) as Hid.
    split; [now split|]. split; [exact Hid|].
    apply (findById_save_same _ db d0); [now rewrite Hid|reflexivity].
  - destruct (finalize_cases now u id db)
      as [H|(d0 & Hd & Hh & _ & _ & Hc)]; [now right|].
    left. rewrite Hc. eexists. split; [reflexivity|]. simpl.
    pose proof (findById_id _ _ _ Hd) as Hid.
    split; [now split|]. split; [exact Hid|].
    apply (findById_save_same _ db d0); [now rewrite Hid|reflexivity].
Qed.

Lemma handle_other_collections now r db :
  families (snd (handle now r db)) = families db
  /\ expenseDocs (snd (handle now r db)) = expenseDocs db.
Proof.
  destruct r as [u f s e|u id i|u id]; simpl.
  - unfold calculate. destruct s, e; try now split.
    destruct (negb _); [now split|].
    destruct (findFinalizedDebt _ _ _ _); [now split|].
    destruct (Nat.eqb _ 0); [now split|].
    now destruct (simplifyDebts _).
  - unfold settle. destruct i; [|now split].
    destruct (findById id db) as [d|]; [|now split].
    destruct (negb _); [now split|].
    destruct (isFinalized d); [now split|].
    destruct (_ || _); [now split|].
    destruct (nth_error _ _) as [item|]; [|now split].
    now destruct (settled item).
  - unfold finalize.
    destruct (findById id db) as [d|]; [|now split].
    destruct (negb _); [now split|].
    destruct (isFinalized d); [now split|].
    now destruct (negb _).
Qed.

(** X11: a request touches one record at most: every record other than the
    one it names (or, for a creation, other than the new one) is found
    unchanged afterwards, and the families and the expenses are never
    written. *)
Theorem other_records_untouched now (r : Request) (db : Db) (debtId : nat) :
  debtId <> target r db ->
  findById debtId (snd (handle now r db)) = findById debtId db
  /\ families (snd (handle now r db)) = families db
  /\ expenseDocs (snd (handle now r db)) = expenseDocs db.
Proof.
  intros Hne. split; [|apply handle_other_collections].
  destruct r as [u f s e|u id i|u id]; simpl in *.
  - destruct (calculate_cases now u f s e db)
      as [[_ H]|(rs & re & txs & _ & _ & _ & _ & _ & _ & Hc)];
      [now rewrite H|].
    rewrite Hc. simpl. apply findById_insert_other. simpl. congruence.
  - destruct (settle_cases now u id i db)
      as [[_ H]|(idx & d0 & item & _ & _ & Hd & _ & _ & _ & _ & Hc)];
      [now rewrite H|].
    rewrite Hc. simpl. apply findById_save_other. simpl.
    rewrite (findById_id _ _ _ Hd). congruence.
  - destruct (finalize_cases now u id db)
      as [[_ H]|(d0 & Hd & _ & _ & _ & Hc)]; [now rewrite H|].
    rewrite Hc. simpl. apply findById_save_other. simpl.
    rewrite (findById_id _ _ _ Hd). congruence.
Qed.

Lemma other_records_untouched_witness :
  findById 1 (snd (handle 9 (Calculate "A" "F" (Some 0%Z) (Some 30%Z))
                     (mkDb (families selfOnlyDb) (expenseDocs selfOnlyDb)
                           [sampleDebt])))
  = Some sampleDebt.
Proof.
  now apply (other_records_untouched 9
               (Calculate "A" "F" (Some 0%Z) (Some 30%Z))
               (mkDb (families selfOnlyDb) (expenseDocs selfOnlyDb)
                     [sampleDebt]) 1).
Defined.

Lemma keeps_settled_refl l :
  Forall2 (fun x x' : DebtItem => settled x = true -> x' = x) l l.
Proof. induction l; constructor; auto. Qed.

Lemma evolves_refl d : evolves d d.
Proof. repeat split; try reflexivity. apply keeps_settled_refl. Qed.

Lemma evolves_trans d1 d2 d3 : evolves d1 d2 -> evolves d2 d3 -> evolves d1 d3.
Proof.
  intros (A1 & A2 & A3 & A4 & A5 & A6 & A7 & A8)
         (B1 & B2 & B3 & B4 & B5 & B6 & B7 & B8).
  repeat split; try congruence.
  - clear -A7 B7. revert B7. generalize (debts d3).
    induction A7 as [|x y l l' Hxy _ IH]; intros l3 H3.
    + inversion H3. constructor.
    + inversion H3 as [|y' z l2 l3' Hyz Hrest]; subst.
      constructor; [|now apply IH].
      intros Hs. specialize (Hxy Hs). subst y. auto.
  - intros Hf. specialize (A8 Hf). subst d2. auto.
Qed.

Lemma setItem_core i item item' l :
  nth_error l i = Some item -> itemCore item' = itemCore item ->
  map itemCore (setItem i item' l) = map itemCore l.
Proof.
  revert i. induction l as [|x l IH]; intros [|i]; simpl; try discriminate.
  - intros [= ->] H. now rewrite H.
  - intros Hn H. now rewrite IH.
Qed.

Lemma setItem_keeps_settled i item item' l :
  nth_error l i = Some item -> settled item = false ->
  Forall2 (fun x x' => settled x = true -> x' = x) l (setItem i item' l).
Proof.
  revert i. induction l as [|x l IH]; intros [|i]; simpl; try discriminate.
  - intros [= ->] Hs. constructor; [congruence|apply keeps_settled_refl].
  - intros Hn Hs. constructor; [auto|now apply IH].
Qed.

Lemma handle_evolves now r db debtId d :
  findById debtId db = Some d ->
  exists d', findById debtId (snd (handle now r db)) = Some d' /\ evolves d d'.
Proof.
  intros Hfind. destruct r as [u f s e|u id i|u id]; simpl.
  - destruct (calculate_cases now u f s e db)
      as [[_ H]|(rs & re & txs & _ & _ & _ & _ & _ & _ & Hc)].
    + rewrite H. exists d. split; [exact Hfind|apply evolves_refl].
    + rewrite Hc. simpl. exists d.
      split; [now apply findById_insert|apply evolves_refl].
  - destruct (settle_cases now u id i db)
      as [[_ H]|(idx & d0 & item & _ & _ & Hd & _ & Hf & Hn & Hs & Hc)].
    + rewrite H. exists d. split; [exact Hfind|apply evolves_refl].
    + rewrite Hc. simpl. destruct (Nat.eq_dec id debtId) as [->|Hne].
      * assert (d0 = d) by congruence. subst d0. eexists. split.
        -- apply (findById_save_same _ db d); [exact Hfind|].
           exact (findById_id _ _ _ Hfind).
        -- repeat split; simpl.
           ++ now apply setItem_core with (item := item).
           ++ now apply setItem_keeps_settled with (item := item).
           ++ congruence.
      * exists d. split; [|apply evolves_refl].
        rewrite findById_save_other; [exact Hfind|]. simpl.
        rewrite (findById_id _ _ _ Hd). exact Hne.
  - destruct (finalize_cases now u id db)
      as [[_ H]|(d0 & Hd & _ & Hf & _ & Hc)].
    + rewrite H. exists d. split; [exact Hfind|apply evolves_refl].
    + rewrite Hc. simpl. destruct (Nat.eq_dec id debtId) as [->|Hne].
      * assert (d0 = d) by congruence. subst d0. eexists. split.
        -- apply (findById_save_same _ db d); [exact Hfind|].
           exact (findById_id _ _ _ Hfind).
        -- repeat split; simpl; try congruence.
           apply keeps_settled_refl.
      * exists d. split; [|apply evolves_refl].
        rewrite findById_save_other; [exact Hfind|]. simpl.
        rewrite (findById_id _ _ _ Hd). exact Hne.
Qed.

(** X12: records are never deleted and only move forward.  In every store
    that later requests can produce, a record is still found under its
    identifier with the same family, period, creation time and transactions
    (payer, payee, amount); a transaction that was settled is unchanged,
    stamp included; and a record that was finalized is unchanged as a
    whole. *)
Theorem records_only_move_forward (db db' : Db) (debtId : nat) (d : Debt) :
  findById debtId db = Some d ->
  reachable db db' ->
  exists d', findById debtId db' = Some d' /\ evolves d d'.
Proof.
  intros Hfind. induction 1 as [|db' now r _ IH|db' fams exps _ IH].
  - exists d. split; [exact Hfind|apply evolves_refl].
  - destruct IH as (d1 & H1 & E1).
    destruct (handle_evolves now r db' debtId d1 H1) as (d2 & H2 & E2).
    exists d2. split; [exact H2|now apply evolves_trans with d1].
  - exact IH.
Qed.

Lemma records_only_move_forward_witness :
  exists d',
    findById 1 (snd (handle 11 (Finalize "H" 1)
                       (snd (handle 10 (Settle "H" 1 (Some 0%Z)) sampleDb))))
    = Some d'
    /\ evolves sampleDebt d'.
Proof.
  apply (records_only_move_forward sampleDb); [reflexivity|].
  apply reach_request, reach_request, reach_here.
Defined.














Lemma findFinalizedDebt_insert_open f s e db d :
  isFinalized d = false ->
  findFinalizedDebt f s e (insert d db) = findFinalizedDebt f s e db.
Proof.
  intros Hd. unfold findFinalizedDebt, insert; simpl.
  induction (debtDocs db) as [|x docs IH]; simpl.
  - now rewrite Hd, andb_false_r.
  - now rewrite IH.
Qed.

Lemma freshId_insert d db :
  (freshId db <= debt_id d)%nat -> (debt_id d < freshId (insert d db))%nat.
Proof.
  unfold freshId, insert; simpl. intros _.
  induction (debtDocs db) as [|x docs IH]; simpl; lia.
Qed.

(** X14: only finalized records block a creation.  Once a creation request
    has been answered with a new record, the same request succeeds again:
    it stores a second open record with another identifier, for the same
    family and period and with the same transactions. *)
Theorem open_record_does_not_block_creation
    now userId familyId reqStart reqEnd db d db1 :
  calculate now userId familyId reqStart reqEnd db = (Json d, db1) ->
  forall now',
  exists d',
    calculate now' userId familyId reqStart reqEnd db1 = (Json d', insert d' db1)
    /\ debt_id d' <> debt_id d
    /\ family d' = family d
    /\ startDate d' = startDate d
    /\ endDate d' = endDate d
    /\ debts d' = debts d
    /\ isFinalized d = false
    /\ isFinalized d' = false.
Proof.
  intros Hc now'.
  destruct (calculate_cases now userId familyId reqStart reqEnd db)
    as [[Hno _]|(rs & re & txs & -> & -> & Hm & Hf & He & Ht & Hc')].
  - exfalso. apply (Hno d). now rewrite Hc.
  - rewrite Hc' in Hc. injection Hc as <- <-.
    set (d := createdRecord now db familyId rs re txs).
    exists (createdRecord now' (insert d db) familyId rs re txs).
    split.
    + unfold calculate.
      change (isFamilyMember userId familyId (insert d db))
        with (isFamilyMember userId familyId db).
      change (findExpenses familyId rs re (insert d db))
        with (findExpenses familyId rs re db).
      rewrite Hm, findFinalizedDebt_insert_open, Hf by reflexivity. simpl.
      destruct (findExpenses familyId rs re db) as [|x xs]; [congruence|].
      simpl. now rewrite Ht.
    + repeat split. simpl.
      pose proof (freshId_insert d db (le_n _)). simpl in *. lia.
Qed.

Lemma open_record_does_not_block_creation_witness :
  exists d',
    calculate 101 "A" "F" (Some 0%Z) (Some 30%Z)
      (insert (mkDebt 1 "F" 0 30 [] false None 100 100) selfOnlyDb)
    = (Json d', insert d' (insert (mkDebt 1 "F" 0 30 [] false None 100 100)
                                  selfOnlyDb))
    /\ debt_id d' <> 1%nat.
Proof.
  destruct (open_record_does_not_block_creation 100 "A" "F" (Some 0%Z)
              (Some 30%Z) selfOnlyDb _ _ eq_refl 101)
    as (d' & H1 & H2 & _).
  exists d'. split; [exact H1|exact H2].
Defined.



Lemma isFamilyHead_families u f db1 db2 :
  families db1 = families db2 -> isFamilyHead u f db1 = isFamilyHead u f db2.
Proof. unfold isFamilyHead. now intros ->. Qed.

Lemma setItem_length i item l : List.length (setItem i item l) = List.length l.
Proof.
  revert i. induction l as [|x l IH]; intros [|i]; simpl; auto.
Qed.

(** The state of a record while its transactions are settled in order. *)
Lemma settleAll_prefix now u id db d k :
  findById id db = Some d ->
  isFamilyHead u (family d) db = true ->
  isFinalized d = false ->
  (k <= List.length (debts d))%nat ->
  exists dk,
    findById id (settleAll now u id k db) = Some dk
    /\ families (settleAll now u id k db) = families db
    /\ family dk = family d
    /\ isFinalized dk = false
    /\ List.length (debts dk) = List.length (debts d)
    /\ forall i item, (i < k)%nat -> nth_error (debts dk) i = Some item ->
                      settled item = true.
Proof.
  intros Hfind Hhead Hfin. induction k as [|k IH]; intros Hk.
  - exists d. repeat split; auto. intros i item Hi. lia.
  - destruct IH as (dk & Hdk & Hfam & Hf & Hopen & Hlen & Hset); [lia|].
    unfold settleAll in *. rewrite seq_S, fold_left_app. simpl.
    set (dbk := fold_left _ (seq 0 k) db) in *.
    assert (Hh : isFamilyHead u (family dk) dbk = true).
    { rewrite Hf, (isFamilyHead_families u (family d) dbk db Hfam). exact Hhead. }
    destruct (nth_error (debts dk) k) as [item|] eqn:Hn;
      [|apply nth_error_None in Hn; lia].
    unfold settle. rewrite Hdk, Hh, Hopen. cbn [negb].
    replace ((Z.of_nat k <? 0)%Z
             || (Z.of_nat (List.length (debts dk)) <=? Z.of_nat k)%Z)
      with false
      by (symmetry; apply orb_false_iff; rewrite Z.ltb_ge, Z.leb_gt; lia).
    rewrite Nat2Z.id, Hn.
    destruct (settled item) eqn:Hs; cbn [snd].
    + exists dk. repeat split; auto. intros i it Hi Hit.
      destruct (Nat.eq_dec i k) as [->|Hne]; [congruence|].
      apply (Hset i); [lia|exact Hit].
    + eexists. split.
      * apply (findById_save_same id dbk dk); [exact Hdk|].
        exact (findById_id _ _ _ Hdk).
      * cbn [families save family isFinalized debts].
        repeat split; auto.
        -- now rewrite setItem_length.
        -- intros i it Hi Hit. destruct (Nat.eq_dec i k) as [->|Hne].
           ++ rewrite (nth_error_setItem_same _ _ _ _ Hn) in Hit.
              now injection Hit as <-.
           ++ rewrite nth_error_setItem_other in Hit by exact Hne.
              apply (Hset i); [lia|exact Hit].
Qed.

(** X16: an open record becomes finalizable by settling its transactions.
    After the head of the family has requested a settlement for each index
    in turn (those already settled are rejected and change nothing), every
    transaction is settled and the finalization succeeds. *)
Theorem settle_all_then_finalize now now' userId debtId db d :
  findById debtId db = Some d ->
  isFamilyHead userId (family d) db = true ->
  isFinalized d = false ->
  let db' := settleAll now userId debtId (List.length (debts d)) db in
  exists d',
    findById debtId db' = Some d'
    /\ forallb settled (debts d') = true
    /\ finalize now' userId debtId db'
       = (Json (finalizedRecord now' d'), save (finalizedRecord now' d') db').
Proof.
  intros Hfind Hhead Hfin db'.
  destruct (settleAll_prefix now userId debtId db d (List.length (debts d))
              Hfind Hhead Hfin (le_n _))
    as (d' & Hd' & Hfam & Hf & Hopen & Hlen & Hset).
  fold db' in Hd', Hfam. exists d'.
  assert (Hall : forallb settled (debts d') = true).
  { apply forallb_forall. intros item Hin.
    apply In_nth_error in Hin. destruct Hin as [i Hi].
    apply (Hset i item); [|exact Hi].
    rewrite <- Hlen. apply nth_error_Some. congruence. }
  split; [exact Hd'|]. split; [exact Hall|].
  assert (Hh : isFamilyHead userId (family d') db' = true).
  { rewrite Hf, (isFamilyHead_families userId (family d) db' db Hfam).
    exact Hhead. }
  unfold finalize. rewrite Hd', Hh. cbn [negb]. rewrite Hopen, Hall.
  reflexivity.
Qed.

Lemma settle_all_then_finalize_witness :
  exists d',
    findById 1 (settleAll 10 "H" 1 2 sampleDb) = Some d'
    /\ forallb settled (debts d') = true
    /\ finalize 11 "H" 1 (settleAll 10 "H" 1 2 sampleDb)
       = (Json (finalizedRecord 11 d'),
          save (finalizedRecord 11 d') (settleAll 10 "H" 1 2 sampleDb)).
Proof.
  apply (settle_all_then_finalize 10 11 "H" 1 sampleDb sampleDebt);
    reflexivity.
Defined.

(** *** The preview *)

Lemma findFiltered_both f s e db :
  findFiltered f (Some s) (Some e) db = findExpenses f s e db.
Proof.
  unfold findFiltered, findExpenses, inPeriod. f_equal.
  apply filter_ext. intros x. now rewrite andb_assoc.
Qed.

(** X17: the preview agrees with the creation.  For a period given by both
    bounds, whenever the preview lists transactions, a creation request for
    the same period stores exactly those transactions, all unsettled; and
    whenever a creation succeeds, the preview lists the transactions of the
    new record, provided their users exist. *)
Theorem preview_agrees_with_creation now userId familyId reqStart reqEnd users db :
  (forall txs,
      current userId familyId (Some reqStart) (Some reqEnd) users db
      = CurrentDebts (Some reqStart) (Some reqEnd) txs ->
      calculate now userId familyId (Some reqStart) (Some reqEnd) db
      = (Json (createdRecord now db familyId reqStart reqEnd txs),
         insert (createdRecord now db familyId reqStart reqEnd txs) db))
  /\ (forall d db1 txs,
         calculate now userId familyId (Some reqStart) (Some reqEnd) db
         = (Json d, db1) ->
         debts d = map newItem txs ->
         forallb (populates users) txs = true ->
         current userId familyId (Some reqStart) (Some reqEnd) users db
         = CurrentDebts (Some reqStart) (Some reqEnd) txs).
Proof.
  split.
  - intros txs. unfold current, calculate. rewrite findFiltered_both.
    destruct (negb (isFamilyMember userId familyId db)); [discriminate|].
    destruct (findFinalizedDebt familyId reqStart reqEnd db); [discriminate|].
    destruct (Nat.eqb _ 0); [discriminate|].
    destruct (simplifyDebts _) as [l|]; [|discriminate].
    destruct (forallb (populates users) l); [|discriminate].
    now intros [= ->].
  - intros d db1 txs Hc Hd Hu.
    destruct (calculate_cases now userId familyId (Some reqStart) (Some reqEnd) db)
      as [[Hno _]|(rs & re & l & [= <-] & [= <-] & Hm & Hf & He & Ht & Hc')].
    + exfalso. apply (Hno d). now rewrite Hc.
    + rewrite Hc' in Hc. injection Hc as <- <-. simpl in Hd.
      assert (l = txs).
      { clear -Hd. revert txs Hd.
        induction l as [|[f t a] l IH]; intros [|[f' t' a'] txs]; simpl;
          try discriminate; [reflexivity|].
        intros [= -> -> -> H]. f_equal. now apply IH. }
      subst l. unfold current. rewrite findFiltered_both, Hm, Hf. simpl.
      destruct (findExpenses familyId reqStart reqEnd db) as [|x xs];
        [congruence|]. simpl. now rewrite Ht, Hu.
Qed.

Lemma preview_agrees_with_creation_witness :
  calculate 20 "A" "F" (Some 0%Z) (Some 30%Z) exampleDb
  = (Json (createdRecord 20 exampleDb "F" 0 30
             [mkTransaction "C" "A" (round2 (270 # 6));
              mkTransaction "B" "A" (round2 (90 # 6))]),
     insert (createdRecord 20 exampleDb "F" 0 30
               [mkTransaction "C" "A" (round2 (270 # 6));
                mkTransaction "B" "A" (round2 (90 # 6))])
            exampleDb).
Proof.
  apply (preview_agrees_with_creation 20 "A" "F" 0 30 ["A"; "B"; "C"]).
  vm_compute. reflexivity.
Defined.

(** ** routes/expenses.js *)

Lemma castShares_spec l ss :
  ExpenseRoutes.castShares l = Some ss ->
  map share_user ss = map ExpenseRoutes.in_user l
  /\ map shareValue ss
     = map (fun x => ExpenseRoutes.valueOrZero (ExpenseRoutes.in_shareValue x)) l
  /\ Forall2 (fun x s =>
                shareType s = match ExpenseRoutes.in_shareType x with
                              | Some t => t | None => "equal" end) l ss.
Proof.
  revert ss. induction l as [|x l IH]; simpl; intros ss.
  - intros [= <-]. repeat split; constructor.
  - unfold ExpenseRoutes.castShare at 1.
    destruct (_ || _); [|discriminate].
    destruct (ExpenseRoutes.castShares l) as [ss'|]; [|discriminate].
    intros [= <-]. destruct (IH ss' eq_refl) as (H1 & H2 & H3). simpl.
    rewrite H1, H2. repeat split. now constructor.
Qed.

Lemma existsb_eqb_In u l : existsb (String.eqb u) l = true <-> In u l.
Proof.
  rewrite existsb_exists. split.
  - intros (x & Hx & He). apply String.eqb_eq in He. now subst.
  - intros H. exists u. split; [exact H|apply String.eqb_refl].
Qed.

(** The shares that the route hands to the schema. *)
Lemma processSharedAmongst_users amount fam shares l :
  ExpenseRoutes.processSharedAmongst amount fam shares = inr l ->
  Forall (fun x => In (ExpenseRoutes.in_user x) fam) l.
Proof.
  unfold ExpenseRoutes.processSharedAmongst.
  destruct shares as [|first rest].
  - intros [= <-]. apply Forall_forall. intros x Hx.
    apply in_map_iff in Hx. destruct Hx as (m & <- & Hm). exact Hm.
  - remember (first :: rest) as all eqn:Eall.
    destruct (forallb _ all) eqn:Hall; cbn [negb]; [|discriminate].
    assert (Husers : Forall (fun x => In (ExpenseRoutes.in_user x) fam) all).
    { apply Forall_forall. intros x Hx. rewrite forallb_forall in Hall.
      now apply existsb_eqb_In, Hall. }
    destruct (String.eqb _ "equal").
    + intros [= <-]. apply Forall_forall. intros x Hx.
      apply in_map_iff in Hx. destruct Hx as (y & <- & Hy). simpl.
      rewrite Forall_forall in Husers. now apply Husers.
    + destruct (String.eqb _ "percentage").
      * destruct (Qltb _ _); [discriminate|]. now intros [= <-].
      * destruct (String.eqb _ "fixed").
        -- destruct (Qltb _ _); [discriminate|]. now intros [= <-].
        -- intros [= <-]. constructor.
Qed.

Lemma processSharedAmongst_rejection amount fam shares r :
  ExpenseRoutes.processSharedAmongst amount fam shares = inl r ->
  exists code msg, r = ExpenseRoutes.Status code msg.
Proof.
  unfold ExpenseRoutes.processSharedAmongst.
  destruct shares as [|first rest]; [discriminate|].
  destruct (negb _); [intros [= <-]; eauto|].
  destruct (String.eqb _ "equal"); [discriminate|].
  destruct (String.eqb _ "percentage").
  - destruct (Qltb _ _); [intros [= <-]; eauto|discriminate].
  - destruct (String.eqb _ "fixed"); [|discriminate].
    destruct (Qltb _ _); [intros [= <-]; eauto|discriminate].
Qed.

(** X18: an expense is stored only for a member of the family, with the
    requester as creator and the requested amount, and every stored share
    belongs to a member of the family. *)
Theorem stored_expense_stays_in_family userId amount fam shares e :
  ExpenseRoutes.postExpense userId amount fam shares = ExpenseRoutes.Saved e ->
  creator e = userId /\ DebtCalculator.amount e = amount
  /\ In userId fam
  /\ Forall (fun s => In (share_user s) fam) (sharedAmongst e).
Proof.
  unfold ExpenseRoutes.postExpense.
  destruct (existsb (String.eqb userId) fam) eqn:Hm; simpl; [|discriminate].
  destruct (ExpenseRoutes.processSharedAmongst amount fam shares) as [r|l] eqn:Hp.
  { apply processSharedAmongst_rejection in Hp.
    destruct Hp as (code & msg & ->). discriminate. }
  destruct (ExpenseRoutes.castShares l) as [ss|] eqn:Hc; [|discriminate].
  intros [= <-]. simpl. repeat split; [now apply existsb_eqb_In|].
  apply processSharedAmongst_users in Hp.
  destruct (castShares_spec l ss Hc) as (Hu & _ & _).
  apply Forall_forall. intros s Hs.
  assert (Hin : In (share_user s) (map share_user ss)) by now apply in_map.
  rewrite Hu in Hin. apply in_map_iff in Hin. destruct Hin as (x & <- & Hx).
  rewrite Forall_forall in Hp. now apply Hp.
Qed.

Lemma stored_expense_stays_in_family_witness :
  Forall (fun s => In (share_user s) ["A"; "B"; "C"]) (sharedAmongst skewedFixed).
Proof.
  apply (stored_expense_stays_in_family "A" 100 ["A"; "B"; "C"]
           [ExpenseRoutes.mkShareInput "B" (Some "fixed") (Some 150);
            ExpenseRoutes.mkShareInput "C" (Some "fixed") (Some (- 50))]).
  reflexivity.
Defined.

Lemma castShares_equal v users :
  ExpenseRoutes.castShares
    (map (fun u => ExpenseRoutes.mkShareInput u (Some "equal") (Some v)) users)
  = Some (map (fun u => mkShare u "equal" v) users).
Proof.
  induction users as [|u us IH]; simpl; [reflexivity|]. now rewrite IH.
Qed.

Lemma processSharedAmongst_equal amount fam shares l :
  requestedType shares = "equal" ->
  ExpenseRoutes.processSharedAmongst amount fam shares = inr l ->
  l = map (fun u =>
             ExpenseRoutes.mkShareInput u (Some "equal")
               (Some (1 / inject_Z (Z.of_nat (List.length (participants fam shares))))))
          (participants fam shares).
Proof.
  unfold requestedType, ExpenseRoutes.processSharedAmongst, participants.
  destruct shares as [|first rest]; [now intros _ [= <-]|].
  intros ->. destruct (negb _); [discriminate|]. simpl String.eqb. cbv iota.
  intros [= <-]. rewrite length_map, map_map. reflexivity.
Qed.

(** X19: an equal split is normalised.  When the request names no share
    type, or "equal", or no shares at all, the stored expense has one share
    per participant (the listed users, or the whole family), each of type
    "equal" and of value 1/n for the n participants, and the expense meets
    the creation-time invariants. *)
Theorem equal_split_is_normalised userId amount fam shares e :
  requestedType shares = "equal" ->
  ExpenseRoutes.postExpense userId amount fam shares = ExpenseRoutes.Saved e ->
  let users := participants fam shares in
  sharedAmongst e
  = map (fun u =>
           mkShare u "equal" (1 / inject_Z (Z.of_nat (List.length users))))
        users
  /\ users <> []
  /\ creationInvariant e = true.
Proof.
  intros Ht. unfold ExpenseRoutes.postExpense.
  destruct (existsb (String.eqb userId) fam) eqn:Hm; simpl; [|discriminate].
  destruct (ExpenseRoutes.processSharedAmongst amount fam shares) as [r|l] eqn:Hp.
  { apply processSharedAmongst_rejection in Hp.
    destruct Hp as (code & msg & ->). discriminate. }
  apply (processSharedAmongst_equal _ _ _ _ Ht) in Hp. subst l.
  rewrite castShares_equal. intros [= <-]. simpl sharedAmongst.
  set (users := participants fam shares).
  assert (Hne : users <> []).
  { unfold users, participants. destruct shares; [|discriminate].
    apply existsb_eqb_In in Hm. intros E. rewrite E in Hm. contradiction. }
  split; [reflexivity|]. split; [exact Hne|].
  unfold creationInvariant; simpl sharedAmongst.
  apply orb_true_iff. left. apply orb_true_iff. left.
  rewrite length_map. apply andb_true_iff. split.
  - unfold allOfType. apply forallb_forall. intros s Hs.
    apply in_map_iff in Hs. destruct Hs as (u & <- & _). reflexivity.
  - apply forallb_forall. intros s Hs.
    apply in_map_iff in Hs. destruct Hs as (u & <- & _). simpl.
    apply Qeq_bool_iff. reflexivity.
Qed.

Lemma equal_split_is_normalised_witness :
  List.length (sharedAmongst refund) = 3%nat
  /\ creationInvariant refund = true.
Proof.
  destruct (equal_split_is_normalised "A" (- 90) ["A"; "B"; "C"]
              [ExpenseRoutes.mkShareInput "A" None None;
               ExpenseRoutes.mkShareInput "B" None None;
               ExpenseRoutes.mkShareInput "C" None None] refund
              eq_refl eq_refl) as (H0 & _ & H2).
  split; [rewrite H0; reflexivity|exact H2].
Defined.






(** ** The family routes *)

Lemma findIndex_Some {A : Type} (p : A -> bool) l i :
  findIndex p l = Some i ->
  exists x, nth_error l i = Some x /\ p x = true.
Proof.
  revert i. induction l as [|y l IH]; simpl; intros i; [discriminate|].
  destruct (p y) eqn:Hy.
  - intros [= <-]. exists y. now split.
  - destruct (findIndex p l) as [j|]; [|discriminate].
    intros [= <-]. simpl. now apply IH.
Qed.

Lemma findIndex_None {A : Type} (p : A -> bool) l :
  findIndex p l = None -> existsb p l = false.
Proof.
  induction l as [|y l IH]; simpl; [reflexivity|].
  destruct (p y); [discriminate|].
  destruct (findIndex p l); [discriminate|]. auto.
Qed.

Lemma setRole_users i r l : map member_user (setRole i r l) = map member_user l.
Proof.
  revert i. induction l as [|m l IH]; intros [|i]; simpl; try reflexivity.
  now rewrite IH.
Qed.

Lemma headCount_cons m l : headCount (m :: l) = (headBit m + headCount l)%nat.
Proof. unfold headCount, headBit; simpl. now destruct (String.eqb (role m) "head"). Qed.

Lemma headCount_setRole i r l m :
  nth_error l i = Some m ->
  (headCount (setRole i r l) + headBit m
   = headCount l + headBit (mkMember (member_user m) r))%nat.
Proof.
  revert i. induction l as [|x l IH]; intros [|i]; simpl; try discriminate.
  - intros [= ->]. rewrite !headCount_cons. lia.
  - intros Hn. rewrite !headCount_cons. specialize (IH i Hn). lia.
Qed.

Lemma headCount_removeAt i l m :
  nth_error l i = Some m ->
  (headCount (removeAt i l) + headBit m = headCount l)%nat.
Proof.
  revert i. induction l as [|x l IH]; intros [|i]; simpl; try discriminate.
  - intros [= ->]. rewrite headCount_cons. lia.
  - intros Hn. rewrite !headCount_cons. specialize (IH i Hn). lia.
Qed.

Lemma headCount_app l1 l2 : headCount (l1 ++ l2) = (headCount l1 + headCount l2)%nat.
Proof. unfold headCount. now rewrite filter_app, length_app. Qed.

Lemma headCount_zero l m : headCount l = 0%nat -> In m l -> headBit m = 0%nat.
Proof.
  induction l as [|x l IH]; simpl; [contradiction|].
  rewrite headCount_cons. intros H [<-|Hin]; [lia|]. apply IH; [lia|exact Hin].
Qed.

Lemma removeAt_In i l x : In x (removeAt i l) -> In x l.
Proof.
  revert i. induction l as [|y l IH]; intros [|i]; simpl; auto.
  intros [<-|H]; [now left|right; eauto].
Qed.

Lemma removeAt_users_NoDup i l :
  NoDup (map member_user l) -> NoDup (map member_user (removeAt i l)).
Proof.
  revert i. induction l as [|y l IH]; intros [|i]; simpl; auto;
    intros H; inversion H as [|? ? Hy Hl]; subst; auto.
  constructor; [|now apply IH].
  intros Hin. apply Hy. apply in_map_iff in Hin.
  destruct Hin as (x & Hx & Hin). apply removeAt_In in Hin.
  rewrite <- Hx. now apply in_map.
Qed.

Lemma updateFamily_ids f store :
  map fam_id (updateFamily f store) = map fam_id store.
Proof.
  induction store as [|x store IH]; simpl; [reflexivity|].
  destruct (String.eqb_spec (fam_id x) (fam_id f)) as [E|_]; simpl;
    [now rewrite E|now rewrite IH].
Qed.

Lemma updateFamily_codes f f0 store :
  NoDup (map fam_id store) -> In f0 store ->
  fam_id f = fam_id f0 -> inviteCode f = inviteCode f0 ->
  map inviteCode (updateFamily f store) = map inviteCode store.
Proof.
  intros Hnd Hin Hid Hcode.
  induction store as [|x store IH]; simpl; [reflexivity|].
  inversion Hnd as [|? ? Hx Hnd']; subst.
  destruct (String.eqb_spec (fam_id x) (fam_id f)) as [E|Hne]; simpl.
  - destruct Hin as [->|Hin]; [now rewrite Hcode|].
    exfalso. apply Hx. rewrite E, Hid. now apply in_map.
  - destruct Hin as [->|Hin]; [congruence|]. now rewrite IH.
Qed.

Lemma updateFamily_ok f store :
  familyOk f -> Forall familyOk store -> Forall familyOk (updateFamily f store).
Proof.
  intros Hf. induction 1 as [|x store Hx Hs IH]; simpl; [constructor|].
  destruct (String.eqb (fam_id x) (fam_id f)); constructor; auto.
Qed.

Lemma deleteFamily_sub id store x : In x (deleteFamily id store) -> In x store.
Proof.
  induction store as [|y store IH]; simpl; [auto|].
  destruct (String.eqb (fam_id y) id); [now right|].
  intros [<-|H]; [now left|right; auto].
Qed.

Lemma deleteFamily_NoDup {B : Type} (g : FamilyDoc -> B) id store :
  NoDup (map g store) -> NoDup (map g (deleteFamily id store)).
Proof.
  induction store as [|y store IH]; simpl; [auto|].
  intros H. inversion H as [|? ? Hy Hs]; subst.
  destruct (String.eqb (fam_id y) id); [exact Hs|]. simpl.
  constructor; [|now apply IH].
  intros Hin. apply Hy. apply in_map_iff in Hin.
  destruct Hin as (x & Hx & Hin). apply deleteFamily_sub in Hin.
  rewrite <- Hx. now apply in_map.
Qed.

Lemma NoDup_snoc {B : Type} (l : list B) x :
  NoDup l -> ~ In x l -> NoDup (l ++ [x]).
Proof.
  intros Hl Hx. apply NoDup_rev in Hl. rewrite <- (rev_involutive (l ++ [x])).
  apply NoDup_rev. rewrite rev_app_distr. simpl. constructor; [|exact Hl].
  now rewrite <- in_rev.
Qed.

Lemma find_In_ok (p : FamilyDoc -> bool) store f :
  Forall familyOk store -> find p store = Some f -> In f store /\ familyOk f.
Proof.
  intros Hok Hf. apply find_some in Hf. destruct Hf as [Hin _].
  split; [exact Hin|]. rewrite Forall_forall in Hok. now apply Hok.
Qed.

Lemma isMemberOf_false u f :
  isMemberOf u f = false -> ~ In u (map member_user (fam_members f)).
Proof.
  unfold isMemberOf. intros H Hin. apply in_map_iff in Hin.
  destruct Hin as (m & <- & Hm).
  assert (existsb (fun member => String.eqb (member_user member) (member_user m))
                  (fam_members f) = true).
  { apply existsb_exists. exists m. split; [exact Hm|apply String.eqb_refl]. }
  congruence.
Qed.

Lemma handleFamily_ok now r store :
  familiesOk store -> familiesOk (snd (handleFamily now r store)).
Proof.
  intros (Hids & Hcodes & Hok).
  destruct r as [newId newCode u name|u code|u id|u id v]; simpl.
  - unfold createFamily. destruct (String.eqb name ""); [now repeat split|].
    destruct (existsb _ store) eqn:Hex; [now repeat split|]. simpl.
    assert (Hfresh : ~ In newId (map fam_id store)
                     /\ ~ In newCode (map inviteCode store)).
    { split; intros Hin; apply in_map_iff in Hin;
        destruct Hin as (x & Hx & Hin);
        assert (existsb (fun f => String.eqb (fam_id f) newId
                                  || String.eqb (inviteCode f) newCode) store
                = true)
          by (apply existsb_exists; exists x; split; [exact Hin|];
              rewrite Hx, String.eqb_refl; auto using orb_true_r);
        congruence. }
    destruct Hfresh as [Hi Hc]. unfold familiesOk.
    rewrite !map_app. simpl. repeat split; try now apply NoDup_snoc.
    apply Forall_app. split; [exact Hok|]. constructor; [|constructor].
    split; simpl; [repeat constructor; auto|reflexivity].
  - unfold joinFamily. destruct (String.eqb code ""); [now repeat split|].
    destruct (find _ store) as [f|] eqn:Hf; [|now repeat split].
    destruct (isMemberOf u f) eqn:Hm; [now repeat split|]. simpl.
    destruct (find_In_ok _ _ _ Hok Hf) as [Hin [Hu Hh]].
    unfold familiesOk. rewrite updateFamily_ids.
    rewrite (updateFamily_codes _ f) by (auto || reflexivity).
    repeat split; auto. apply updateFamily_ok; [|exact Hok].
    split; simpl.
    + rewrite map_app. simpl. apply NoDup_snoc; [exact Hu|].
      now apply isMemberOf_false.
    + rewrite headCount_app, Hh. reflexivity.
  - unfold leaveFamily, findFamily.
    destruct (find _ store) as [f|] eqn:Hf; [|now repeat split].
    destruct (findIndex _ (fam_members f)) as [i|] eqn:Hi; [|now repeat split].
    destruct (find_In_ok _ _ _ Hok Hf) as [Hin [Hu Hh]].
    destruct (findIndex_Some _ _ _ Hi) as (m & Hm & _). rewrite Hm.
    destruct (String.eqb (role m) "head"
              && Nat.ltb 1 (List.length (fam_members f))) eqn:H1;
      [now repeat split|].
    destruct (String.eqb (role m) "head"
              && Nat.eqb (List.length (fam_members f)) 1) eqn:H2; simpl.
    + repeat split; try now apply deleteFamily_NoDup.
      apply Forall_forall. intros x Hx. apply deleteFamily_sub in Hx.
      rewrite Forall_forall in Hok. now apply Hok.
    + unfold familiesOk. rewrite updateFamily_ids.
      rewrite (updateFamily_codes _ f) by (auto || reflexivity).
      repeat split; auto. apply updateFamily_ok; [|exact Hok].
      split; simpl; [now apply removeAt_users_NoDup|].
      pose proof (headCount_removeAt i _ m Hm) as Hc.
      assert (Hb : headBit m = 0%nat).
      { unfold headBit. destruct (String.eqb (role m) "head"); [|reflexivity].
        simpl in H1, H2. apply Nat.ltb_ge in H1. apply Nat.eqb_neq in H2.
        assert (List.length (fam_members f) <> 0%nat)
          by (intros E; apply length_zero_iff_nil in E; rewrite E in Hm;
              destruct i; discriminate).
        lia. }
      lia.
  - unfold transferOwnership, findFamily.
    destruct (String.eqb v ""); [now repeat split|].
    destruct (find _ store) as [f|] eqn:Hf; [|now repeat split].
    destruct (findIndex _ (fam_members f)) as [i|] eqn:Hi; [|now repeat split].
    destruct (findIndex (fun member => String.eqb (member_user member) v)
                        (fam_members f)) as [j|] eqn:Hj;
      [|now repeat split]. simpl.
    destruct (find_In_ok _ _ _ Hok Hf) as [Hin [Hu Hh]].
    destruct (findIndex_Some _ _ _ Hi) as (m & Hm & Hpm).
    destruct (findIndex_Some _ _ _ Hj) as (m' & Hm' & _).
    unfold familiesOk. rewrite updateFamily_ids.
    rewrite (updateFamily_codes _ f) by (auto || reflexivity).
    repeat split; auto. apply updateFamily_ok; [|exact Hok].
    split; simpl; [now rewrite !setRole_users|].
    apply andb_true_iff in Hpm. destruct Hpm as [_ Hrole].
    pose proof (headCount_setRole i "member" _ m Hm) as H1.
    unfold headBit at 1 2 in H1. rewrite Hrole in H1. simpl in H1.
    assert (H0 : headCount (setRole i "member" (fam_members f)) = 0%nat) by lia.
    destruct (nth_error (setRole i "member" (fam_members f)) j) as [m1|] eqn:Hm1.
    + pose proof (headCount_setRole j "head" _ m1 Hm1) as H2.
      pose proof (headCount_zero _ m1 H0 (nth_error_In _ _ Hm1)) as Hb.
      unfold headBit at 2 in H2. simpl in H2. lia.
    + exfalso. apply nth_error_None in Hm1.
      assert (List.length (setRole i "member" (fam_members f))
              = List.length (fam_members f)).
      { rewrite <- (length_map member_user), setRole_users. apply length_map. }
      assert (j < List.length (fam_members f))%nat
        by (apply nth_error_Some; congruence).
      lia.
Qed.

(** X21: the family routes keep the family collection well formed: family
    identifiers and invite codes stay distinct, no user is a member of a
    family twice, and every family has exactly one head, after any sequence
    of create, join, leave and transfer-ownership requests. *)
Theorem families_stay_well_formed (store store' : list FamilyDoc) :
  familiesOk store -> familyReachable store store' -> familiesOk store'.
Proof.
  intros Hok. induction 1 as [|store' now r _ IH]; [exact Hok|].
  now apply handleFamily_ok.
Qed.

Lemma families_stay_well_formed_witness :
  familiesOk
    (snd (handleFamily 3 (Transfer "A" "f1" "B")
            (snd (handleFamily 2 (Join "B" "code1")
                    (snd (handleFamily 1 (Create "f1" "code1" "A" "Home") [])))))).
Proof.
  apply (families_stay_well_formed []).
  - repeat split; constructor.
  - apply family_request, family_request, family_request, family_here.
Defined.
Lemma find_existsb {A : Type} (p : A -> bool) l :
  match find p l with Some _ => true | None => false end = existsb p l.
Proof.
  induction l as [|x l IH]; simpl; [reflexivity|]. now destruct (p x).
Qed.

Lemma find_toFamily id store :
  find (fun f => String.eqb (family_id f) id) (map toFamily store)
  = option_map toFamily (findFamily id store).
Proof.
  unfold findFamily. induction store as [|x store IH]; simpl; [reflexivity|].
  now destruct (String.eqb (fam_id x) id).
Qed.

Lemma isFamilyHead_asDb u id store :
  isFamilyHead u id (asDb store)
  = match findFamily id store with
    | Some f => headIn u (fam_members f)
    | None => false
    end.
Proof.
  unfold isFamilyHead, asDb; simpl. rewrite find_toFamily.
  destruct (findFamily id store) as [f|]; simpl; [|reflexivity].
  apply find_existsb.
Qed.

Lemma isFamilyMember_asDb u id store :
  isFamilyMember u id (asDb store)
  = match findFamily id store with
    | Some f => isMemberOf u f
    | None => false
    end.
Proof.
  unfold isFamilyMember, asDb; simpl. rewrite find_toFamily.
  now destruct (findFamily id store).
Qed.

Lemma headIn_spec u l :
  headIn u l = true
  <-> exists m, In m l /\ role m = "head" /\ member_user m = u.
Proof.
  unfold headIn. rewrite existsb_exists. split.
  - intros (m & Hm & H). apply andb_true_iff in H.
    rewrite !String.eqb_eq in H. exists m. tauto.
  - intros (m & Hm & Hr & Hu). exists m. split; [exact Hm|].
    now rewrite Hr, Hu, !String.eqb_refl.
Qed.

Lemma single_head l m m' :
  headCount l = 1%nat -> In m l -> In m' l ->
  role m = "head" -> role m' = "head" -> m = m'.
Proof.
  induction l as [|x l IH]; simpl; [contradiction|].
  rewrite headCount_cons. intros Hc Hm Hm' Hr Hr'.
  assert (Hb : forall y, role y = "head" -> headBit y = 1%nat)
    by (intros y Hy; unfold headBit; now rewrite Hy).
  destruct Hm as [->|Hm], Hm' as [->|Hm']; auto.
  - pose proof (Hb _ Hr). assert (H0 : headCount l = 0%nat) by lia.
    pose proof (headCount_zero _ _ H0 Hm'). rewrite (Hb _ Hr') in *. lia.
  - pose proof (Hb _ Hr'). assert (H0 : headCount l = 0%nat) by lia.
    pose proof (headCount_zero _ _ H0 Hm). rewrite (Hb _ Hr) in *. lia.
  - destruct (String.eqb (role x) "head") eqn:Hx.
    + assert (headBit x = 1%nat) by (unfold headBit; now rewrite Hx).
      assert (H0 : headCount l = 0%nat) by lia.
      pose proof (headCount_zero _ _ H0 Hm). rewrite (Hb _ Hr) in *. lia.
    + assert (headBit x = 0%nat) by (unfold headBit; now rewrite Hx).
      apply IH; auto. lia.
Qed.

Lemma some_head l : headCount l = 1%nat -> exists m, In m l /\ role m = "head".
Proof.
  induction l as [|x l IH]; [discriminate|].
  rewrite headCount_cons. unfold headBit.
  destruct (String.eqb_spec (role x) "head") as [Hx|_].
  - intros _. exists x. split; [now left|exact Hx].
  - intros H. destruct (IH H) as (m & Hm & Hr). exists m. split; [now right|exact Hr].
Qed.

Lemma findFamily_ok id store f :
  familiesOk store -> findFamily id store = Some f ->
  In f store /\ familyOk f /\ fam_id f = id.
Proof.
  intros (_ & _ & Hok) Hf. unfold findFamily in Hf.
  pose proof (find_some _ _ Hf) as [Hin Hid]. apply String.eqb_eq in Hid.
  rewrite Forall_forall in Hok.
  split; [exact Hin|]. split; [now apply Hok|exact Hid].
Qed.

Lemma one_head (store : list FamilyDoc) (id : string) (f : FamilyDoc) :
  familiesOk store ->
  findFamily id store = Some f ->
  exists head,
    isFamilyHead head id (asDb store) = true
    /\ forall u, isFamilyHead u id (asDb store) = true -> u = head.
Proof.
  intros Hok Hf. destruct (findFamily_ok _ _ _ Hok Hf) as (_ & [Hu Hh] & _).
  destruct (some_head _ Hh) as (m & Hm & Hr).
  exists (member_user m). rewrite isFamilyHead_asDb, Hf. split.
  - apply headIn_spec. now exists m.
  - intros u. rewrite isFamilyHead_asDb, Hf, headIn_spec.
    intros (m' & Hm' & Hr' & <-).
    now rewrite (single_head _ m m' Hh Hm Hm' Hr Hr').
Qed.

(** X22: every family has exactly one head.  In a well-formed family
    collection, for every family that exists, exactly one user passes the
    head check that gates the settlement and the finalization of the
    family's records. *)
Theorem exactly_one_head (store : list FamilyDoc) (id : string) (f : FamilyDoc) :
  familiesOk store ->
  findFamily id store = Some f ->
  exists head,
    isFamilyHead head id (asDb store) = true
    /\ forall u, isFamilyHead u id (asDb store) = true -> u = head.
Proof. apply one_head. Qed.

Lemma exactly_one_head_witness :
  exists head,
    isFamilyHead head "f1"
      (asDb [mkFamilyDoc "f1" "Home" "code1"
               [mkMember "A" "member"; mkMember "B" "head"] 3]) = true
    /\ forall u,
         isFamilyHead u "f1"
           (asDb [mkFamilyDoc "f1" "Home" "code1"
                    [mkMember "A" "member"; mkMember "B" "head"] 3]) = true ->
         u = head.
Proof.
  apply (exactly_one_head _ "f1"
           (mkFamilyDoc "f1" "Home" "code1"
              [mkMember "A" "member"; mkMember "B" "head"] 3)).
  - repeat split; repeat constructor; simpl; intuition discriminate.
  - reflexivity.
Defined.

Lemma findFamily_update_same id store f f' :
  findFamily id store = Some f -> fam_id f' = id ->
  findFamily id (updateFamily f' store) = Some f'.
Proof.
  unfold findFamily. intros H Hid.
  induction store as [|x store IH]; simpl in *; [discriminate|].
  rewrite Hid. destruct (String.eqb (fam_id x) id) eqn:Hx; simpl.
  - now rewrite Hid, String.eqb_refl.
  - rewrite Hx. auto.
Qed.

Lemma nth_error_setRole_same i r l m :
  nth_error l i = Some m ->
  nth_error (setRole i r l) i = Some (mkMember (member_user m) r).
Proof.
  revert i. induction l as [|x l IH]; intros [|i]; simpl; try discriminate.
  - now intros [= ->].
  - apply IH.
Qed.

Lemma nth_error_setRole_user i r l j m :
  nth_error l j = Some m ->
  exists m1, nth_error (setRole i r l) j = Some m1
             /\ member_user m1 = member_user m.
Proof.
  revert i j. induction l as [|x l IH]; intros [|i] [|j]; simpl;
    try discriminate; eauto.
  intros [= ->]. eauto.
Qed.

Lemma isMemberOf_users u f f' :
  map member_user (fam_members f') = map member_user (fam_members f) ->
  isMemberOf u f' = isMemberOf u f.
Proof.
  unfold isMemberOf. intros H.
  assert (E : forall l, existsb (fun member => String.eqb (member_user member) u) l
                        = existsb (fun x => String.eqb x u) (map member_user l)).
  { induction l as [|x l IH]; simpl; [reflexivity|]. now rewrite IH. }
  now rewrite !E, H.
Qed.

(** X23: a transfer of ownership, which only the head can request, makes the
    named member the head: afterwards the new head passes the head check,
    nobody else does, and the members of the family are the same. *)
Theorem transfer_moves_headship now userId id newHeadId store f' store' :
  familiesOk store ->
  transferOwnership now userId id newHeadId store = (FamilyJson f', store') ->
  isFamilyHead userId id (asDb store) = true
  /\ isFamilyHead newHeadId id (asDb store') = true
  /\ (forall u, isFamilyHead u id (asDb store') = true -> u = newHeadId)
  /\ (forall u, isFamilyMember u id (asDb store')
                = isFamilyMember u id (asDb store)).
Proof.
  intros Hok Ht.
  pose proof (handleFamily_ok now (Transfer userId id newHeadId) store Hok)
    as Hok'. simpl in Hok'. rewrite Ht in Hok'. simpl in Hok'.
  unfold transferOwnership in Ht.
  destruct (String.eqb newHeadId ""); [discriminate|].
  destruct (findFamily id store) as [f|] eqn:Hf; [|discriminate].
  destruct (findIndex _ (fam_members f)) as [i|] eqn:Hi; [|discriminate].
  destruct (findIndex (fun member => String.eqb (member_user member) newHeadId)
                      (fam_members f)) as [j|] eqn:Hj; [|discriminate].
  injection Ht as <- <-.
  destruct (findFamily_ok _ _ _ Hok Hf) as (_ & _ & Hid).
  destruct (findIndex_Some _ _ _ Hi) as (m & Hm & Hpm).
  destruct (findIndex_Some _ _ _ Hj) as (m' & Hm' & Hpm').
  apply andb_true_iff in Hpm. destruct Hpm as [Hmu Hmr].
  apply String.eqb_eq in Hmu, Hmr, Hpm'.
  set (f' := mkFamilyDoc (fam_id f) (fam_name f) (inviteCode f)
               (setRole j "head" (setRole i "member" (fam_members f))) now) in *.
  assert (Hf' : findFamily id (updateFamily f' store) = Some f')
    by (apply (findFamily_update_same id store f); auto).
  assert (Hnew : isFamilyHead newHeadId id (asDb (updateFamily f' store)) = true).
  { rewrite isFamilyHead_asDb, Hf'. apply headIn_spec.
    destruct (nth_error_setRole_user i "member" _ j m' Hm') as (m1 & Hm1 & Hu1).
    exists (mkMember (member_user m1) "head"). repeat split.
    - eapply nth_error_In. apply nth_error_setRole_same. exact Hm1.
    - simpl. congruence. }
  split; [|split; [exact Hnew|split]].
  - rewrite isFamilyHead_asDb, Hf. apply headIn_spec. exists m.
    repeat split; auto. eapply nth_error_In; eauto.
  - intros u Hu.
    destruct (one_head _ id f' Hok' Hf') as (h & _ & Huniq).
    rewrite (Huniq u Hu). symmetry. now apply Huniq.
  - intros u. rewrite !isFamilyMember_asDb, Hf, Hf'.
    apply isMemberOf_users. simpl. now rewrite !setRole_users.
Qed.

Lemma transfer_moves_headship_witness :
  isFamilyHead "B" "f1"
    (asDb (snd (transferOwnership 5 "A" "f1" "B" homeStore)))
  = true
  /\ isFamilyHead "A" "f1" (asDb homeStore) = true.
Proof.
  edestruct (transfer_moves_headship 5 "A" "f1" "B" homeStore)
    as (H1 & H2 & _).
  - repeat split; repeat constructor; simpl; intuition discriminate.
  - reflexivity.
  - split; [exact H2|exact H1].
Defined.

Lemma findFamily_delete id store :
  NoDup (map fam_id store) -> findFamily id (deleteFamily id store) = None.
Proof.
  unfold findFamily. induction store as [|x store IH]; simpl; [reflexivity|].
  intros H. inversion H as [|? ? Hx Hs]; subst.
  destruct (String.eqb_spec (fam_id x) id) as [E|Hne].
  - destruct (find _ store) as [y|] eqn:Hy; [|reflexivity].
    apply find_some in Hy. destruct Hy as [Hin Hid].
    apply String.eqb_eq in Hid. exfalso. apply Hx.
    rewrite E, <- Hid. now apply in_map.
  - simpl. destruct (String.eqb_spec (fam_id x) id); [contradiction|auto].
Qed.

Lemma removeAt_not_member i l m :
  NoDup (map member_user l) -> nth_error l i = Some m ->
  ~ In (member_user m) (map member_user (removeAt i l)).
Proof.
  revert i. induction l as [|x l IH]; intros [|i]; simpl; try discriminate;
    intros H; inversion H as [|? ? Hx Hl]; subst.
  - now intros [= ->].
  - intros Hn [E|Hin]; [|now apply (IH i Hl Hn)].
    apply Hx. rewrite E. apply in_map. eapply nth_error_In; eauto.
Qed.

Lemma removeAt_others i l m u :
  nth_error l i = Some m -> u <> member_user m ->
  (In u (map member_user (removeAt i l)) <-> In u (map member_user l)).
Proof.
  revert i. induction l as [|x l IH]; intros [|i]; simpl; try discriminate.
  - intros [= ->] Hu. split; [now right|]. intros [E|H]; [congruence|exact H].
  - intros Hn Hu. rewrite (IH i Hn Hu). reflexivity.
Qed.

Lemma isMemberOf_In u f :
  isMemberOf u f = true <-> In u (map member_user (fam_members f)).
Proof.
  unfold isMemberOf. rewrite existsb_exists, in_map_iff. split.
  - intros (m & Hm & E). apply String.eqb_eq in E. eauto.
  - intros (m & E & Hm). exists m. split; [exact Hm|]. now apply String.eqb_eq.
Qed.

(** The member with a given user of a family without duplicate users. *)
Lemma headIn_member u l i m :
  NoDup (map member_user l) -> nth_error l i = Some m -> member_user m = u ->
  headIn u l = String.eqb (role m) "head".
Proof.
  intros Hnd Hn Hu. destruct (String.eqb (role m) "head") eqn:Hr.
  - apply headIn_spec. exists m. apply String.eqb_eq in Hr.
    repeat split; auto. eapply nth_error_In; eauto.
  - apply not_true_iff_false. rewrite headIn_spec.
    intros (m' & Hm' & Hr' & Hu').
    assert (m' = m); [|subst m'; rewrite Hr', String.eqb_refl in Hr; discriminate].
    apply In_nth_error in Hm'. destruct Hm' as [j Hj].
    assert (i = j).
    { apply (proj1 (NoDup_nth_error (map member_user l)) Hnd).
      - rewrite length_map. apply nth_error_Some. congruence.
      - rewrite !nth_error_map, Hn, Hj. simpl. congruence. }
    subst j. congruence.
Qed.

(** X24: leaving a family.  A member who is not the head is removed and the
    other members stay; the head cannot leave while there are other members
    (nothing changes); a head who is the only member takes the family with
    them. *)
Theorem leave_family_behaviour now userId id store f :
  familiesOk store ->
  findFamily id store = Some f ->
  isMemberOf userId f = true ->
  let store' := snd (leaveFamily now userId id store) in
  (isFamilyHead userId id (asDb store) = false ->
   exists f',
     findFamily id store' = Some f'
     /\ isMemberOf userId f' = false
     /\ forall u, u <> userId -> isMemberOf u f' = isMemberOf u f)
  /\ (isFamilyHead userId id (asDb store) = true ->
      (1 < List.length (fam_members f))%nat ->
      leaveFamily now userId id store
      = (FamilyStatus 400
           "Head of family cannot leave. Transfer ownership to another member first or remove all other members.",
         store))
  /\ (isFamilyHead userId id (asDb store) = true ->
      List.length (fam_members f) = 1%nat ->
      findFamily id store' = None).
Proof.
  intros Hok Hf Hmem store'.
  destruct (findFamily_ok _ _ _ Hok Hf) as (_ & [Hu Hh] & Hid).
  destruct Hok as (Hids & _ & _).
  rewrite isFamilyHead_asDb, Hf. unfold store', leaveFamily. rewrite Hf.
  destruct (findIndex _ (fam_members f)) as [i|] eqn:Hi.
  2:{ apply findIndex_None in Hi. unfold isMemberOf in Hmem. congruence. }
  destruct (findIndex_Some _ _ _ Hi) as (m & Hm & Hpm).
  apply String.eqb_eq in Hpm. rewrite Hm.
  rewrite (headIn_member userId _ i m Hu Hm Hpm).
  split; [|split].
  - intros Hr. rewrite Hr. simpl. eexists. split.
    + apply (findFamily_update_same id store f); auto.
    + simpl. split.
      * apply not_true_iff_false. rewrite isMemberOf_In. simpl.
        rewrite <- Hpm. now apply removeAt_not_member.
      * intros u Hne.
        destruct (isMemberOf u f) eqn:E.
        -- apply isMemberOf_In. simpl. apply isMemberOf_In in E.
           apply (removeAt_others i _ m u Hm); congruence.
        -- apply not_true_iff_false. rewrite isMemberOf_In. simpl.
           intros Hin. apply (removeAt_others i _ m u Hm) in Hin; [|congruence].
           apply isMemberOf_In in Hin. congruence.
  - intros Hr Hlen. rewrite Hr. simpl.
    now replace (Nat.ltb 1 (List.length (fam_members f))) with true
      by (symmetry; now apply Nat.ltb_lt).
  - intros Hr Hlen. rewrite Hr, Hlen. simpl. now apply findFamily_delete.
Qed.

Lemma leave_family_behaviour_witness :
  exists f',
    findFamily "f1" (snd (leaveFamily 5 "B" "f1" homeStore)) = Some f'
    /\ isMemberOf "B" f' = false.
Proof.
  destruct (leave_family_behaviour 5 "B" "f1" homeStore
              (mkFamilyDoc "f1" "Home" "code1"
                 [mkMember "A" "head"; mkMember "B" "member"] 3))
    as (H & _ & _).
  - repeat split; repeat constructor; simpl; intuition discriminate.
  - reflexivity.
  - reflexivity.
  - destruct (H eq_refl) as (f' & H1 & H2 & _). exists f'. now split.
Defined.

Lemma find_code_update code store f f' :
  NoDup (map fam_id store) ->
  find (fun x => String.eqb (inviteCode x) code) store = Some f ->
  fam_id f' = fam_id f -> inviteCode f' = code ->
  find (fun x => String.eqb (inviteCode x) code) (updateFamily f' store)
  = Some f'.
Proof.
  intros Hnd Hf Hid Hcode.
  induction store as [|x store IH]; simpl in *; [discriminate|].
  inversion Hnd as [|? ? Hx Hs]; subst.
  destruct (String.eqb (inviteCode x) (inviteCode f')) eqn:Hc.
  - injection Hf as ->. rewrite Hid, String.eqb_refl. simpl.
    now rewrite String.eqb_refl.
  - destruct (String.eqb_spec (fam_id x) (fam_id f')) as [E|Hne].
    + exfalso. apply Hx. rewrite E, Hid. apply in_map.
      apply find_some in Hf. tauto.
    + simpl. rewrite Hc. auto.
Qed.

(** X25: joining a family by invite code.  The user becomes a member with
    the role "member" and not head, the family is stored with the other
    members as they were, and the same request repeated is rejected as
    already a member and changes nothing. *)
Theorem join_family_behaviour now userId code store f' store' :
  familiesOk store ->
  joinFamily now userId code store = (FamilyJson f', store') ->
  findFamily (fam_id f') store' = Some f'
  /\ (exists f,
         findFamily (fam_id f') store = Some f
         /\ isMemberOf userId f = false
         /\ fam_members f' = fam_members f ++ [mkMember userId "member"])
  /\ isFamilyMember userId (fam_id f') (asDb store') = true
  /\ isFamilyHead userId (fam_id f') (asDb store') = false
  /\ forall now',
       joinFamily now' userId code store'
       = (FamilyStatus 400 "You are already a member of this family", store').
Proof.
  intros Hok Hj. unfold joinFamily in Hj.
  destruct (String.eqb code "") eqn:Hc; [discriminate|].
  destruct (find _ store) as [f|] eqn:Hf; [|discriminate].
  destruct (isMemberOf userId f) eqn:Hm; [discriminate|].
  injection Hj as <- <-.
  destruct Hok as (Hids & Hcodes & Hall).
  pose proof (find_some _ _ Hf) as [Hin Hcode]. apply String.eqb_eq in Hcode.
  set (f' := mkFamilyDoc (fam_id f) (fam_name f) (inviteCode f)
               (fam_members f ++ [mkMember userId "member"]) now) in *.
  assert (Hfind : findFamily (fam_id f) store = Some f).
  { unfold findFamily. clear -Hids Hin.
    induction store as [|x store IH]; simpl in *; [contradiction|].
    inversion Hids as [|? ? Hx Hs]; subst.
    destruct (String.eqb_spec (fam_id x) (fam_id f)) as [E|Hne].
    - destruct Hin as [->|Hin]; [reflexivity|].
      exfalso. apply Hx. rewrite E. now apply in_map.
    - destruct Hin as [->|Hin]; [congruence|auto]. }
  assert (Hf' : findFamily (fam_id f') (updateFamily f' store) = Some f')
    by (apply (findFamily_update_same _ store f); auto).
  assert (Hmem' : isMemberOf userId f' = true).
  { unfold isMemberOf, f'. simpl. rewrite existsb_app. simpl.
    rewrite String.eqb_refl. auto using orb_true_r. }
  split; [exact Hf'|]. split; [exists f; auto|]. split; [|split].
  - now rewrite isFamilyMember_asDb, Hf'.
  - rewrite isFamilyHead_asDb, Hf'. apply not_true_iff_false.
    rewrite headIn_spec. simpl. intros (m & Hm' & Hr & Hu).
    apply in_app_or in Hm'. destruct Hm' as [Hm'|[<-|[]]]; [|discriminate].
    apply isMemberOf_false in Hm. apply Hm. rewrite <- Hu. now apply in_map.
  - intros now'. unfold joinFamily. rewrite Hc.
    rewrite (find_code_update code store f f') by auto.
    now rewrite Hmem'.
Qed.

Lemma join_family_behaviour_witness :
  joinFamily 7 "B" "code1"
    (snd (joinFamily 5 "B" "code1"
            [mkFamilyDoc "f1" "Home" "code1" [mkMember "A" "head"] 3]))
  = (FamilyStatus 400 "You are already a member of this family",
     snd (joinFamily 5 "B" "code1"
            [mkFamilyDoc "f1" "Home" "code1" [mkMember "A" "head"] 3])).
Proof.
  edestruct (join_family_behaviour 5 "B" "code1"
               [mkFamilyDoc "f1" "Home" "code1" [mkMember "A" "head"] 3])
    as (_ & _ & _ & _ & H).
  - repeat split; repeat constructor; simpl; intuition discriminate.
  - reflexivity.
  - apply H.
Defined.

(** *** Updating an expense *)



(** * Double precision *)

(** ** The binary64 format *)

Local Open Scope Z_scope.

Lemma digits2_pos_bounds p :
  2 ^ (Zpos (digits2_pos p) - 1) <= Zpos p < 2 ^ Zpos (digits2_pos p).
Proof.
  induction p as [p IH|p IH|]; cbn [digits2_pos].
  - rewrite Pos2Z.inj_succ, Z.pow_succ_r by lia.
    replace (Z.succ (Zpos (digits2_pos p)) - 1) with (Z.succ (Zpos (digits2_pos p) - 1)) by lia.
    rewrite Z.pow_succ_r by lia. lia.
  - rewrite Pos2Z.inj_succ, Z.pow_succ_r by lia.
    replace (Z.succ (Zpos (digits2_pos p)) - 1) with (Z.succ (Zpos (digits2_pos p) - 1)) by lia.
    rewrite Z.pow_succ_r by lia. lia.
  - simpl. lia.
Qed.

Lemma Zdigits2_le m k : 0 < m -> 0 <= k -> m < 2 ^ k -> Zdigits2 m <= k.
Proof.
  intros Hm Hk Hlt. destruct m as [|p|p]; try lia. cbn [Zdigits2].
  destruct (digits2_pos_bounds p) as [Hlo _].
  destruct (Z_le_gt_dec (Zpos (digits2_pos p)) k) as [|Hgt]; [assumption|].
  assert (2 ^ k <= 2 ^ (Zpos (digits2_pos p) - 1)) by (apply Z.pow_le_mono_r; lia).
  lia.
Qed.

Lemma fexp64_mono a b : a <= b -> fexp64 a <= fexp64 b.
Proof. unfold fexp64, SpecFloat.fexp, SpecFloat.emin. lia. Qed.

Lemma iter_pos_nat {A : Type} (f : A -> A) n : forall x,
  iter_pos f n x = Nat.iter (Pos.to_nat n) f x.
Proof.
  induction n as [n IH|n IH|]; intros x; cbn [iter_pos].
  - rewrite !IH, Pos2Nat.inj_xI, <- Nat.iter_add.
    replace (S (2 * Pos.to_nat n))%nat with (Pos.to_nat n + Pos.to_nat n + 1)%nat by lia.
    rewrite (Nat.iter_add (Pos.to_nat n + Pos.to_nat n) 1). reflexivity.
  - rewrite !IH, Pos2Nat.inj_xO, <- Nat.iter_add.
    f_equal. lia.
  - reflexivity.
Qed.

Lemma shr_m_shr_1 r : 0 <= shr_m r -> shr_m (shr_1 r) = shr_m r / 2.
Proof.
  destruct r as [m r s]. cbn [shr_m]. intros Hm.
  destruct m as [|[p|p|]|p]; cbn [shr_1 shr_m]; try reflexivity; try lia.
  - rewrite Pos2Z.inj_xI. apply Z.div_unique with 1; lia.
  - rewrite Pos2Z.inj_xO. apply Z.div_unique with 0; lia.
Qed.

Lemma shr_m_iter n : forall r,
  0 <= shr_m r -> shr_m (Nat.iter n shr_1 r) = shr_m r / 2 ^ Z.of_nat n.
Proof.
  induction n as [|n IH]; intros r Hr.
  - simpl. now rewrite Z.div_1_r.
  - rewrite Nat.iter_succ_r.
    assert (H1 : shr_m (shr_1 r) = shr_m r / 2) by now apply shr_m_shr_1.
    rewrite IH by (rewrite H1; apply Z.div_pos; lia).
    rewrite H1, Nat2Z.inj_succ, Z.pow_succ_r, Z.div_div by lia. reflexivity.
Qed.

Lemma shr_1_even m : 0 <= m -> m mod 2 = 0 ->
  shr_1 (Build_shr_record m false false) = Build_shr_record (m / 2) false false.
Proof.
  intros Hm Hev. destruct m as [|[p|p|]|p]; try lia; try reflexivity;
    try discriminate.
  - exfalso. rewrite Pos2Z.inj_xI in Hev.
    rewrite Z.add_comm, Z.mul_comm, Z.mod_add in Hev by lia. discriminate.
  - cbn [shr_1 orb]. f_equal. rewrite Pos2Z.inj_xO. apply Z.div_unique with 0; lia.
Qed.

Lemma shr_iter_exact n : forall m,
  0 <= m -> m mod 2 ^ Z.of_nat n = 0 ->
  Nat.iter n shr_1 (Build_shr_record m false false)
  = Build_shr_record (m / 2 ^ Z.of_nat n) false false.
Proof.
  induction n as [|n IH]; intros m Hm Hmod.
  - simpl. now rewrite Z.div_1_r.
  - rewrite Nat2Z.inj_succ, Z.pow_succ_r in * by lia.
    assert (Hdiv : m = 2 * (2 ^ Z.of_nat n * (m / (2 * 2 ^ Z.of_nat n)))).
    { pose proof (Z.div_mod m (2 * 2 ^ Z.of_nat n)) as E.
      assert (0 < 2 ^ Z.of_nat n) by (apply Z.pow_pos_nonneg; lia).
      rewrite Hmod in E. lia. }
    set (k := m / (2 * 2 ^ Z.of_nat n)) in *.
    assert (Hpow : 0 < 2 ^ Z.of_nat n) by (apply Z.pow_pos_nonneg; lia).
    assert (Hhalf : m / 2 = 2 ^ Z.of_nat n * k).
    { symmetry. apply Z.div_unique with 0; lia. }
    rewrite Nat.iter_succ_r, shr_1_even; [|assumption|].
    + rewrite IH.
      * f_equal. rewrite Hhalf. rewrite Z.mul_comm, Z.div_mul by lia. reflexivity.
      * apply Z.div_pos; lia.
      * rewrite Hhalf, Z.mul_comm. apply Z.mod_mul. lia.
    + rewrite Hdiv, Z.mul_comm. apply Z.mod_mul. lia.
Qed.

Lemma shr_m_of_loc m l : shr_m (shr_record_of_loc m l) = m.
Proof. now destruct l as [|[]]. Qed.

Lemma shr_fexp_spec m e l :
  0 <= m ->
  let n := Z.max 0 (fexp64 (Zdigits2 m + e) - e) in
  shr_m (fst (shr_fexp prec emax m e l)) = m / 2 ^ n
  /\ snd (shr_fexp prec emax m e l) = e + n
  /\ (l = loc_Exact -> m mod 2 ^ n = 0 ->
      loc_of_shr_record (fst (shr_fexp prec emax m e l)) = loc_Exact).
Proof.
  intros Hm n. unfold shr_fexp, shr. subst n. fold fexp64.
  destruct (fexp64 (Zdigits2 m + e) - e) as [|p|p] eqn:En.
  - cbn [fst snd]. rewrite shr_m_of_loc, Z.max_id. change (2 ^ 0) with 1.
    rewrite Z.div_1_r, Z.add_0_r. repeat split. now intros ->.
  - cbn [fst snd]. rewrite iter_pos_nat.
    rewrite Z.max_r by lia.
    rewrite shr_m_iter by (rewrite shr_m_of_loc; assumption).
    rewrite shr_m_of_loc, positive_nat_Z. repeat split.
    intros -> Hmod. cbn [shr_record_of_loc].
    rewrite <- (positive_nat_Z p) in Hmod.
    now rewrite (shr_iter_exact _ _ Hm Hmod).
  - cbn [fst snd]. rewrite shr_m_of_loc, Z.max_l by lia. change (2 ^ 0) with 1.
    rewrite Z.div_1_r, Z.add_0_r. repeat split. now intros ->.
Qed.

Lemma round_nearest_even_bounds m l :
  m <= round_nearest_even m l <= m + 1.
Proof. destruct l as [|[]]; cbn [round_nearest_even]; try lia. destruct (Z.even m); lia. Qed.

Lemma bounded64_spec m e :
  bounded64 m e = true ->
  fexp64 (Zpos (digits2_pos m) + e) = e /\ e <= emax - prec.
Proof.
  unfold bounded64, bounded, canonical_mantissa. fold fexp64.
  rewrite andb_true_iff, Z.eqb_eq, Z.leb_le. tauto.
Qed.

Lemma pow2_pos k : 0 <= k -> 0 < 2 ^ k.
Proof. intros. apply Z.pow_pos_nonneg; lia. Qed.

Lemma round_aux_no_overflow s mz ez m0 e0 :
  bounded64 m0 e0 = true ->
  ez <= e0 ->
  0 < mz <= Zpos m0 * 2 ^ (e0 - ez) ->
  SFfinite (binary_round_aux prec emax s mz ez loc_Exact) = true.
Proof.
  intros Hb Hez [Hpos Hle].
  destruct (bounded64_spec _ _ Hb) as [Hcan Hmax].
  destruct (digits2_pos_bounds m0) as [_ Hm0].
  set (d0 := Zpos (digits2_pos m0)) in *.
  assert (Hd0 : 0 < d0) by (unfold d0; lia).
  (* the position of the value is at most that of the bound *)
  assert (HP : Zdigits2 mz + ez <= d0 + e0).
  { assert (Zdigits2 mz <= d0 + e0 - ez); [|lia].
    apply Zdigits2_le; [assumption|lia|].
    replace (d0 + e0 - ez) with (d0 + (e0 - ez)) by lia.
    rewrite Z.pow_add_r by lia.
    assert (0 < 2 ^ (e0 - ez)) by (apply pow2_pos; lia). nia. }
  unfold binary_round_aux.
  destruct (shr_fexp_spec mz ez loc_Exact) as (Hm1 & He1 & Hx1); [lia|].
  destruct (shr_fexp prec emax mz ez loc_Exact) as [mrs1 e1]. cbn [fst snd] in *.
  set (n := Z.max 0 (fexp64 (Zdigits2 mz + ez) - ez)) in *.
  assert (Hn : 0 <= n) by (unfold n; lia).
  assert (He1' : e1 <= e0).
  { rewrite He1. unfold n. pose proof (fexp64_mono _ _ HP). lia. }
  set (B := Zpos m0 * 2 ^ (e0 - e1)).
  assert (Hsplit : 2 ^ (e0 - ez) = 2 ^ (e0 - e1) * 2 ^ n).
  { rewrite <- Z.pow_add_r by lia. f_equal. lia. }
  assert (Hpn : 0 < 2 ^ n) by (apply pow2_pos; lia).
  assert (Hp1 : 0 < 2 ^ (e0 - e1)) by (apply pow2_pos; lia).
  assert (Hm1B : shr_m mrs1 <= B).
  { rewrite Hm1. apply Z.div_le_upper_bound; [assumption|].
    unfold B. rewrite Hsplit in Hle. nia. }
  assert (Hm1pos : 0 <= shr_m mrs1) by (rewrite Hm1; apply Z.div_pos; lia).
  set (m2 := round_nearest_even (shr_m mrs1) (loc_of_shr_record mrs1)).
  assert (Hm2 : 0 <= m2 <= B).
  { pose proof (round_nearest_even_bounds (shr_m mrs1) (loc_of_shr_record mrs1)) as Hr.
    fold m2 in Hr. split; [lia|].
    destruct (Z.eq_dec (shr_m mrs1) B) as [Heq|Hne]; [|lia].
    (* the bound is reached: the shift was exact, nothing is rounded up *)
    assert (Hmz : mz = B * 2 ^ n).
    { pose proof (Z.mul_div_le mz (2 ^ n) Hpn) as Hd. rewrite <- Hm1, Heq in Hd.
      unfold B in *. rewrite Hsplit in Hle. nia. }
    unfold m2. rewrite Hx1; [cbn [round_nearest_even]; lia|reflexivity|].
    rewrite Hmz. apply Z.mod_mul. lia. }
  destruct (shr_fexp_spec m2 e1 loc_Exact) as (Hm3 & He3 & _); [lia|].
  destruct (shr_fexp prec emax m2 e1 loc_Exact) as [mrs3 e3]. cbn [fst snd] in *.
  destruct (shr_m mrs3) as [|mf|mf] eqn:Emf; [reflexivity| |].
  - assert (Hm2pos : 0 < m2).
    { destruct (Z.eq_dec m2 0) as [E0|]; [|lia]. rewrite E0, Z.div_0_l in Hm3; lia. }
    assert (HD : Zdigits2 m2 + e1 <= d0 + e0).
    { assert (Zdigits2 m2 <= d0 + e0 - e1); [|lia].
      apply Zdigits2_le; [assumption|lia|].
      replace (d0 + e0 - e1) with (d0 + (e0 - e1)) by lia.
      rewrite Z.pow_add_r by lia. unfold B in Hm2. nia. }
    pose proof (fexp64_mono _ _ HD) as Hf.
    assert (He3' : e3 <= emax - prec) by lia.
    apply Z.leb_le in He3'. now rewrite He3'.
  - exfalso. assert (0 <= m2 / 2 ^ Z.max 0 (fexp64 (Zdigits2 m2 + e1) - e1)).
    { apply Z.div_pos; [lia|apply pow2_pos; lia]. }
    lia.
Qed.

Lemma Pos_iter_xO p d : Zpos (Pos.iter xO p d) = Zpos p * 2 ^ Zpos d.
Proof.
  change (Pos.iter xO p d) with (shift_pos d p).
  rewrite shift_pos_correct. rewrite Zpower_pos_nat, Zpower_nat_Z, positive_nat_Z.
  apply Z.mul_comm.
Qed.

Lemma shl_align_spec mx ex e' :
  Zpos (fst (shl_align mx ex e')) = Zpos mx * 2 ^ (ex - Z.min ex e')
  /\ snd (shl_align mx ex e') = Z.min ex e'.
Proof.
  unfold shl_align. destruct (e' - ex) as [|d|d] eqn:Ed; cbn [fst snd].
  - rewrite Z.min_l by lia. rewrite Z.sub_diag, Z.pow_0_r. split; lia.
  - rewrite Z.min_l by lia. rewrite Z.sub_diag, Z.pow_0_r. split; lia.
  - rewrite Z.min_r by lia. rewrite Pos_iter_xO. split; [|reflexivity].
    f_equal. f_equal. lia.
Qed.

Lemma binary_round_no_overflow s p e m0 e0 :
  bounded64 m0 e0 = true ->
  e <= e0 ->
  Zpos p <= Zpos m0 * 2 ^ (e0 - e) ->
  SFfinite (binary_round prec emax s p e) = true.
Proof.
  intros Hb He Hle. unfold binary_round.
  destruct (shl_align_spec p e (fexp prec emax (Zpos (digits2_pos p) + e)))
    as [Hm Hz].
  destruct (shl_align p e (fexp prec emax (Zpos (digits2_pos p) + e)))
    as [mz ez]. cbn [fst snd] in *.
  apply (round_aux_no_overflow s (Zpos mz) ez m0 e0 Hb); [lia|].
  split; [lia|]. rewrite Hm.
  replace (e0 - ez) with ((e0 - e) + (e - ez)) by lia.
  rewrite Z.pow_add_r by lia.
  assert (0 < 2 ^ (e - ez)) by (apply pow2_pos; lia).
  rewrite <- Hz. nia.
Qed.

Lemma SFsub_same_sign s mx ex my ey :
  bounded64 mx ex = true -> bounded64 my ey = true ->
  SFfinite (SF64sub (S754_finite s mx ex) (S754_finite s my ey)) = true.
Proof.
  intros Hx Hy. unfold SF64sub, SFsub.
  destruct (shl_align_spec mx ex (Z.min ex ey)) as [Hmx _].
  destruct (shl_align_spec my ey (Z.min ex ey)) as [Hmy _].
  replace (Z.min ex (Z.min ex ey)) with (Z.min ex ey) in Hmx by lia.
  replace (Z.min ey (Z.min ex ey)) with (Z.min ex ey) in Hmy by lia.
  set (X := Zpos (fst (shl_align mx ex (Z.min ex ey)))) in *.
  set (Y := Zpos (fst (shl_align my ey (Z.min ex ey)))) in *.
  assert (HX : 0 < X) by (unfold X; lia).
  assert (HY : 0 < Y) by (unfold Y; lia).
  unfold binary_normalize.
  destruct (cond_Zopp s X - cond_Zopp s Y) as [|p|p] eqn:Ez; [reflexivity| |].
  - destruct s; cbn [cond_Zopp] in Ez.
    + apply (binary_round_no_overflow _ _ _ my ey Hy); [lia|]. rewrite <- Hmy. lia.
    + apply (binary_round_no_overflow _ _ _ mx ex Hx); [lia|]. rewrite <- Hmx. lia.
  - destruct s; cbn [cond_Zopp] in Ez.
    + apply (binary_round_no_overflow _ _ _ mx ex Hx); [lia|]. rewrite <- Hmx. lia.
    + apply (binary_round_no_overflow _ _ _ my ey Hy); [lia|]. rewrite <- Hmy. lia.
Qed.

Lemma SFsub_self s m e :
  SF64sub (S754_finite s m e) (S754_finite s m e) = S754_zero false.
Proof. unfold SF64sub, SFsub. now rewrite Z.sub_diag. Qed.

Lemma SFcompare_finite_antisym s1 m1 e1 s2 m2 e2 :
  SFcompare (S754_finite s2 m2 e2) (S754_finite s1 m1 e1)
  = option_map CompOpp (SFcompare (S754_finite s1 m1 e1) (S754_finite s2 m2 e2)).
Proof.
  cbn [SFcompare option_map].
  rewrite (Z.compare_antisym e1 e2).
  change (Pos.compare_cont Eq m2 m1) with (Pos.compare m2 m1).
  change (Pos.compare_cont Eq m1 m2) with (Pos.compare m1 m2).
  rewrite (Pos.compare_antisym m1 m2).
  destruct s1, s2, (e1 ?= e2), (m1 ?= m2)%positive; reflexivity.
Qed.

(** Lower bounds *)

Lemma shr_fexp_above m e l k :
  0 < m -> emin <= k -> 2 ^ (k - e) <= m ->
  0 < shr_m (fst (shr_fexp prec emax m e l))
  /\ 2 ^ (k - snd (shr_fexp prec emax m e l)) <= shr_m (fst (shr_fexp prec emax m e l)).
Proof.
  intros Hm Hk Hab.
  destruct (shr_fexp_spec m e l) as (Hm1 & He1 & _); [lia|].
  rewrite Hm1, He1. clear Hm1 He1.
  set (D := Zdigits2 m). set (n := Z.max 0 (fexp64 (D + e) - e)).
  destruct (Z.eq_dec n 0) as [E0|Hn0].
  - rewrite E0, Z.add_0_r. change (2 ^ 0) with 1. rewrite Z.div_1_r. lia.
  - assert (Hn : 0 < n) by (unfold n in *; lia).
    assert (Hef : e + n = fexp64 (D + e)) by (unfold n in *; lia).
    assert (Hpn : 0 < 2 ^ n) by (apply pow2_pos; lia).
    destruct (Z_le_gt_dec (e + n) k) as [Hle|Hgt].
    + assert (Hq : 2 ^ (k - (e + n)) <= m / 2 ^ n).
      { apply Z.div_le_lower_bound; [assumption|].
        rewrite <- Z.pow_add_r by lia.
        replace (n + (k - (e + n))) with (k - e) by lia. assumption. }
      assert (0 < 2 ^ (k - (e + n))) by (apply pow2_pos; lia). lia.
    + rewrite (Z.pow_neg_r 2 (k - (e + n))) by lia.
      assert (HD : n = D - prec).
      { unfold fexp64, SpecFloat.fexp in Hef. fold emin in Hef. lia. }
      destruct m as [|p|p]; try lia. unfold D in *. cbn [Zdigits2] in *.
      destruct (digits2_pos_bounds p) as [Hlo _].
      assert (Hq : 2 ^ (prec - 1) <= Zpos p / 2 ^ n).
      { apply Z.div_le_lower_bound; [assumption|].
        rewrite <- Z.pow_add_r by (unfold prec; lia).
        replace (n + (prec - 1)) with (Zpos (digits2_pos p) - 1) by lia. assumption. }
      assert (0 < 2 ^ (prec - 1)) by (apply pow2_pos; unfold prec; lia). lia.
Qed.

Lemma round_aux_above s m e l k :
  0 < m -> emin <= k -> 2 ^ (k - e) <= m ->
  match binary_round_aux prec emax s m e l with
  | S754_infinity s' => s' = s
  | S754_finite s' mf ef => s' = s /\ 2 ^ (k - ef) <= Zpos mf
  | _ => False
  end.
Proof.
  intros Hm Hk Hab. unfold binary_round_aux.
  destruct (shr_fexp_above m e l k Hm Hk Hab) as [Hp1 Ha1].
  destruct (shr_fexp prec emax m e l) as [mrs1 e1]. cbn [fst snd] in *.
  pose proof (round_nearest_even_bounds (shr_m mrs1) (loc_of_shr_record mrs1)) as Hr.
  set (m2 := round_nearest_even (shr_m mrs1) (loc_of_shr_record mrs1)) in *.
  destruct (shr_fexp_above m2 e1 loc_Exact k) as [Hp3 Ha3]; [lia|assumption|lia|].
  destruct (shr_fexp prec emax m2 e1 loc_Exact) as [mrs3 e3]. cbn [fst snd] in *.
  destruct (shr_m mrs3) as [|mf|mf]; try lia.
  destruct (e3 <=? emax - prec); [split; [reflexivity|assumption]|reflexivity].
Qed.

Lemma bounded64_lt m e : bounded64 m e = true -> Zpos m < 2 ^ prec.
Proof.
  intros Hb. destruct (bounded64_spec _ _ Hb) as [Hcan _].
  destruct (digits2_pos_bounds m) as [_ Hhi].
  unfold fexp64, SpecFloat.fexp in Hcan.
  assert (Zpos (digits2_pos m) <= prec) by lia.
  assert (2 ^ Zpos (digits2_pos m) <= 2 ^ prec) by (apply Z.pow_le_mono_r; lia).
  lia.
Qed.

Lemma bounded64_normal m e :
  bounded64 m e = true -> emin < e -> 2 ^ (prec - 1) <= Zpos m.
Proof.
  intros Hb He. destruct (bounded64_spec _ _ Hb) as [Hcan _].
  destruct (digits2_pos_bounds m) as [Hlo _].
  unfold fexp64, SpecFloat.fexp in Hcan. fold emin in Hcan.
  replace (Zpos (digits2_pos m)) with prec in Hlo by lia. assumption.
Qed.

(** ** Amounts of at least 0.01 *)

Lemma Prim2SF_cent : Prim2SF 0.01 = S754_finite false 5764607523034235 (-59).
Proof. reflexivity. Qed.

Lemma Prim2SF_hundred : Prim2SF 100 = S754_finite false 7036874417766400 (-46).
Proof. reflexivity. Qed.

Lemma Prim2SF_bounded x s m e :
  Prim2SF x = S754_finite s m e -> bounded64 m e = true.
Proof. intros H. pose proof (Prim2SF_valid x) as Hv. now rewrite H in Hv. Qed.

Lemma goodAmount_SF x :
  Binary64.goodAmount x = true ->
  exists m e,
    Prim2SF x = S754_finite false m e
    /\ bounded64 m e = true
    /\ SFleb (S754_finite false 5764607523034235 (-59)) (S754_finite false m e) = true.
Proof.
  unfold Binary64.goodAmount. rewrite andb_true_iff, FloatAxioms.leb_spec, FloatAxioms.ltb_spec, Prim2SF_cent.
  change (Prim2SF infinity) with (S754_infinity false).
  intros [Hle Hlt]. destruct (Prim2SF x) as [s|s| |s m e] eqn:Ex; try discriminate.
  - destruct s; discriminate.
  - destruct s; [discriminate|]. exists m, e. repeat split; [|assumption].
    now apply (Prim2SF_bounded x false).
Qed.

Lemma SF_goodAmount x m e :
  Prim2SF x = S754_finite false m e ->
  SFltb (S754_finite false m e) (S754_finite false 5764607523034235 (-59)) = false ->
  Binary64.goodAmount x = true.
Proof.
  intros Ex Hlt. unfold Binary64.goodAmount.
  rewrite FloatAxioms.leb_spec, FloatAxioms.ltb_spec, Prim2SF_cent, Ex.
  change (Prim2SF infinity) with (S754_infinity false).
  apply andb_true_iff. split; [|reflexivity].
  unfold SFleb, SFltb in *. rewrite SFcompare_finite_antisym.
  cbn [SFcompare option_map] in *.
  destruct (e ?= -59); try reflexivity; try discriminate.
  destruct (Pos.compare_cont Eq m 5764607523034235); try reflexivity; discriminate.
Qed.

Lemma is_finite_SF x : is_finite x = true -> SFfinite (Prim2SF x) = true.
Proof.
  unfold is_finite, is_nan, is_infinity.
  rewrite !FloatAxioms.eqb_spec, FloatAxioms.abs_spec. change (Prim2SF infinity) with (S754_infinity false).
  destruct (Prim2SF x) as [s|s| |s m e]; intros H; try reflexivity.
  - destruct s; discriminate H.
  - discriminate H.
Qed.

(** The side that attains the minimum is left with [+0]. *)
Lemma sub_self_evicted x : Binary64.goodAmount x = true -> (x - x <? 0.01)%float = true.
Proof.
  intros Hx. destruct (goodAmount_SF x Hx) as (m & e & Ex & _).
  rewrite FloatAxioms.ltb_spec, FloatAxioms.sub_spec, Ex, SFsub_self, Prim2SF_cent. reflexivity.
Qed.

(** What is left of the other side is below 0.01 or again a finite amount of
    at least 0.01. *)
Lemma sub_good x y :
  Binary64.goodAmount x = true -> Binary64.goodAmount y = true ->
  (x - y <? 0.01)%float = true \/ Binary64.goodAmount (x - y) = true.
Proof.
  intros Hx Hy.
  destruct (goodAmount_SF x Hx) as (mx & ex & Ex & Hbx & _).
  destruct (goodAmount_SF y Hy) as (my & ey & Ey & Hby & _).
  pose proof (SFsub_same_sign false mx ex my ey Hbx Hby) as Hfin.
  rewrite <- Ex, <- Ey, <- FloatAxioms.sub_spec in Hfin.
  rewrite FloatAxioms.ltb_spec, Prim2SF_cent.
  destruct (Prim2SF (x - y)) as [s|s| |s m e] eqn:Er; try discriminate.
  - left. now destruct s.
  - destruct (SFltb (S754_finite s m e) (S754_finite false 5764607523034235 (-59)))
      eqn:Hlt; [now left|right].
    destruct s; [discriminate|]. now apply (SF_goodAmount _ m e).
Qed.

Lemma goodAmount_not_nan x : Binary64.goodAmount x = true -> is_nan x = false.
Proof.
  intros Hx. destruct (goodAmount_SF x Hx) as (m & e & Ex & _).
  unfold is_nan. rewrite FloatAxioms.eqb_spec, Ex. unfold SFeqb. cbn [SFcompare].
  rewrite Z.compare_refl. change (Pos.compare_cont Eq m m) with (Pos.compare m m).
  now rewrite Pos.compare_refl.
Qed.

Lemma Math_min_cases x y :
  Binary64.goodAmount x = true -> Binary64.goodAmount y = true ->
  Binary64.Math_min x y = x \/ Binary64.Math_min x y = y.
Proof.
  intros Hx Hy. unfold Binary64.Math_min.
  rewrite (goodAmount_not_nan x Hx), (goodAmount_not_nan y Hy). cbn [orb].
  destruct (x <? y)%float; [now left|].
  destruct (y <? x)%float; [now right|].
  destruct (get_sign x); [now left|now right].
Qed.

Lemma debtor_good b :
  is_finite b = true -> (b <? - 0.01)%float = true -> Binary64.goodAmount (- b) = true.
Proof.
  intros Hf Hlt. apply is_finite_SF in Hf.
  rewrite FloatAxioms.ltb_spec in Hlt.
  change (Prim2SF (- 0.01)) with (S754_finite true 5764607523034235 (-59)) in Hlt.
  destruct (Prim2SF b) as [s|s| |s m e] eqn:Eb; try discriminate.
  destruct s; [|discriminate Hlt].
  apply (SF_goodAmount _ m e); [now rewrite FloatAxioms.opp_spec, Eb|].
  unfold SFltb in *. cbn [SFcompare] in *.
    destruct (e ?= -59); try reflexivity; try discriminate.
    destruct (Pos.compare_cont Eq m 5764607523034235); try reflexivity; discriminate.
Qed.

Lemma creditor_good b :
  is_finite b = true -> (0.01 <? b)%float = true -> Binary64.goodAmount b = true.
Proof.
  intros Hf Hlt. apply is_finite_SF in Hf.
  rewrite FloatAxioms.ltb_spec, Prim2SF_cent in Hlt.
  destruct (Prim2SF b) as [s|s| |s m e] eqn:Eb; try discriminate.
  destruct s; [discriminate Hlt|].
  apply (SF_goodAmount _ m e Eb).
  unfold SFltb in *. rewrite SFcompare_finite_antisym.
  destruct (SFcompare (S754_finite false 5764607523034235 (-59)) (S754_finite false m e))
    as [[| |]|]; try discriminate. reflexivity.
Qed.

(** *** Rounding to cents keeps an amount at or above 0.01 *)

(** [a * 100] is at least 1 (or overflows to [Infinity]). *)
Lemma mul_hundred_above a :
  Binary64.goodAmount a = true ->
  Prim2SF (a * 100) = S754_infinity false
  \/ exists m e, Prim2SF (a * 100) = S754_finite false m e /\ 2 ^ (0 - e) <= Zpos m.
Proof.
  intros Ha. destruct (goodAmount_SF a Ha) as (ma & ea & Ea & Hb & Hle).
  rewrite FloatAxioms.mul_spec, Ea, Prim2SF_hundred.
  unfold SF64mul, SFmul. cbn [xorb].
  assert (Hab : 2 ^ (0 - (ea + -46)) <= Zpos (ma * 7036874417766400)).
  { rewrite Pos2Z.inj_mul.
    unfold SFleb in Hle. cbn [SFcompare] in Hle.
    destruct (Z.compare_spec (-59) ea) as [E|Hlt|Hgt].
    - subst ea. change (Pos.compare_cont Eq 5764607523034235 ma)
        with (Pos.compare 5764607523034235 ma) in Hle.
      assert (5764607523034235 <= ma)%positive.
      { unfold Pos.le. destruct (5764607523034235 ?= ma)%positive; discriminate. }
      change (2 ^ (0 - (-59 + -46))) with 40564819207303340847894502572032. lia.
    - pose proof (bounded64_normal ma ea Hb) as Hn.
      assert (2 ^ (0 - (ea + -46)) <= 2 ^ 104).
      { destruct (Z_le_gt_dec 0 (0 - (ea + -46))).
        - apply Z.pow_le_mono_r; lia.
        - rewrite Z.pow_neg_r by lia. lia. }
      change (2 ^ 104) with 20282409603651670423947251286016 in *.
      change (2 ^ (prec - 1)) with 4503599627370496 in Hn.
      unfold emin, prec, emax in Hn. lia.
    - discriminate. }
  pose proof (round_aux_above false (Zpos (ma * 7036874417766400)) (ea + -46)
                loc_Exact 0 ltac:(lia) ltac:(unfold emin, emax, prec; lia) Hab) as H.
  destruct (binary_round_aux prec emax false (Zpos (ma * 7036874417766400))
              (ea + -46) loc_Exact) as [s|s| |s m e]; try contradiction.
  - left. now subst s.
  - right. destruct H as [-> H]. eauto.
Qed.

Lemma pow2_le_const k c : k <= c -> 0 <= c -> 2 ^ k <= 2 ^ c.
Proof.
  intros Hk Hc. destruct (Z_le_gt_dec 0 k).
  - apply Z.pow_le_mono_r; lia.
  - rewrite Z.pow_neg_r by lia. apply Z.pow_nonneg. lia.
Qed.

(** [Math.round] of a number that is at least 1 is 1 or at least 2. *)
Lemma Math_round_above t :
  (Prim2SF t = S754_infinity false
   \/ exists m e, Prim2SF t = S754_finite false m e /\ 2 ^ (0 - e) <= Zpos m) ->
  Binary64.Math_round t = 1%float
  \/ Prim2SF (Binary64.Math_round t) = S754_infinity false
  \/ exists m e,
       Prim2SF (Binary64.Math_round t) = S754_finite false m e /\ 2 ^ (1 - e) <= Zpos m.
Proof.
  intros [Hinf|(m & e & Et & Hab)]; unfold Binary64.Math_round.
  - rewrite Hinf. right. left. exact Hinf.
  - pose proof (Prim2SF_bounded t false m e Et) as Hb.
    rewrite Et. destruct e as [|p|n].
    + right. right. exists m, 0. split; [exact Et|].
      pose proof (bounded64_normal m 0 Hb ltac:(unfold emin, emax, prec; lia)) as Hn.
      change (2 ^ (prec - 1)) with 4503599627370496 in Hn.
      change (2 ^ (1 - 0)) with 2. lia.
    + right. right. exists m, (Zpos p). split; [exact Et|].
      pose proof (pow2_le_const (1 - Zpos p) 0 ltac:(lia) ltac:(lia)) as Hp.
      change (2 ^ 0) with 1 in Hp. lia.
    + change (0 - Zneg n) with (Zpos n) in Hab.
      set (q := Zpos m / 2 ^ Zpos n).
      set (k := if 2 * (Zpos m mod 2 ^ Zpos n) <? 2 ^ Zpos n then q else q + 1).
      assert (Hpn : 0 < 2 ^ Zpos n) by (apply pow2_pos; lia).
      assert (Hq : 1 <= q) by (apply Z.div_le_lower_bound; lia).
      assert (Hqm : q <= Zpos m) by (apply Z.div_le_upper_bound; nia).
      pose proof (bounded64_lt m _ Hb) as Hm.
      change (2 ^ prec) with 9007199254740992 in Hm.
      assert (Hk : 1 <= k <= 9007199254740992)
        by (unfold k; destruct (_ <? _); lia).
      destruct (Z.eq_dec k 1) as [E1|Hne]; [left; now rewrite E1|].
      right. unfold Binary64.ofZ. rewrite of_uint63_spec, Uint63.of_Z_spec.
      rewrite Z.mod_small by (change Uint63.wB with 9223372036854775808; lia).
      destruct k as [|pk|pk]; try lia. cbn [binary_normalize]. unfold binary_round.
      destruct (shl_align_spec pk 0 (fexp prec emax (Zpos (digits2_pos pk) + 0)))
        as [Hmz Hez].
      destruct (shl_align pk 0 (fexp prec emax (Zpos (digits2_pos pk) + 0)))
        as [mz ez]. cbn [fst snd] in *.
      assert (Hab1 : 2 ^ (1 - ez) <= Zpos mz).
      { rewrite Hmz, <- Hez. replace (1 - ez) with (1 + (0 - ez)) by lia.
        rewrite Z.pow_add_r by lia. change (2 ^ 1) with 2.
        assert (0 < 2 ^ (0 - ez)) by (apply pow2_pos; lia). nia. }
      pose proof (round_aux_above false (Zpos mz) ez loc_Exact 1 ltac:(lia)
                    ltac:(unfold emin, emax, prec; lia) Hab1) as H.
      destruct (binary_round_aux prec emax false (Zpos mz) ez loc_Exact)
        as [s|s| |s mf ef]; try contradiction.
      * left. now subst s.
      * right. destruct H as [-> H]. eauto.
Qed.

Lemma above_cent mf ef :
  bounded64 mf ef = true -> 2 ^ (-6 - ef) <= Zpos mf ->
  SFleb (S754_finite false 5764607523034235 (-59)) (S754_finite false mf ef) = true.
Proof.
  intros Hb Hab. pose proof (bounded64_lt _ _ Hb) as Hlt.
  assert (He : -59 < ef).
  { destruct (Z_lt_le_dec (-59) ef) as [|Hle]; [assumption|].
    assert (2 ^ prec <= 2 ^ (-6 - ef)) by (apply Z.pow_le_mono_r; unfold prec; lia).
    lia. }
  unfold SFleb. cbn [SFcompare].
  apply Z.compare_lt_iff in He. now rewrite He.
Qed.

Lemma div_core_above m e :
  bounded64 m e = true -> 2 ^ (1 - e) <= Zpos m ->
  0 < fst (fst (SFdiv_core_binary prec emax (Zpos m) e (Zpos 7036874417766400) (-46)))
  /\ 2 ^ (-6 - snd (fst (SFdiv_core_binary prec emax (Zpos m) e
                           (Zpos 7036874417766400) (-46))))
     <= fst (fst (SFdiv_core_binary prec emax (Zpos m) e (Zpos 7036874417766400) (-46))).
Proof.
  intros Hb Hab. unfold SFdiv_core_binary.
  change (Zdigits2 (Zpos 7036874417766400)) with 53.
  cbn [Zdigits2].
  destruct (digits2_pos_bounds m) as [Hlo Hhi].
  destruct (bounded64_spec _ _ Hb) as [Hcan _].
  set (d1 := Zpos (digits2_pos m)) in *.
  assert (Hd1 : 0 < d1 <= 53).
  { unfold fexp64, SpecFloat.fexp, prec in Hcan. unfold d1. lia. }
  assert (Hde : 2 <= d1 + e).
  { destruct (Z_le_gt_dec 0 (1 - e)) as [Hnn|]; [|lia].
    assert (2 ^ (1 - e) < 2 ^ d1) by lia.
    apply Z.pow_lt_mono_r_iff in H; lia. }
  replace (Z.min (fexp prec emax (d1 + e - (53 + -46))) (e - -46))
    with (d1 + e - 60)
    by (unfold SpecFloat.fexp, SpecFloat.emin, prec, emax; lia).
  replace (e - -46 - (d1 + e - 60)) with (106 - d1) by lia.
  destruct (106 - d1) as [|s|s] eqn:Es; try lia.
  rewrite Z.shiftl_mul_pow2 by lia. rewrite <- Es.
  assert (Hbig : 2 ^ 105 <= Zpos m * 2 ^ (106 - d1)).
  { replace 105 with ((d1 - 1) + (106 - d1)) by lia.
    rewrite Z.pow_add_r by lia.
    assert (0 < 2 ^ (106 - d1)) by (apply pow2_pos; lia). nia. }
  change (2 ^ 105) with 40564819207303340847894502572032 in Hbig.
  pose proof (Z.div_eucl_eq (Zpos m * 2 ^ (106 - d1)) 7036874417766400 ltac:(lia)) as Heq.
  pose proof (Z.mod_pos_bound (Zpos m * 2 ^ (106 - d1)) 7036874417766400 ltac:(lia)) as Hr.
  unfold Z.modulo in Hr.
  destruct (Z.div_eucl (Zpos m * 2 ^ (106 - d1)) 7036874417766400) as [q r].
  cbn [fst snd].
  assert (Hq : 4503599627370496 <= q) by nia.
  assert (Hp : 2 ^ (-6 - (d1 + e - 60)) <= 2 ^ 52)
    by (apply pow2_le_const; lia).
  change (2 ^ 52) with 4503599627370496 in Hp. lia.
Qed.

Lemma div_hundred_good r :
  (r = 1%float
   \/ Prim2SF r = S754_infinity false
   \/ exists m e, Prim2SF r = S754_finite false m e /\ 2 ^ (1 - e) <= Zpos m) ->
  (0.01 <=? r / 100)%float = true /\ (0 <? r / 100)%float = true.
Proof.
  intros [->|[Hinf|(m & e & Er & Hab)]].
  - split; reflexivity.
  - rewrite FloatAxioms.leb_spec, FloatAxioms.ltb_spec, FloatAxioms.div_spec, Hinf,
      Prim2SF_hundred, Prim2SF_cent.
    split; reflexivity.
  - pose proof (Prim2SF_bounded r false m e Er) as Hb.
    pose proof (Prim2SF_valid (r / 100)) as Hv.
    rewrite FloatAxioms.leb_spec, FloatAxioms.ltb_spec, Prim2SF_cent.
    rewrite FloatAxioms.div_spec, Er, Prim2SF_hundred in *.
    unfold SF64div, SFdiv in *. cbn [xorb] in *.
    destruct (div_core_above m e Hb Hab) as [Hq Habq].
    destruct (SFdiv_core_binary prec emax (Zpos m) e (Zpos 7036874417766400) (-46))
      as [[q e'] l]. cbn [fst snd] in *.
    pose proof (round_aux_above false q e' l (-6) Hq
                  ltac:(unfold emin, emax, prec; lia) Habq) as H.
    destruct (binary_round_aux prec emax false q e' l) as [s|s| |s mf ef];
      try contradiction.
    + subst s. split; reflexivity.
    + destruct H as [-> H]. split; [|reflexivity].
      now apply above_cent.
Qed.

(** The amount written into a transaction. *)
Lemma round2_good a :
  Binary64.goodAmount a = true ->
  (0.01 <=? Binary64.round2 a)%float = true /\ (0 <? Binary64.round2 a)%float = true.
Proof.
  intros Ha. unfold Binary64.round2.
  apply div_hundred_good, Math_round_above, mul_hundred_above, Ha.
Qed.

Local Close Scope Z_scope.

(** ** The matching loop in double precision *)

Lemma double_loopBody_transactions debtor ds creditor cs txs :
  Binary64.transactions (Binary64.loopBody debtor ds creditor cs txs)
  = txs ++ [Binary64.mkTransaction
              (Binary64.party_user debtor) (Binary64.party_user creditor)
              (Binary64.round2
                 (Binary64.Math_min (Binary64.party_amount debtor)
                                    (Binary64.party_amount creditor)))].
Proof. reflexivity. Qed.

(** With finite fronts of at least 0.01 an iteration evicts the front of at
    least one array: the side that attains the minimum is left with 0.  A
    front that stays holds again a finite amount of at least 0.01. *)
Lemma double_loopBody_evicts debtor ds creditor cs txs :
  Binary64.goodParty debtor -> Binary64.goodParty creditor ->
  let st' := Binary64.loopBody debtor ds creditor cs txs in
  (Binary64.debtors st' = ds \/ Binary64.creditors st' = cs)
  /\ (Binary64.debtors st' = ds
      \/ exists d', Binary64.debtors st' = d' :: ds /\ Binary64.goodParty d'
                    /\ Binary64.party_user d' = Binary64.party_user debtor)
  /\ (Binary64.creditors st' = cs
      \/ exists c', Binary64.creditors st' = c' :: cs /\ Binary64.goodParty c'
                    /\ Binary64.party_user c' = Binary64.party_user creditor).
Proof.
  unfold Binary64.goodParty. intros Hd Hc.
  unfold Binary64.loopBody.
  cbn [Binary64.debtors Binary64.creditors Binary64.party_amount
       Binary64.party_user].
  set (x := Binary64.party_amount debtor) in *.
  set (y := Binary64.party_amount creditor) in *.
  destruct (Math_min_cases x y Hd Hc) as [E|E]; rewrite E.
  - rewrite (sub_self_evicted x Hd). split; [now left|]. split; [now left|].
    destruct (sub_good y x Hc Hd) as [H|H].
    + rewrite H. now left.
    + destruct (y - x <? 0.01)%float; [now left|right].
      eexists. split; [reflexivity|]. split; [exact H|reflexivity].
  - rewrite (sub_self_evicted y Hc). split; [now right|]. split; [|now left].
    destruct (sub_good x y Hd Hc) as [H|H].
    + rewrite H. now left.
    + destruct (x - y <? 0.01)%float; [now left|right].
      eexists. split; [reflexivity|]. split; [exact H|reflexivity].
Qed.

Lemma Math_min_good x y :
  Binary64.goodAmount x = true -> Binary64.goodAmount y = true ->
  Binary64.goodAmount (Binary64.Math_min x y) = true.
Proof.
  intros Hx Hy. destruct (Math_min_cases x y Hx Hy) as [-> | ->]; assumption.
Qed.

Lemma double_loopBody_amounts d ds c cs txs :
  Binary64.amountsInvariant (Binary64.mkLoop (d :: ds) (c :: cs) txs) ->
  Binary64.amountsInvariant (Binary64.loopBody d ds c cs txs).
Proof.
  intros (Hds & Hcs & Ht). cbn [Binary64.debtors Binary64.creditors
                                 Binary64.transactions] in *.
  inversion Hds as [|? ? Hd Hds']; subst. inversion Hcs as [|? ? Hc Hcs']; subst.
  destruct (double_loopBody_evicts d ds c cs txs Hd Hc) as (_ & HD & HC).
  cbv zeta in HD, HC.
  unfold Binary64.amountsInvariant. rewrite double_loopBody_transactions.
  repeat split.
  - destruct HD as [-> | (d' & -> & Hd' & _)]; [assumption|now constructor].
  - destruct HC as [-> | (c' & -> & Hc' & _)]; [assumption|now constructor].
  - apply Forall_app. split; [assumption|]. constructor; [|constructor].
    unfold Binary64.positiveAmount. cbn [Binary64.tx_amount].
    destruct (round2_good _ (Math_min_good _ _ Hd Hc)) as [H1 H2]. now split.
Qed.

(** The sides never mix, whatever the numbers are: a party keeps its user,
    and a transaction goes from the debtor front to the creditor front. *)
Lemma double_loopBody_sides balances d ds c cs txs :
  Binary64.sidesInvariant balances (Binary64.mkLoop (d :: ds) (c :: cs) txs) ->
  Binary64.sidesInvariant balances (Binary64.loopBody d ds c cs txs).
Proof.
  intros (Hds & Hcs & Ht). cbn [Binary64.debtors Binary64.creditors
                                 Binary64.transactions] in *.
  inversion Hds as [|? ? Hd Hds']; subst. inversion Hcs as [|? ? Hc Hcs']; subst.
  unfold Binary64.sidesInvariant, Binary64.loopBody.
  cbn [Binary64.debtors Binary64.creditors Binary64.transactions].
  repeat split.
  - match goal with |- context [if ?b then _ else _] => destruct b end;
      [assumption|]. constructor; assumption.
  - match goal with |- context [if ?b then _ else _] => destruct b end;
      [assumption|]. constructor; assumption.
  - apply Forall_app. split; [assumption|]. constructor; [|constructor].
    destruct Hc as [Hc1 Hc2]. repeat split; assumption.
Qed.

Lemma runLoop_invariant (P : Binary64.LoopState -> Prop) :
  (forall d ds c cs txs,
      P (Binary64.mkLoop (d :: ds) (c :: cs) txs) ->
      P (Binary64.loopBody d ds c cs txs)) ->
  forall n st, P st -> P (Binary64.runLoop n st).
Proof.
  intros Hstep. induction n as [|n IH]; intros [ds cs txs] HP; [exact HP|].
  destruct ds as [|d ds]; [exact HP|]. destruct cs as [|c cs]; [exact HP|].
  cbn [Binary64.runLoop Binary64.debtors Binary64.creditors
       Binary64.transactions]. auto.
Qed.

(** The loop returns exactly when one array is empty after some number of
    iterations, and then returns what was pushed until then. *)
Lemma whileLoop_runLoop fuel : forall st txs,
  Binary64.whileLoop fuel st = Some txs ->
  txs = Binary64.transactions (Binary64.runLoop fuel st)
  /\ (Binary64.debtors (Binary64.runLoop fuel st) = []
      \/ Binary64.creditors (Binary64.runLoop fuel st) = []).
Proof.
  induction fuel as [|fuel IH]; intros [ds cs txs0] txs.
  - destruct ds as [|d ds]; [intros [= <-]; auto|].
    destruct cs as [|c cs]; [intros [= <-]; auto|]. discriminate.
  - destruct ds as [|d ds]; [intros [= <-]; auto|].
    destruct cs as [|c cs]; [intros [= <-]; auto|].
    cbn [Binary64.whileLoop Binary64.runLoop Binary64.debtors
         Binary64.creditors Binary64.transactions]. apply IH.
Qed.

Lemma runLoop_whileLoop fuel : forall st,
  Binary64.debtors (Binary64.runLoop fuel st) = []
  \/ Binary64.creditors (Binary64.runLoop fuel st) = [] ->
  Binary64.whileLoop fuel st
  = Some (Binary64.transactions (Binary64.runLoop fuel st)).
Proof.
  induction fuel as [|fuel IH]; intros [ds cs txs0].
  - cbn [Binary64.runLoop Binary64.debtors Binary64.creditors].
    intros [-> | ->]; [reflexivity|now destruct ds].
  - destruct ds as [|d ds]; [reflexivity|].
    destruct cs as [|c cs]; [reflexivity|].
    cbn [Binary64.whileLoop Binary64.runLoop Binary64.debtors
         Binary64.creditors Binary64.transactions]. apply IH.
Qed.

Lemma double_whileLoop_more_fuel fuel extra : forall st txs,
  Binary64.whileLoop fuel st = Some txs ->
  Binary64.whileLoop (fuel + extra) st = Some txs.
Proof.
  induction fuel as [|fuel IH]; intros [ds cs txs0] txs.
  - destruct ds as [|d ds]; [now destruct extra|].
    destruct cs as [|c cs]; [now destruct extra|]. discriminate.
  - destruct ds as [|d ds]; [exact (fun H => H)|].
    destruct cs as [|c cs]; [exact (fun H => H)|].
    cbn [Binary64.whileLoop Binary64.debtors Binary64.creditors
         Binary64.transactions Nat.add]. apply IH.
Qed.

Lemma double_loopBody_count N d ds c cs txs :
  Binary64.countInvariant N (Binary64.mkLoop (d :: ds) (c :: cs) txs) ->
  Binary64.countInvariant N (Binary64.loopBody d ds c cs txs).
Proof.
  intros (Ha & Hn & _). split; [now apply double_loopBody_amounts|].
  destruct Ha as (Hds & Hcs & _).
  cbn [Binary64.debtors Binary64.creditors Binary64.transactions] in *.
  inversion Hds as [|? ? Hd _]; subst. inversion Hcs as [|? ? Hc _]; subst.
  destruct (double_loopBody_evicts d ds c cs txs Hd Hc) as (He & HD & HC).
  cbv zeta in He, HD, HC. rewrite double_loopBody_transactions, length_app.
  cbn [List.length] in *.
  destruct HD as [ED | (d' & ED & _)], HC as [EC | (c' & EC & _)];
    rewrite ED, EC in *; cbn [List.length]; try lia.
  exfalso. destruct He as [He|He].
  - apply (f_equal (@List.length _)) in He. cbn [List.length] in He. lia.
  - apply (f_equal (@List.length _)) in He. cbn [List.length] in He. lia.
Qed.

(** *** The state in which the loop is entered *)

Lemma double_insertSorted_length a l :
  List.length (Binary64.insertSorted a l) = S (List.length l).
Proof.
  induction l as [|b l IH]; [reflexivity|]. cbn [Binary64.insertSorted].
  destruct (_ <? _)%float; cbn [List.length]; [now rewrite IH|reflexivity].
Qed.

Lemma double_sortDesc_length l :
  List.length (Binary64.sortDesc l) = List.length l.
Proof.
  induction l as [|a l IH]; [reflexivity|]. cbn [Binary64.sortDesc fold_right].
  fold (Binary64.sortDesc l). now rewrite double_insertSorted_length, IH.
Qed.

Lemma double_insertSorted_Forall (P : Binary64.Party -> Prop) a l :
  P a -> Forall P l -> Forall P (Binary64.insertSorted a l).
Proof.
  intros Ha Hl. induction Hl as [|b l Hb Hl IH]; cbn [Binary64.insertSorted];
    [now constructor|].
  destruct (_ <? _)%float; repeat constructor; assumption.
Qed.

Lemma double_sortDesc_Forall (P : Binary64.Party -> Prop) l :
  Forall P l -> Forall P (Binary64.sortDesc l).
Proof.
  induction 1 as [|a l Ha Hl IH]; [constructor|].
  cbn [Binary64.sortDesc fold_right]. fold (Binary64.sortDesc l).
  now apply double_insertSorted_Forall.
Qed.

Lemma double_partition_length balances users : forall acc,
  let r := fold_left (Binary64.classify balances) users acc in
  (List.length (fst r) + List.length (snd r)
   = List.length (fst acc) + List.length (snd acc)
     + List.length
         (filter (fun user =>
                    (Binary64.getNum user balances <? - 0.01)%float
                    || (0.01 <? Binary64.getNum user balances)%float)
                 users))%nat.
Proof.
  induction users as [|u us IH]; intros acc; cbn [fold_left filter];
    [cbn; lia|].
  cbv zeta in IH. rewrite IH. unfold Binary64.classify.
  destruct (Binary64.getNum u balances <? - 0.01)%float; cbn [orb fst snd].
  - rewrite length_app. cbn [List.length]. lia.
  - destruct (0.01 <? Binary64.getNum u balances)%float; cbn [fst snd].
    + rewrite length_app. cbn [List.length]. lia.
    + lia.
Qed.

Lemma double_partition_sides balances users : forall acc,
  Forall (Binary64.debtorParty balances) (fst acc) ->
  Forall (Binary64.creditorParty balances) (snd acc) ->
  let r := fold_left (Binary64.classify balances) users acc in
  Forall (Binary64.debtorParty balances) (fst r)
  /\ Forall (Binary64.creditorParty balances) (snd r).
Proof.
  induction users as [|u us IH]; intros acc Hd Hc; cbn [fold_left];
    [now split|].
  apply IH; unfold Binary64.classify;
    destruct (Binary64.getNum u balances <? - 0.01)%float eqn:E1;
    cbn [fst snd]; try assumption.
  - apply Forall_app. split; [assumption|]. now repeat constructor.
  - destruct (0.01 <? Binary64.getNum u balances)%float; assumption.
  - destruct (0.01 <? Binary64.getNum u balances)%float eqn:E2;
      cbn [fst snd]; [|assumption].
    apply Forall_app. split; [assumption|]. now repeat constructor.
Qed.

Lemma double_partition_good balances users : forall acc,
  (forall u, In u users -> is_finite (Binary64.getNum u balances) = true) ->
  Forall Binary64.goodParty (fst acc) ->
  Forall Binary64.goodParty (snd acc) ->
  let r := fold_left (Binary64.classify balances) users acc in
  Forall Binary64.goodParty (fst r) /\ Forall Binary64.goodParty (snd r).
Proof.
  induction users as [|u us IH]; intros acc Hfin Hd Hc; cbn [fold_left];
    [now split|].
  pose proof (Hfin u (or_introl eq_refl)) as Hu.
  apply IH; [intros; apply Hfin; now right| |]; unfold Binary64.classify;
    destruct (Binary64.getNum u balances <? - 0.01)%float eqn:E1;
    cbn [fst snd]; try assumption.
  - apply Forall_app. split; [assumption|]. constructor; [|constructor].
    now apply debtor_good.
  - destruct (0.01 <? Binary64.getNum u balances)%float; assumption.
  - destruct (0.01 <? Binary64.getNum u balances)%float eqn:E2;
      cbn [fst snd]; [|assumption].
    apply Forall_app. split; [assumption|]. constructor; [|constructor].
    now apply creditor_good.
Qed.

Lemma finiteBalances_getNum rawDebts u :
  Binary64.finiteBalances rawDebts = true ->
  In u (keys (Binary64.netBalances rawDebts)) ->
  is_finite (Binary64.getNum u (Binary64.netBalances rawDebts)) = true.
Proof.
  unfold Binary64.finiteBalances, Binary64.getNum. intros Hf Hin.
  apply get_keys in Hin.
  destruct (get u (Binary64.netBalances rawDebts)) as [v|] eqn:Hg; [|congruence].
  apply get_In in Hg. rewrite forallb_forall in Hf. exact (Hf _ Hg).
Qed.

Lemma double_initial_sides rawDebts :
  Binary64.sidesInvariant (Binary64.netBalances rawDebts)
                          (Binary64.initialState rawDebts).
Proof.
  unfold Binary64.initialState, Binary64.sidesInvariant, Binary64.partitionUsers.
  cbn [Binary64.debtors Binary64.creditors Binary64.transactions].
  destruct (double_partition_sides (Binary64.netBalances rawDebts)
              (keys (Binary64.netBalances rawDebts)) ([], []))
    as [Hd Hc]; [constructor|constructor|].
  repeat split; [now apply double_sortDesc_Forall
                |now apply double_sortDesc_Forall|constructor].
Qed.

Lemma double_initial_count rawDebts :
  Binary64.finiteBalances rawDebts = true ->
  Binary64.countInvariant (Binary64.nonZeroUsers rawDebts)
                          (Binary64.initialState rawDebts).
Proof.
  intros Hf.
  unfold Binary64.initialState, Binary64.countInvariant,
    Binary64.amountsInvariant, Binary64.partitionUsers, Binary64.nonZeroUsers.
  cbn [Binary64.debtors Binary64.creditors Binary64.transactions].
  destruct (double_partition_good (Binary64.netBalances rawDebts)
              (keys (Binary64.netBalances rawDebts)) ([], []))
    as [Hd Hc]; [intros u; apply finiteBalances_getNum, Hf
                |constructor|constructor|].
  pose proof (double_partition_length (Binary64.netBalances rawDebts)
                (keys (Binary64.netBalances rawDebts)) ([], [])) as Hlen.
  cbv zeta in Hd, Hc, Hlen. cbn [fst snd List.length] in Hlen.
  rewrite !double_sortDesc_length. cbn [List.length].
  repeat split; [now apply double_sortDesc_Forall
                |now apply double_sortDesc_Forall|constructor|lia|lia].
Qed.

(** With finite balances the loop returns within N iterations. *)
Lemma double_whileLoop_total N fuel : forall st,
  Binary64.countInvariant N st ->
  (List.length (Binary64.debtors st) + List.length (Binary64.creditors st)
   <= fuel)%nat ->
  exists txs, Binary64.whileLoop fuel st = Some txs.
Proof.
  induction fuel as [|fuel IH]; intros [ds cs txs] Hinv Hb;
    cbn [Binary64.debtors Binary64.creditors] in Hb.
  - destruct ds; [|cbn in Hb; lia]. cbn. eauto.
  - destruct ds as [|d ds]; [cbn; eauto|].
    destruct cs as [|c cs]; [cbn; eauto|].
    cbn [Binary64.whileLoop Binary64.debtors Binary64.creditors
         Binary64.transactions].
    apply IH; [now apply double_loopBody_count|].
    destruct Hinv as ((Hds & Hcs & _) & _).
    cbn [Binary64.debtors Binary64.creditors] in Hds, Hcs.
    inversion Hds as [|? ? Hd _]; subst. inversion Hcs as [|? ? Hc _]; subst.
    destruct (double_loopBody_evicts d ds c cs txs Hd Hc) as (_ & HD & HC).
    cbv zeta in HD, HC. pose proof (double_loopBody_evicts d ds c cs txs Hd Hc) as (He & _).
    cbv zeta in He. cbn [List.length] in Hb.
    destruct HD as [ED | (d' & ED & _)], HC as [EC | (c' & EC & _)];
      rewrite ED, EC in *; cbn [List.length]; try lia.
    exfalso. destruct He as [He|He];
      apply (f_equal (@List.length _)) in He; cbn [List.length] in He; lia.
Qed.

Lemma double_simplifyDebts_returns rawDebts :
  Binary64.finiteBalances rawDebts = true ->
  exists txs,
    Binary64.simplifyDebtsFuel (Binary64.nonZeroUsers rawDebts) rawDebts
    = Some txs.
Proof.
  intros Hf. pose proof (double_initial_count rawDebts Hf) as Hinv.
  apply (double_whileLoop_total _ _ _ Hinv).
  destruct Hinv as (_ & Hn & _).
  unfold Binary64.initialState in *.
  cbn [Binary64.debtors Binary64.creditors Binary64.transactions List.length] in *.
  lia.
Qed.

(** *** The overflowing matrix *)

Lemma stuckState_stuck fuel : forall txs,
  Binary64.whileLoop fuel (Binary64.stuckState txs) = None.
Proof.
  induction fuel as [|fuel IH]; intros txs; [reflexivity|].
  unfold Binary64.stuckState.
  cbn [Binary64.whileLoop Binary64.debtors Binary64.creditors
       Binary64.transactions].
  exact (IH (txs ++ [Binary64.mkTransaction "D" "A" nan])).
Qed.

Lemma overflowMatrix_diverges : Binary64.diverges Binary64.overflowMatrix.
Proof.
  intros [|fuel]; [reflexivity|].
  exact (stuckState_stuck fuel [Binary64.mkTransaction "D" "A" infinity]).
Qed.

Lemma stuckState_runLoop n : forall txs,
  exists more,
    List.length more = n
    /\ Binary64.runLoop n (Binary64.stuckState txs)
       = Binary64.stuckState (txs ++ more).
Proof.
  induction n as [|n IH]; intros txs.
  - exists []. split; [reflexivity|]. now rewrite app_nil_r.
  - destruct (IH (txs ++ [Binary64.mkTransaction "D" "A" nan])) as (more & Hl & Hr).
    exists (Binary64.mkTransaction "D" "A" nan :: more). split; [cbn; lia|].
    rewrite <- app_assoc in Hr. exact Hr.
Qed.

(** *** Termination *)

(** The matrix of four debts of 2^1023 has two infinite balances, and on it
    the function never returns: the first iteration leaves [NaN] at both
    fronts, [NaN < 0.01] is false, and no later iteration evicts anybody. *)
Lemma overflow_loop_never_exits :
  Binary64.finiteBalances Binary64.overflowMatrix = false
  /\ Binary64.runLoop 1 (Binary64.initialState Binary64.overflowMatrix)
     = Binary64.stuckState [Binary64.mkTransaction "D" "A" infinity]
  /\ Binary64.diverges Binary64.overflowMatrix.
Proof.
  split; [reflexivity|]. split; [reflexivity|]. exact overflowMatrix_diverges.
Qed.

(** C9 (amended): on every matrix whose derived net balances are finite
    numbers the matching loop terminates: [simplifyDebts] returns within as
    many iterations as there are debtors and creditors (further iterations
    change nothing).  In every state the loop reaches, both fronts hold
    finite amounts of at least 0.01 and the iteration evicts the front of
    the debtor or of the creditor array; the loop exits as soon as one array
    is empty. *)
Theorem simplifyDebts_terminates (rawDebts : Binary64.DebtMap) :
  Binary64.finiteBalances rawDebts = true ->
  let N := Binary64.nonZeroUsers rawDebts in
  (exists txs,
      Binary64.simplifyDebtsFuel N rawDebts = Some txs
      /\ Binary64.simplifyDebts rawDebts txs
      /\ forall extra, Binary64.simplifyDebtsFuel (N + extra) rawDebts = Some txs)
  /\ (forall n,
         let st := Binary64.runLoop n (Binary64.initialState rawDebts) in
         match Binary64.debtors st, Binary64.creditors st with
         | d :: ds, c :: cs =>
             Binary64.goodParty d /\ Binary64.goodParty c
             /\ let st' := Binary64.loopBody d ds c cs (Binary64.transactions st) in
                Binary64.debtors st' = ds \/ Binary64.creditors st' = cs
         | _, _ => Binary64.whileLoop 0 st = Some (Binary64.transactions st)
         end).
Proof.
  intros Hf N. split.
  - destruct (double_simplifyDebts_returns rawDebts Hf) as [txs Htxs].
    exists txs. split; [exact Htxs|]. split; [now exists N|].
    intros extra. now apply double_whileLoop_more_fuel.
  - intros n st.
    assert (Hinv : Binary64.countInvariant N st).
    { apply runLoop_invariant; [apply double_loopBody_count|].
      now apply double_initial_count. }
    destruct Hinv as ((Hds & Hcs & _) & _). clearbody st.
    destruct st as [ds0 cs0 txs0].
    cbn [Binary64.debtors Binary64.creditors Binary64.transactions] in *.
    destruct ds0 as [|d ds]; [reflexivity|].
    destruct cs0 as [|c cs]; [reflexivity|].
    inversion Hds as [|? ? Hd _]; subst. inversion Hcs as [|? ? Hc _]; subst.
    repeat split; [assumption|assumption|].
    apply (double_loopBody_evicts d ds c cs txs0 Hd Hc).
Qed.

Lemma simplifyDebts_terminates_witness :
  Binary64.simplifyDebtsFuel 3 Binary64.exampleMatrix
  = Some [Binary64.mkTransaction "C" "A" 45; Binary64.mkTransaction "B" "A" 15]
  /\ exists txs, Binary64.simplifyDebts Binary64.exampleMatrix txs.
Proof.
  split; [reflexivity|].
  destruct (simplifyDebts_terminates Binary64.exampleMatrix eq_refl)
    as [(txs & _ & H & _) _].
  now exists txs.
Defined.

(** *** The number of transactions *)

(** The empty matrix has no user of non-zero balance and no transaction:
    zero transactions, which is not at most -1.  On the overflowing matrix
    six users have a non-zero balance and six transactions have been pushed
    after six iterations. *)
Lemma count_bound_fails :
  Binary64.nonZeroUsers [] = 0%nat
  /\ Binary64.simplifyDebtsFuel 0 [] = Some []
  /\ ~ Binary64.countBound []
  /\ Binary64.nonZeroUsers Binary64.overflowMatrix = 6%nat
  /\ List.length (Binary64.emitted 6 Binary64.overflowMatrix) = 6%nat
  /\ ~ Binary64.countBound Binary64.overflowMatrix.
Proof.
  split; [reflexivity|]. split; [reflexivity|]. split.
  { intros H. specialize (H 0%nat). vm_compute in H. now apply H. }
  split; [reflexivity|]. split; [reflexivity|].
  intros H. specialize (H 6%nat). vm_compute in H. now apply H.
Qed.

(** C3 (amended): on every matrix whose derived net balances are finite
    numbers, with N users of balance below -0.01 or above 0.01,
    [simplifyDebts] returns a list of at most N - 1 transactions when N is
    at least 1, and the empty list when N is 0; at no point of the run have
    more transactions been pushed. *)
Theorem transaction_count_bound (rawDebts : Binary64.DebtMap) :
  Binary64.finiteBalances rawDebts = true ->
  let N := Binary64.nonZeroUsers rawDebts in
  (exists txs,
      Binary64.simplifyDebtsFuel N rawDebts = Some txs
      /\ (Z.of_nat (List.length txs) <= Z.max 0 (Z.of_nat N - 1))%Z)
  /\ (forall n,
         (Z.of_nat (List.length (Binary64.emitted n rawDebts))
          <= Z.max 0 (Z.of_nat N - 1))%Z).
Proof.
  intros Hf N.
  assert (Hall : forall n,
             (Z.of_nat (List.length (Binary64.emitted n rawDebts))
              <= Z.max 0 (Z.of_nat N - 1))%Z).
  { intros n.
    assert (Hinv : Binary64.countInvariant N
                     (Binary64.runLoop n (Binary64.initialState rawDebts))).
    { apply runLoop_invariant; [apply double_loopBody_count|].
      now apply double_initial_count. }
    destruct Hinv as (_ & _ & Hlen). unfold Binary64.emitted. lia. }
  split; [|exact Hall].
  destruct (double_simplifyDebts_returns rawDebts Hf) as [txs Htxs].
  exists txs. split; [exact Htxs|].
  destruct (whileLoop_runLoop _ _ _ Htxs) as [-> _]. apply (Hall N).
Qed.

Lemma transaction_count_bound_witness :
  Binary64.nonZeroUsers Binary64.exampleMatrix = 3%nat
  /\ exists txs,
       Binary64.simplifyDebtsFuel 3 Binary64.exampleMatrix = Some txs
       /\ (Z.of_nat (List.length txs) <= 2)%Z.
Proof.
  split; [reflexivity|].
  destruct (transaction_count_bound Binary64.exampleMatrix eq_refl)
    as [(txs & H1 & H2) _].
  exists txs. split; [exact H1|exact H2].
Defined.

(** *** Emitted transactions *)

(** On the overflowing matrix the second transaction pushed has the amount
    [NaN], which is neither positive nor at least 0.01, and the fronts then
    hold [NaN]. *)
Lemma overflow_emits_nan :
  Binary64.emitted 2 Binary64.overflowMatrix
  = [Binary64.mkTransaction "D" "A" infinity; Binary64.mkTransaction "D" "A" nan]
  /\ (0 <? nan)%float = false
  /\ (0.01 <=? nan)%float = false
  /\ Binary64.debtors (Binary64.runLoop 1 (Binary64.initialState Binary64.overflowMatrix))
     = [Binary64.mkParty "D" nan; Binary64.mkParty "B" 0x1p1023;
        Binary64.mkParty "C" 0x1p1023]
  /\ Binary64.goodAmount nan = false.
Proof. repeat split; reflexivity. Qed.

Lemma sides_distinct balances t :
  Binary64.debtorToCreditor balances t -> Binary64.from t <> Binary64.to t.
Proof. intros (H1 & H2 & _) E. rewrite E in H1. congruence. Qed.

Lemma emitted_sides rawDebts n :
  Forall (Binary64.debtorToCreditor (Binary64.netBalances rawDebts))
         (Binary64.emitted n rawDebts).
Proof.
  assert (Hinv : Binary64.sidesInvariant (Binary64.netBalances rawDebts)
                   (Binary64.runLoop n (Binary64.initialState rawDebts))).
  { apply runLoop_invariant; [apply double_loopBody_sides|].
    apply double_initial_sides. }
  now destruct Hinv as (_ & _ & H).
Qed.

(** C10 (amended): on every matrix, every transaction that the loop pushes
    has distinct endpoints.  When the derived net balances are finite
    numbers, both fronts always hold finite remaining amounts of at least
    0.01, [simplifyDebts] returns, and every transaction has a strictly
    positive amount, at least 0.01 after rounding. *)
Theorem emitted_transactions_positive_distinct (rawDebts : Binary64.DebtMap) :
  (forall n,
      Forall (fun t => Binary64.from t <> Binary64.to t)
             (Binary64.emitted n rawDebts))
  /\ (Binary64.finiteBalances rawDebts = true ->
      (forall n,
          Binary64.amountsInvariant
            (Binary64.runLoop n (Binary64.initialState rawDebts)))
      /\ exists txs,
           Binary64.simplifyDebtsFuel (Binary64.nonZeroUsers rawDebts) rawDebts
           = Some txs
           /\ Forall (fun t => (0 <? Binary64.tx_amount t)%float = true
                               /\ (0.01 <=? Binary64.tx_amount t)%float = true
                               /\ Binary64.from t <> Binary64.to t) txs).
Proof.
  split.
  - intros n. eapply Forall_impl; [|apply emitted_sides].
    intros t. apply sides_distinct.
  - intros Hf.
    assert (Hall : forall n,
               Binary64.amountsInvariant
                 (Binary64.runLoop n (Binary64.initialState rawDebts))).
    { intros n.
      assert (Hinv : Binary64.countInvariant (Binary64.nonZeroUsers rawDebts)
                       (Binary64.runLoop n (Binary64.initialState rawDebts))).
      { apply runLoop_invariant; [apply double_loopBody_count|].
        now apply double_initial_count. }
      now destruct Hinv. }
    split; [exact Hall|].
    destruct (double_simplifyDebts_returns rawDebts Hf) as [txs Htxs].
    exists txs. split; [exact Htxs|].
    destruct (whileLoop_runLoop _ _ _ Htxs) as [-> _].
    destruct (Hall (Binary64.nonZeroUsers rawDebts)) as (_ & _ & Hpos).
    pose proof (emitted_sides rawDebts (Binary64.nonZeroUsers rawDebts)) as Hs.
    unfold Binary64.emitted in Hs.
    rewrite Forall_forall in *. intros t Ht.
    destruct (Hpos t Ht) as [H1 H2].
    repeat split; [assumption|assumption|].
    exact (sides_distinct _ _ (Hs t Ht)).
Qed.

Lemma emitted_transactions_positive_distinct_witness :
  exists txs,
    Binary64.simplifyDebtsFuel 3 Binary64.exampleMatrix = Some txs
    /\ Forall (fun t => (0 <? Binary64.tx_amount t)%float = true
                        /\ (0.01 <=? Binary64.tx_amount t)%float = true
                        /\ Binary64.from t <> Binary64.to t) txs.
Proof.
  destruct (emitted_transactions_positive_distinct Binary64.exampleMatrix)
    as [_ H].
  destruct (H eq_refl) as (_ & txs & H1 & H2).
  exists txs. split; [exact H1|exact H2].
Defined.

(** X7: on every matrix and at every point of the run, every transaction
    pushed so far goes from a user whose net balance is below -0.01 to a
    user whose net balance is above 0.01. *)
Theorem transactions_go_from_debtors_to_creditors
    (rawDebts : Binary64.DebtMap) (n : nat) :
  Forall (Binary64.debtorToCreditor (Binary64.netBalances rawDebts))
         (Binary64.emitted n rawDebts).
Proof. apply emitted_sides. Qed.

(** ** The aggregator in double precision *)

Lemma double_processShare_contribs creator amount debtMap share :
  Binary64.processShare creator amount debtMap share
  = Binary64.applyContribs (Binary64.shareContribs creator amount share) debtMap.
Proof.
  unfold Binary64.processShare, Binary64.shareContribs.
  now destruct (String.eqb (Binary64.share_user share) creator).
Qed.

Lemma double_applyContribs_app l1 l2 debtMap :
  Binary64.applyContribs (l1 ++ l2) debtMap
  = Binary64.applyContribs l2 (Binary64.applyContribs l1 debtMap).
Proof. apply fold_left_app. Qed.

Lemma double_processExpense_contribs debtMap expense :
  Binary64.processExpense debtMap expense
  = Binary64.applyContribs (Binary64.expenseContribs expense) debtMap.
Proof.
  unfold Binary64.processExpense, Binary64.expenseContribs.
  generalize (Binary64.creator expense) as cr, (Binary64.amount expense) as am.
  intros cr am. revert debtMap.
  induction (Binary64.sharedAmongst expense) as [|s ss IH]; intros m;
    cbn [fold_left flat_map]; [reflexivity|].
  now rewrite double_applyContribs_app, IH, double_processShare_contribs.
Qed.

Lemma double_calculateRawDebts_contribs expenses :
  Binary64.calculateRawDebts expenses
  = Binary64.applyContribs (flat_map Binary64.expenseContribs expenses) [].
Proof.
  unfold Binary64.calculateRawDebts. generalize ([] : Binary64.DebtMap) as m.
  induction expenses as [|e es IH]; intros m; cbn [fold_left flat_map];
    [reflexivity|].
  now rewrite double_applyContribs_app, IH, double_processExpense_contribs.
Qed.

(** Lines 42-50 seen from one entry. *)
Lemma double_addDebt_entry user creator owed debtMap d c :
  Binary64.entry d c (Binary64.addDebt user creator owed debtMap)
  = if Binary64.concerns d c (user, creator, owed)
    then Binary64.accumulate (Binary64.entry d c debtMap) owed
    else Binary64.entry d c debtMap.
Proof.
  unfold Binary64.concerns, Binary64.entry, Binary64.addDebt. cbn [fst snd].
  set (m1 := match get user debtMap with
             | Some _ => debtMap
             | None => set user [] debtMap
             end).
  set (row := match get user m1 with Some r => r | None => [] end).
  assert (Hrow : get d debtMap = None /\ d = user /\ row = []
                 \/ (exists r, get d debtMap = Some r /\ d = user /\ row = r)
                 \/ d <> user).
  { destruct (String.eqb_spec d user) as [->|Hne]; [|now right; right].
    unfold row, m1. destruct (get user debtMap) as [r|] eqn:Hg.
    - right. left. exists r. now rewrite Hg.
    - left. now rewrite get_set_same. }
  destruct (String.eqb_spec d user) as [->|Hne]; cbn [andb].
  - rewrite get_set_same.
    destruct (String.eqb_spec c creator) as [->|Hc].
    + rewrite get_set_same. unfold Binary64.accumulate. f_equal. f_equal.
      unfold Binary64.getNum, Binary64.initZero.
      destruct Hrow as [(Hg & _ & Hr)|[(r & Hg & _ & Hr)|Hne]];
        [| |congruence]; rewrite Hg, Hr.
      * cbn [get]. now rewrite get_set_same.
      * destruct (get creator r) as [v|] eqn:Hv.
        -- destruct (Binary64.falsy v); [now rewrite get_set_same|now rewrite Hv].
        -- now rewrite get_set_same.
    + rewrite get_set_other by congruence.
      destruct Hrow as [(Hg & _ & Hr)|[(r & Hg & _ & Hr)|Hne]];
        [| |congruence]; rewrite Hg, Hr; unfold Binary64.initZero.
      * cbn [get]. now rewrite get_set_other by congruence.
      * destruct (get creator r) as [v|] eqn:Hv;
          [destruct (Binary64.falsy v)|];
          try rewrite get_set_other by congruence; reflexivity.
  - rewrite get_set_other by congruence. unfold m1.
    destruct (get user debtMap); [reflexivity|].
    now rewrite get_set_other by congruence.
Qed.

Lemma double_applyContribs_entry l : forall debtMap d c,
  Binary64.entry d c (Binary64.applyContribs l debtMap)
  = fold_left Binary64.accumulate
              (map snd (filter (Binary64.concerns d c) l))
              (Binary64.entry d c debtMap).
Proof.
  induction l as [|[[u cr] owed] l IH]; intros m d c; [reflexivity|].
  cbn [Binary64.applyContribs fold_left filter fst snd].
  fold (Binary64.applyContribs l (Binary64.addDebt u cr owed m)).
  rewrite IH, double_addDebt_entry.
  now destruct (Binary64.concerns d c (u, cr, owed)).
Qed.

Lemma double_expense_obligations d c e :
  map snd (filter (Binary64.concerns d c) (Binary64.expenseContribs e))
  = Binary64.expenseObligations d c e.
Proof.
  unfold Binary64.expenseContribs, Binary64.expenseObligations.
  generalize (Binary64.creator e) as cr, (Binary64.amount e) as am. intros cr am.
  induction (Binary64.sharedAmongst e) as [|s ss IH]; simpl.
  - now destruct (String.eqb cr c).
  - rewrite filter_app, map_app.
    assert (Hs : map snd (filter (Binary64.concerns d c)
                            (Binary64.shareContribs cr am s))
                 = if String.eqb cr c
                   then if String.eqb (Binary64.share_user s) d
                           && negb (String.eqb (Binary64.share_user s) cr)
                        then [Binary64.owedAmount am (Binary64.shareType s)
                                                  (Binary64.shareValue s)]
                        else []
                   else []).
    { unfold Binary64.shareContribs.
      destruct (String.eqb_spec (Binary64.share_user s) cr) as [Hs|Hs]; simpl.
      - rewrite andb_false_r. now destruct (String.eqb cr c).
      - unfold Binary64.concerns; simpl.
        rewrite (String.eqb_sym d), (String.eqb_sym c), andb_true_r.
        destruct (String.eqb cr c); simpl.
        + rewrite andb_true_r.
          now destruct (String.eqb (Binary64.share_user s) d).
        + now rewrite andb_false_r. }
    destruct (String.eqb cr c); [f_equal; [exact Hs|exact IH]|].
    apply (f_equal2 (@app _) Hs IH).
Qed.

Lemma double_obligations d c es :
  map snd (filter (Binary64.concerns d c)
                  (flat_map Binary64.expenseContribs es))
  = Binary64.obligations d c es.
Proof.
  unfold Binary64.obligations. induction es as [|e es IH]; [reflexivity|].
  simpl. rewrite filter_app, map_app.
  apply (f_equal2 (@app _) (double_expense_obligations d c e) IH).
Qed.

Lemma double_entry_runningSum es d c :
  Binary64.entry d c (Binary64.calculateRawDebts es)
  = Binary64.runningSum (Binary64.obligations d c es).
Proof.
  now rewrite double_calculateRawDebts_contribs, double_applyContribs_entry,
    double_obligations.
Qed.

Lemma accumulate_from_Some l : forall v,
  fold_left Binary64.accumulate l (Some v) <> None.
Proof.
  induction l as [|x l IH]; intros v; [discriminate|]. apply IH.
Qed.

Lemma runningSum_None l : Binary64.runningSum l = None <-> l = [].
Proof.
  unfold Binary64.runningSum. destruct l as [|x l]; [tauto|].
  split; [|discriminate]. intros H. now apply accumulate_from_Some in H.
Qed.

Lemma double_reordered_obligations d c es es' :
  Binary64.reordered es es' ->
  Permutation (Binary64.obligations d c es) (Binary64.obligations d c es').
Proof.
  intros (es1 & Hperm & Hsame). unfold Binary64.obligations.
  transitivity (flat_map (Binary64.expenseObligations d c) es1);
    [now apply Permutation_flat_map|].
  clear Hperm. induction Hsame as [|e e' l l' (Hc & Ha & Hs) _ IH];
    cbn [flat_map]; [constructor|].
  apply Permutation_app; [|exact IH].
  unfold Binary64.expenseObligations. rewrite Hc, Ha.
  destruct (String.eqb (Binary64.creator e') c); [|constructor].
  now apply Permutation_flat_map.
Qed.

(** X1: [debtMap[d][c]] exists exactly when some expense created by [c] has
    a share of another user [d], and then holds the running sum, in the
    order of the input and in double precision, of the amounts owed by those
    shares; a running sum that is [0] or [NaN] restarts from 0. *)
Theorem raw_debt_entry_is_sum_of_obligations
    (es : list Binary64.Expense) (d c : string) :
  Binary64.entry d c (Binary64.calculateRawDebts es)
  = Binary64.runningSum (Binary64.obligations d c es)
  /\ (Binary64.entry d c (Binary64.calculateRawDebts es) = None
      <-> Binary64.obligations d c es = []).
Proof.
  split; [apply double_entry_runningSum|].
  rewrite double_entry_runningSum. apply runningSum_None.
Qed.

(** ** The net balances *)

Lemma In_keys_set {V : Type} u k (v : V) o :
  In u (keys (set k v o)) <-> u = k \/ In u (keys o).
Proof.
  rewrite keys_set. destruct (get k o) eqn:Hg.
  - split; [now right|]. intros [->|H]; [|exact H].
    apply get_keys. congruence.
  - rewrite in_app_iff. simpl. intuition congruence.
Qed.

Lemma In_keys_initZero u k o :
  In u (keys (initZero k o)) <-> u = k \/ In u (keys o).
Proof.
  unfold initZero. destruct (get k o) as [v|] eqn:Hg;
    [destruct (falsy v)|]; try apply In_keys_set.
  split; [now right|]. intros [->|H]; [|exact H]. apply get_keys. congruence.
Qed.

Lemma In_keys_balanceEntry u row debtor balances creditor :
  In u (keys (balanceEntry row debtor balances creditor))
  <-> u = creditor \/ u = debtor \/ In u (keys balances).
Proof.
  unfold balanceEntry. rewrite !In_keys_set, In_keys_initZero. tauto.
Qed.

Lemma In_keys_balanceEntries u row debtor creditors : forall balances,
  In debtor (keys balances) ->
  (In u (keys (fold_left (balanceEntry row debtor) creditors balances))
   <-> In u creditors \/ In u (keys balances)).
Proof.
  induction creditors as [|c cs IH]; intros b Hd; simpl; [tauto|].
  rewrite IH by (apply In_keys_balanceEntry; tauto).
  rewrite In_keys_balanceEntry. intuition (subst; auto).
Qed.

Lemma In_keys_balanceDebtors u rawDebts debtors : forall balances,
  In u (keys (fold_left (balanceDebtor rawDebts) debtors balances))
  <-> In u (keys balances)
      \/ In u (flat_map (fun debtor => debtor :: keys (rowOf debtor rawDebts))
                        debtors).
Proof.
  induction debtors as [|d ds IH]; intros b; simpl; [tauto|].
  rewrite IH. unfold balanceDebtor. fold (rowOf d rawDebts).
  rewrite In_keys_balanceEntries by (apply In_keys_initZero; now left).
  rewrite In_keys_initZero, in_app_iff. intuition (subst; auto).
Qed.

(** Rounding breaks the zero sum: B owes A 2^53 and C owes A 1, the balance
    of A is 2^53 + 1 rounded to 2^53, and the balances add up to -1, in
    double precision as well as exactly. *)
Lemma balances_off_by_one_in_doubles :
  Binary64.netBalances Binary64.roundingMatrix
  = [("B", (-9007199254740992)%float); ("A", 9007199254740992%float);
     ("C", (-1)%float)]
  /\ Binary64.sumValues (Binary64.netBalances Binary64.roundingMatrix)
     = (-1)%float
  /\ option_map Qred
       (Binary64.exactSum (Binary64.netBalances Binary64.roundingMatrix))
     = Some (-1)
  /\ Binary64.withinTolerance (Binary64.netBalances Binary64.roundingMatrix)
     = false
  /\ (abs (Binary64.sumValues (Binary64.netBalances Binary64.roundingMatrix))
      <=? 1e-9)%float = false.
Proof. repeat split; vm_compute; reflexivity. Qed.

(** C2 (amended): in exact arithmetic the net balances that [simplifyDebts]
    derives from any raw debt matrix hold one balance for every user of the
    matrix and for nobody else, the balance of a user is what the entries
    owe to the user minus what the user owes, and the balances of all users
    sum to zero. *)
Theorem net_balances_zero_sum (rawDebts : DebtMap) :
  let balances := netBalances rawDebts in
  NoDup (keys balances)
  /\ (forall user, In user (keys balances) <-> In user (matrixUsers rawDebts))
  /\ (forall user,
         getNum user balances
         == creditOf user rawDebts - debitOf user rawDebts)
  /\ sumOver (keys balances) balances == 0
  /\ sumValues balances == 0.
Proof.
  destruct (netBalances_inv rawDebts) as [Hnd Hsum].
  split; [exact Hnd|]. split; [|split; [|split; [|exact Hsum]]].
  - intros user. unfold netBalances, matrixUsers.
    rewrite In_keys_balanceDebtors. simpl. tauto.
  - intros user. unfold netBalances, creditOf, debitOf.
    rewrite balanceDebtors_getNum. unfold getNum at 1. simpl. ring.
  - now rewrite sumOver_keys.
Qed.

(** ** Order of the expenses *)

(** B owes A 0.01, 0.01 and 0.04: added in this order the entry is
    0.059999999999999998, added with 0.04 first it is 0.060000000000000005.
    With A owing B 0.05 the first matrix needs no transaction and the second
    has B pay 0.01 to A. *)
Lemma aggregation_depends_on_order_in_doubles :
  Binary64.reordered Binary64.smallFirst Binary64.largeFirst
  /\ Binary64.entry "B" "A" (Binary64.calculateRawDebts Binary64.smallFirst)
     = Some 0.059999999999999998%float
  /\ Binary64.entry "B" "A" (Binary64.calculateRawDebts Binary64.largeFirst)
     = Some 0.060000000000000005%float
  /\ ~ Binary64.sameMatrix (Binary64.calculateRawDebts Binary64.smallFirst)
                           (Binary64.calculateRawDebts Binary64.largeFirst)
  /\ Binary64.simplifyDebtsFuel 1 (Binary64.calculateRawDebts Binary64.smallFirst)
     = Some []
  /\ Binary64.simplifyDebtsFuel 1 (Binary64.calculateRawDebts Binary64.largeFirst)
     = Some [Binary64.mkTransaction "B" "A" 0.01].
Proof.
  split.
  { exists Binary64.largeFirst. split.
    - unfold Binary64.smallFirst, Binary64.largeFirst.
      eapply perm_trans; [apply perm_skip, perm_swap|apply perm_swap].
    - repeat constructor; reflexivity. }
  split; [reflexivity|]. split; [reflexivity|]. split.
  { intros H. specialize (H "B" "A"). vm_compute in H. discriminate. }
  split; reflexivity.
Qed.

(** C8 (amended): for every reordering of the expenses and of the shares
    within each expense, [calculateRawDebts] yields the same
    debtor-creditor pairs, and each entry is the running sum, in the order
    of the input, of the same owed amounts.  In exact arithmetic the
    accumulated amounts are therefore the same; in double precision they
    are sums of the same numbers taken in another order. *)
Theorem aggregation_order_independent :
  (forall (es es' : list Binary64.Expense) (d c : string),
      Binary64.reordered es es' ->
      Permutation (Binary64.obligations d c es) (Binary64.obligations d c es')
      /\ Binary64.entry d c (Binary64.calculateRawDebts es)
         = Binary64.runningSum (Binary64.obligations d c es)
      /\ Binary64.entry d c (Binary64.calculateRawDebts es')
         = Binary64.runningSum (Binary64.obligations d c es')
      /\ (Binary64.entry d c (Binary64.calculateRawDebts es) = None
          <-> Binary64.entry d c (Binary64.calculateRawDebts es') = None))
  /\ (forall es es' : list Expense,
         reordered es es' ->
         sameMatrix (calculateRawDebts es) (calculateRawDebts es')).
Proof.
  split; [|exact exact_order_independent].
  intros es es' d c Hre.
  pose proof (double_reordered_obligations d c es es' Hre) as Hperm.
  split; [exact Hperm|]. rewrite !double_entry_runningSum.
  split; [reflexivity|]. split; [reflexivity|].
  rewrite !runningSum_None. split; intros E; rewrite E in Hperm.
  - now apply Permutation_nil.
  - now apply Permutation_sym, Permutation_nil in Hperm.
Qed.

Lemma aggregation_order_independent_witness :
  Permutation
    (Binary64.obligations "B" "A" Binary64.smallFirst)
    (Binary64.obligations "B" "A" Binary64.largeFirst)
  /\ sameMatrix
       (calculateRawDebts [Example.expense1; Example.expense2])
       (calculateRawDebts
          [mkExpense "B" 30
             [mkShare "C" "equal" (1 # 2); mkShare "B" "equal" (1 # 2)];
           mkExpense "A" 90
             [mkShare "B" "equal" (1 # 3); mkShare "A" "equal" (1 # 3);
              mkShare "C" "equal" (1 # 3)]]).
Proof.
  destruct aggregation_order_independent as [Hd Hq]. split.
  - apply (Hd Binary64.smallFirst Binary64.largeFirst "B" "A").
    exists Binary64.largeFirst. split.
    + unfold Binary64.smallFirst, Binary64.largeFirst.
      eapply perm_trans; [apply perm_skip, perm_swap|apply perm_swap].
    + repeat constructor; reflexivity.
  - apply Hq. exists [Example.expense2; Example.expense1]. split.
    + apply perm_swap.
    + repeat constructor; simpl; apply perm_swap.
Defined.
